(** * Party highlighter: a shallow embedding of [src/taskpane/taskpane.ts]

    The task pane detects the contracting parties of a document, builds the
    surface forms ("terms") that refer to a selected party and wraps every
    hit of every term in a tagged content control.  This file embeds the
    pure helpers (string primitives, the regular expressions the source
    uses, party detection, term building) and the document-touching
    operations (search, batched annotation, clearing) over an explicit model
    of the Word host, and proves the properties stated about them. *)

From Stdlib Require Import String Ascii.
From Stdlib Require Import ZArith NArith Bool Lia Arith PeanoNat List.
From Stdlib Require Import Permutation Sorted.
Import ListNotations.

Set Implicit Arguments.

(** ** JavaScript strings

    A JavaScript string is a sequence of UTF-16 code units.  A code unit is
    an [N]; a string is a list of code units, so that [length] is the
    [.length] of the source. *)

Definition char := N.
Definition jsstring := list char.

(** ASCII literals of the source are written [js "..."]. *)
Definition js (s : string) : jsstring := map N_of_ascii (list_ascii_of_string s).

Definition dquote : char := 34%N.       (* the double quote *)
Definition ldquote : char := 8220%N.    (* U+201C *)
Definition rdquote : char := 8221%N.    (* U+201D *)
Definition rsquote : char := 8217%N.    (* U+2019 *)
Definition apostrophe : char := 39%N.
Definition newline : char := 10%N.
Definition cr : char := 13%N.
Definition tab : char := 9%N.
Definition space : char := 32%N.
Definition lparen : char := 40%N.
Definition rparen : char := 41%N.
Definition period : char := 46%N.

Definition jseqb (a b : jsstring) : bool :=
  if list_eq_dec N.eq_dec a b then true else false.

Module Chars.
Local Open Scope N_scope.

Definition inRange (lo hi c : char) : bool := (lo <=? c) && (c <=? hi).
Definition isUpper (c : char) : bool := inRange 65 90 c.
Definition isLower (c : char) : bool := inRange 97 122 c.
Definition isDigit (c : char) : bool := inRange 48 57 c.

(** [\w] : [A-Za-z0-9_]. *)
Definition isWord (c : char) : bool :=
  isUpper c || isLower c || isDigit c || (c =? 95).

(** [\s], which is also the set [String.prototype.trim] strips:
    WhiteSpace and LineTerminator code units. *)
Definition isSpace (c : char) : bool :=
  inRange 9 13 c || (c =? 32) || (c =? 160) || (c =? 5760) ||
  inRange 8192 8202 c || (c =? 8232) || (c =? 8233) || (c =? 8239) ||
  (c =? 8287) || (c =? 12288) || (c =? 65279).

Definition isLineTerminator (c : char) : bool :=
  (c =? 10) || (c =? 13) || (c =? 8232) || (c =? 8233).

(** [.] without the [s] flag. *)
Definition dot (c : char) : bool := negb (isLineTerminator c).

(** The case of a Basic Latin letter; other code units are left as they
    are.  This is what the [i] flag compares by, see [ci]. *)
Definition lower (c : char) : char := if isUpper c then c + 32 else c.
Definition upper (c : char) : char := if isLower c then c - 32 else c.

(** A pattern character [p] under the [i] flag (no [u] flag): the subject
    code unit matches when both canonicalize to the same code unit.  For a
    Basic Latin [p] that is the case exactly for [p] in either case. *)
Definition ci (p c : char) : bool := upper c =? upper p.
Definition exact (p c : char) : bool := c =? p.
Definition oneOf (l : list char) (c : char) : bool := existsb (N.eqb c) l.
End Chars.

(** A text with its Basic Latin letters lowered, or raised: the form
    under which the [i] flag compares a text with a Basic Latin pattern. *)
Definition asciiLower (s : jsstring) : jsstring := map Chars.lower s.
Definition asciiUpper (s : jsstring) : jsstring := map Chars.upper s.

(** ** Case conversion

    [String.prototype.toLowerCase] and [toUpperCase] read the string as
    code points (a surrogate pair is one code point, a surrogate on its
    own stands for itself), map every code point by the Unicode default
    case conversion, and write the result back as code units.  The
    conversion takes the mappings of UnicodeData.txt and the unconditional
    ones of SpecialCasing.txt, which may give more than one code point
    (sharp s in upper case is SS), and lowers a capital sigma to the final
    sigma where the Final_Sigma condition holds: a cased letter stands
    before it and none after it, where, looking either way, code points
    that are case-ignorable are passed over and the first one that is not
    decides.  No locale is involved.  The tables are those of Unicode
    14.0. *)

Module Unicode.
Local Open Scope N_scope.

Definition isLeadingSurrogate (c : char) : bool := Chars.inRange 0xD800 0xDBFF c.
Definition isTrailingSurrogate (c : char) : bool := Chars.inRange 0xDC00 0xDFFF c.

(** [StringToCodePoints] *)
Fixpoint stringToCodePoints (s : jsstring) : list N :=
  match s with
  | [] => []
  | h :: s' =>
      match s' with
      | l :: s'' =>
          if isLeadingSurrogate h && isTrailingSurrogate l
          then (0x10000 + (h - 0xD800) * 0x400 + (l - 0xDC00)) :: stringToCodePoints s''
          else h :: stringToCodePoints s'
      | [] => [h]
      end
  end.

(** [UTF16EncodeCodePoint] and [CodePointsToString] *)
Definition utf16EncodeCodePoint (cp : N) : jsstring :=
  if cp <? 0x10000 then [cp]
  else [0xD800 + (cp - 0x10000) / 0x400; 0xDC00 + (cp - 0x10000) mod 0x400].

Definition codePointsToString (cps : list N) : jsstring :=
  flat_map utf16EncodeCodePoint cps.

(** A run of a simple case mapping: the code points [lo], [lo + step],
    ..., [hi] are mapped to [target], [target + step], ...; a code point
    in no run is mapped to itself. *)
Definition run := (N * N * N * N)%type.

Fixpoint simpleCase (runs : list run) (c : N) : N :=
  match runs with
  | (lo, hi, step, target) :: runs' =>
      if (lo <=? c) && (c <=? hi)
      then if (c - lo) mod step =? 0 then target + (c - lo) else c
      else simpleCase runs' c
  | [] => c
  end.

Fixpoint special (table : list (N * list N)) (c : N) : option (list N) :=
  match table with
  | (k, v) :: table' => if c =? k then Some v else special table' c
  | [] => None
  end.

Definition fullCase (table : list (N * list N)) (runs : list run) (c : N) : list N :=
  match special table c with
  | Some v => v
  | None => [simpleCase runs c]
  end.

Fixpoint inRanges (ranges : list (N * N)) (c : N) : bool :=
  match ranges with
  | (lo, hi) :: ranges' => ((lo <=? c) && (c <=? hi)) || inRanges ranges' c
  | [] => false
  end.

Definition lowerRuns : list run :=
  [(0x41, 0x5A, 1, 0x61); (0xC0, 0xD6, 1, 0xE0); (0xD8, 0xDE, 1, 0xF8);
   (0x100, 0x12E, 2, 0x101); (0x132, 0x136, 2, 0x133); (0x139, 0x147, 2, 0x13A);
   (0x14A, 0x176, 2, 0x14B); (0x178, 0x178, 1, 0xFF); (0x179, 0x17D, 2, 0x17A);
   (0x181, 0x181, 1, 0x253); (0x182, 0x184, 2, 0x183); (0x186, 0x186, 1, 0x254);
   (0x187, 0x187, 1, 0x188); (0x189, 0x18A, 1, 0x256); (0x18B, 0x18B, 1, 0x18C);
   (0x18E, 0x18E, 1, 0x1DD); (0x18F, 0x18F, 1, 0x259); (0x190, 0x190, 1, 0x25B);
   (0x191, 0x191, 1, 0x192); (0x193, 0x193, 1, 0x260); (0x194, 0x194, 1, 0x263);
   (0x196, 0x196, 1, 0x269); (0x197, 0x197, 1, 0x268); (0x198, 0x198, 1, 0x199);
   (0x19C, 0x19C, 1, 0x26F); (0x19D, 0x19D, 1, 0x272); (0x19F, 0x19F, 1, 0x275);
   (0x1A0, 0x1A4, 2, 0x1A1); (0x1A6, 0x1A6, 1, 0x280); (0x1A7, 0x1A7, 1, 0x1A8);
   (0x1A9, 0x1A9, 1, 0x283); (0x1AC, 0x1AC, 1, 0x1AD); (0x1AE, 0x1AE, 1, 0x288);
   (0x1AF, 0x1AF, 1, 0x1B0); (0x1B1, 0x1B2, 1, 0x28A); (0x1B3, 0x1B5, 2, 0x1B4);
   (0x1B7, 0x1B7, 1, 0x292); (0x1B8, 0x1B8, 1, 0x1B9); (0x1BC, 0x1BC, 1, 0x1BD);
   (0x1C4, 0x1C4, 1, 0x1C6); (0x1C5, 0x1C5, 1, 0x1C6); (0x1C7, 0x1C7, 1, 0x1C9);
   (0x1C8, 0x1C8, 1, 0x1C9); (0x1CA, 0x1CA, 1, 0x1CC); (0x1CB, 0x1DB, 2, 0x1CC);
   (0x1DE, 0x1EE, 2, 0x1DF); (0x1F1, 0x1F1, 1, 0x1F3); (0x1F2, 0x1F4, 2, 0x1F3);
   (0x1F6, 0x1F6, 1, 0x195); (0x1F7, 0x1F7, 1, 0x1BF); (0x1F8, 0x21E, 2, 0x1F9);
   (0x220, 0x220, 1, 0x19E); (0x222, 0x232, 2, 0x223); (0x23A, 0x23A, 1, 0x2C65);
   (0x23B, 0x23B, 1, 0x23C); (0x23D, 0x23D, 1, 0x19A); (0x23E, 0x23E, 1, 0x2C66);
   (0x241, 0x241, 1, 0x242); (0x243, 0x243, 1, 0x180); (0x244, 0x244, 1, 0x289);
   (0x245, 0x245, 1, 0x28C); (0x246, 0x24E, 2, 0x247); (0x370, 0x372, 2, 0x371);
   (0x376, 0x376, 1, 0x377); (0x37F, 0x37F, 1, 0x3F3); (0x386, 0x386, 1, 0x3AC);
   (0x388, 0x38A, 1, 0x3AD); (0x38C, 0x38C, 1, 0x3CC); (0x38E, 0x38F, 1, 0x3CD);
   (0x391, 0x3A1, 1, 0x3B1); (0x3A3, 0x3AB, 1, 0x3C3); (0x3CF, 0x3CF, 1, 0x3D7);
   (0x3D8, 0x3EE, 2, 0x3D9); (0x3F4, 0x3F4, 1, 0x3B8); (0x3F7, 0x3F7, 1, 0x3F8);
   (0x3F9, 0x3F9, 1, 0x3F2); (0x3FA, 0x3FA, 1, 0x3FB); (0x3FD, 0x3FF, 1, 0x37B);
   (0x400, 0x40F, 1, 0x450); (0x410, 0x42F, 1, 0x430); (0x460, 0x480, 2, 0x461);
   (0x48A, 0x4BE, 2, 0x48B); (0x4C0, 0x4C0, 1, 0x4CF); (0x4C1, 0x4CD, 2, 0x4C2);
   (0x4D0, 0x52E, 2, 0x4D1); (0x531, 0x556, 1, 0x561); (0x10A0, 0x10C5, 1, 0x2D00);
   (0x10C7, 0x10C7, 1, 0x2D27); (0x10CD, 0x10CD, 1, 0x2D2D); (0x13A0, 0x13EF, 1, 0xAB70);
   (0x13F0, 0x13F5, 1, 0x13F8); (0x1C90, 0x1CBA, 1, 0x10D0); (0x1CBD, 0x1CBF, 1, 0x10FD);
   (0x1E00, 0x1E94, 2, 0x1E01); (0x1E9E, 0x1E9E, 1, 0xDF); (0x1EA0, 0x1EFE, 2, 0x1EA1);
   (0x1F08, 0x1F0F, 1, 0x1F00); (0x1F18, 0x1F1D, 1, 0x1F10); (0x1F28, 0x1F2F, 1, 0x1F20);
   (0x1F38, 0x1F3F, 1, 0x1F30); (0x1F48, 0x1F4D, 1, 0x1F40); (0x1F59, 0x1F5F, 2, 0x1F51);
   (0x1F68, 0x1F6F, 1, 0x1F60); (0x1F88, 0x1F8F, 1, 0x1F80); (0x1F98, 0x1F9F, 1, 0x1F90);
   (0x1FA8, 0x1FAF, 1, 0x1FA0); (0x1FB8, 0x1FB9, 1, 0x1FB0); (0x1FBA, 0x1FBB, 1, 0x1F70);
   (0x1FBC, 0x1FBC, 1, 0x1FB3); (0x1FC8, 0x1FCB, 1, 0x1F72); (0x1FCC, 0x1FCC, 1, 0x1FC3);
   (0x1FD8, 0x1FD9, 1, 0x1FD0); (0x1FDA, 0x1FDB, 1, 0x1F76); (0x1FE8, 0x1FE9, 1, 0x1FE0);
   (0x1FEA, 0x1FEB, 1, 0x1F7A); (0x1FEC, 0x1FEC, 1, 0x1FE5); (0x1FF8, 0x1FF9, 1, 0x1F78);
   (0x1FFA, 0x1FFB, 1, 0x1F7C); (0x1FFC, 0x1FFC, 1, 0x1FF3); (0x2126, 0x2126, 1, 0x3C9);
   (0x212A, 0x212A, 1, 0x6B); (0x212B, 0x212B, 1, 0xE5); (0x2132, 0x2132, 1, 0x214E);
   (0x2160, 0x216F, 1, 0x2170); (0x2183, 0x2183, 1, 0x2184); (0x24B6, 0x24CF, 1, 0x24D0);
   (0x2C00, 0x2C2F, 1, 0x2C30); (0x2C60, 0x2C60, 1, 0x2C61); (0x2C62, 0x2C62, 1, 0x26B);
   (0x2C63, 0x2C63, 1, 0x1D7D); (0x2C64, 0x2C64, 1, 0x27D); (0x2C67, 0x2C6B, 2, 0x2C68);
   (0x2C6D, 0x2C6D, 1, 0x251); (0x2C6E, 0x2C6E, 1, 0x271); (0x2C6F, 0x2C6F, 1, 0x250);
   (0x2C70, 0x2C70, 1, 0x252); (0x2C72, 0x2C72, 1, 0x2C73); (0x2C75, 0x2C75, 1, 0x2C76);
   (0x2C7E, 0x2C7F, 1, 0x23F); (0x2C80, 0x2CE2, 2, 0x2C81); (0x2CEB, 0x2CED, 2, 0x2CEC);
   (0x2CF2, 0x2CF2, 1, 0x2CF3); (0xA640, 0xA66C, 2, 0xA641); (0xA680, 0xA69A, 2, 0xA681);
   (0xA722, 0xA72E, 2, 0xA723); (0xA732, 0xA76E, 2, 0xA733); (0xA779, 0xA77B, 2, 0xA77A);
   (0xA77D, 0xA77D, 1, 0x1D79); (0xA77E, 0xA786, 2, 0xA77F); (0xA78B, 0xA78B, 1, 0xA78C);
   (0xA78D, 0xA78D, 1, 0x265); (0xA790, 0xA792, 2, 0xA791); (0xA796, 0xA7A8, 2, 0xA797);
   (0xA7AA, 0xA7AA, 1, 0x266); (0xA7AB, 0xA7AB, 1, 0x25C); (0xA7AC, 0xA7AC, 1, 0x261);
   (0xA7AD, 0xA7AD, 1, 0x26C); (0xA7AE, 0xA7AE, 1, 0x26A); (0xA7B0, 0xA7B0, 1, 0x29E);
   (0xA7B1, 0xA7B1, 1, 0x287); (0xA7B2, 0xA7B2, 1, 0x29D); (0xA7B3, 0xA7B3, 1, 0xAB53);
   (0xA7B4, 0xA7C2, 2, 0xA7B5); (0xA7C4, 0xA7C4, 1, 0xA794); (0xA7C5, 0xA7C5, 1, 0x282);
   (0xA7C6, 0xA7C6, 1, 0x1D8E); (0xA7C7, 0xA7C9, 2, 0xA7C8); (0xA7D0, 0xA7D0, 1, 0xA7D1);
   (0xA7D6, 0xA7D8, 2, 0xA7D7); (0xA7F5, 0xA7F5, 1, 0xA7F6); (0xFF21, 0xFF3A, 1, 0xFF41);
   (0x10400, 0x10427, 1, 0x10428); (0x104B0, 0x104D3, 1, 0x104D8);
   (0x10570, 0x1057A, 1, 0x10597); (0x1057C, 0x1058A, 1, 0x105A3);
   (0x1058C, 0x10592, 1, 0x105B3); (0x10594, 0x10595, 1, 0x105BB);
   (0x10C80, 0x10CB2, 1, 0x10CC0); (0x118A0, 0x118BF, 1, 0x118C0);
   (0x16E40, 0x16E5F, 1, 0x16E60); (0x1E900, 0x1E921, 1, 0x1E922)].

Definition lowerSpecial : list (N * list N) :=
  [(0x130, [0x69; 0x307])].

Definition upperRuns : list run :=
  [(0x61, 0x7A, 1, 0x41); (0xB5, 0xB5, 1, 0x39C); (0xE0, 0xF6, 1, 0xC0);
   (0xF8, 0xFE, 1, 0xD8); (0xFF, 0xFF, 1, 0x178); (0x101, 0x12F, 2, 0x100);
   (0x131, 0x131, 1, 0x49); (0x133, 0x137, 2, 0x132); (0x13A, 0x148, 2, 0x139);
   (0x14B, 0x177, 2, 0x14A); (0x17A, 0x17E, 2, 0x179); (0x17F, 0x17F, 1, 0x53);
   (0x180, 0x180, 1, 0x243); (0x183, 0x185, 2, 0x182); (0x188, 0x188, 1, 0x187);
   (0x18C, 0x18C, 1, 0x18B); (0x192, 0x192, 1, 0x191); (0x195, 0x195, 1, 0x1F6);
   (0x199, 0x199, 1, 0x198); (0x19A, 0x19A, 1, 0x23D); (0x19E, 0x19E, 1, 0x220);
   (0x1A1, 0x1A5, 2, 0x1A0); (0x1A8, 0x1A8, 1, 0x1A7); (0x1AD, 0x1AD, 1, 0x1AC);
   (0x1B0, 0x1B0, 1, 0x1AF); (0x1B4, 0x1B6, 2, 0x1B3); (0x1B9, 0x1B9, 1, 0x1B8);
   (0x1BD, 0x1BD, 1, 0x1BC); (0x1BF, 0x1BF, 1, 0x1F7); (0x1C5, 0x1C5, 1, 0x1C4);
   (0x1C6, 0x1C6, 1, 0x1C4); (0x1C8, 0x1C8, 1, 0x1C7); (0x1C9, 0x1C9, 1, 0x1C7);
   (0x1CB, 0x1CB, 1, 0x1CA); (0x1CC, 0x1CC, 1, 0x1CA); (0x1CE, 0x1DC, 2, 0x1CD);
   (0x1DD, 0x1DD, 1, 0x18E); (0x1DF, 0x1EF, 2, 0x1DE); (0x1F2, 0x1F2, 1, 0x1F1);
   (0x1F3, 0x1F3, 1, 0x1F1); (0x1F5, 0x1F5, 1, 0x1F4); (0x1F9, 0x21F, 2, 0x1F8);
   (0x223, 0x233, 2, 0x222); (0x23C, 0x23C, 1, 0x23B); (0x23F, 0x240, 1, 0x2C7E);
   (0x242, 0x242, 1, 0x241); (0x247, 0x24F, 2, 0x246); (0x250, 0x250, 1, 0x2C6F);
   (0x251, 0x251, 1, 0x2C6D); (0x252, 0x252, 1, 0x2C70); (0x253, 0x253, 1, 0x181);
   (0x254, 0x254, 1, 0x186); (0x256, 0x257, 1, 0x189); (0x259, 0x259, 1, 0x18F);
   (0x25B, 0x25B, 1, 0x190); (0x25C, 0x25C, 1, 0xA7AB); (0x260, 0x260, 1, 0x193);
   (0x261, 0x261, 1, 0xA7AC); (0x263, 0x263, 1, 0x194); (0x265, 0x265, 1, 0xA78D);
   (0x266, 0x266, 1, 0xA7AA); (0x268, 0x268, 1, 0x197); (0x269, 0x269, 1, 0x196);
   (0x26A, 0x26A, 1, 0xA7AE); (0x26B, 0x26B, 1, 0x2C62); (0x26C, 0x26C, 1, 0xA7AD);
   (0x26F, 0x26F, 1, 0x19C); (0x271, 0x271, 1, 0x2C6E); (0x272, 0x272, 1, 0x19D);
   (0x275, 0x275, 1, 0x19F); (0x27D, 0x27D, 1, 0x2C64); (0x280, 0x280, 1, 0x1A6);
   (0x282, 0x282, 1, 0xA7C5); (0x283, 0x283, 1, 0x1A9); (0x287, 0x287, 1, 0xA7B1);
   (0x288, 0x288, 1, 0x1AE); (0x289, 0x289, 1, 0x244); (0x28A, 0x28B, 1, 0x1B1);
   (0x28C, 0x28C, 1, 0x245); (0x292, 0x292, 1, 0x1B7); (0x29D, 0x29D, 1, 0xA7B2);
   (0x29E, 0x29E, 1, 0xA7B0); (0x345, 0x345, 1, 0x399); (0x371, 0x373, 2, 0x370);
   (0x377, 0x377, 1, 0x376); (0x37B, 0x37D, 1, 0x3FD); (0x3AC, 0x3AC, 1, 0x386);
   (0x3AD, 0x3AF, 1, 0x388); (0x3B1, 0x3C1, 1, 0x391); (0x3C2, 0x3C2, 1, 0x3A3);
   (0x3C3, 0x3CB, 1, 0x3A3); (0x3CC, 0x3CC, 1, 0x38C); (0x3CD, 0x3CE, 1, 0x38E);
   (0x3D0, 0x3D0, 1, 0x392); (0x3D1, 0x3D1, 1, 0x398); (0x3D5, 0x3D5, 1, 0x3A6);
   (0x3D6, 0x3D6, 1, 0x3A0); (0x3D7, 0x3D7, 1, 0x3CF); (0x3D9, 0x3EF, 2, 0x3D8);
   (0x3F0, 0x3F0, 1, 0x39A); (0x3F1, 0x3F1, 1, 0x3A1); (0x3F2, 0x3F2, 1, 0x3F9);
   (0x3F3, 0x3F3, 1, 0x37F); (0x3F5, 0x3F5, 1, 0x395); (0x3F8, 0x3F8, 1, 0x3F7);
   (0x3FB, 0x3FB, 1, 0x3FA); (0x430, 0x44F, 1, 0x410); (0x450, 0x45F, 1, 0x400);
   (0x461, 0x481, 2, 0x460); (0x48B, 0x4BF, 2, 0x48A); (0x4C2, 0x4CE, 2, 0x4C1);
   (0x4CF, 0x4CF, 1, 0x4C0); (0x4D1, 0x52F, 2, 0x4D0); (0x561, 0x586, 1, 0x531);
   (0x10D0, 0x10FA, 1, 0x1C90); (0x10FD, 0x10FF, 1, 0x1CBD); (0x13F8, 0x13FD, 1, 0x13F0);
   (0x1C80, 0x1C80, 1, 0x412); (0x1C81, 0x1C81, 1, 0x414); (0x1C82, 0x1C82, 1, 0x41E);
   (0x1C83, 0x1C84, 1, 0x421); (0x1C85, 0x1C85, 1, 0x422); (0x1C86, 0x1C86, 1, 0x42A);
   (0x1C87, 0x1C87, 1, 0x462); (0x1C88, 0x1C88, 1, 0xA64A); (0x1D79, 0x1D79, 1, 0xA77D);
   (0x1D7D, 0x1D7D, 1, 0x2C63); (0x1D8E, 0x1D8E, 1, 0xA7C6); (0x1E01, 0x1E95, 2, 0x1E00);
   (0x1E9B, 0x1E9B, 1, 0x1E60); (0x1EA1, 0x1EFF, 2, 0x1EA0); (0x1F00, 0x1F07, 1, 0x1F08);
   (0x1F10, 0x1F15, 1, 0x1F18); (0x1F20, 0x1F27, 1, 0x1F28); (0x1F30, 0x1F37, 1, 0x1F38);
   (0x1F40, 0x1F45, 1, 0x1F48); (0x1F51, 0x1F57, 2, 0x1F59); (0x1F60, 0x1F67, 1, 0x1F68);
   (0x1F70, 0x1F71, 1, 0x1FBA); (0x1F72, 0x1F75, 1, 0x1FC8); (0x1F76, 0x1F77, 1, 0x1FDA);
   (0x1F78, 0x1F79, 1, 0x1FF8); (0x1F7A, 0x1F7B, 1, 0x1FEA); (0x1F7C, 0x1F7D, 1, 0x1FFA);
   (0x1FB0, 0x1FB1, 1, 0x1FB8); (0x1FBE, 0x1FBE, 1, 0x399); (0x1FD0, 0x1FD1, 1, 0x1FD8);
   (0x1FE0, 0x1FE1, 1, 0x1FE8); (0x1FE5, 0x1FE5, 1, 0x1FEC); (0x214E, 0x214E, 1, 0x2132);
   (0x2170, 0x217F, 1, 0x2160); (0x2184, 0x2184, 1, 0x2183); (0x24D0, 0x24E9, 1, 0x24B6);
   (0x2C30, 0x2C5F, 1, 0x2C00); (0x2C61, 0x2C61, 1, 0x2C60); (0x2C65, 0x2C65, 1, 0x23A);
   (0x2C66, 0x2C66, 1, 0x23E); (0x2C68, 0x2C6C, 2, 0x2C67); (0x2C73, 0x2C73, 1, 0x2C72);
   (0x2C76, 0x2C76, 1, 0x2C75); (0x2C81, 0x2CE3, 2, 0x2C80); (0x2CEC, 0x2CEE, 2, 0x2CEB);
   (0x2CF3, 0x2CF3, 1, 0x2CF2); (0x2D00, 0x2D25, 1, 0x10A0); (0x2D27, 0x2D27, 1, 0x10C7);
   (0x2D2D, 0x2D2D, 1, 0x10CD); (0xA641, 0xA66D, 2, 0xA640); (0xA681, 0xA69B, 2, 0xA680);
   (0xA723, 0xA72F, 2, 0xA722); (0xA733, 0xA76F, 2, 0xA732); (0xA77A, 0xA77C, 2, 0xA779);
   (0xA77F, 0xA787, 2, 0xA77E); (0xA78C, 0xA78C, 1, 0xA78B); (0xA791, 0xA793, 2, 0xA790);
   (0xA794, 0xA794, 1, 0xA7C4); (0xA797, 0xA7A9, 2, 0xA796); (0xA7B5, 0xA7C3, 2, 0xA7B4);
   (0xA7C8, 0xA7CA, 2, 0xA7C7); (0xA7D1, 0xA7D1, 1, 0xA7D0); (0xA7D7, 0xA7D9, 2, 0xA7D6);
   (0xA7F6, 0xA7F6, 1, 0xA7F5); (0xAB53, 0xAB53, 1, 0xA7B3); (0xAB70, 0xABBF, 1, 0x13A0);
   (0xFF41, 0xFF5A, 1, 0xFF21); (0x10428, 0x1044F, 1, 0x10400);
   (0x104D8, 0x104FB, 1, 0x104B0); (0x10597, 0x105A1, 1, 0x10570);
   (0x105A3, 0x105B1, 1, 0x1057C); (0x105B3, 0x105B9, 1, 0x1058C);
   (0x105BB, 0x105BC, 1, 0x10594); (0x10CC0, 0x10CF2, 1, 0x10C80);
   (0x118C0, 0x118DF, 1, 0x118A0); (0x16E60, 0x16E7F, 1, 0x16E40);
   (0x1E922, 0x1E943, 1, 0x1E900)].

Definition upperSpecial : list (N * list N) :=
  [(0xDF, [0x53; 0x53]); (0x149, [0x2BC; 0x4E]); (0x1F0, [0x4A; 0x30C]);
   (0x390, [0x399; 0x308; 0x301]); (0x3B0, [0x3A5; 0x308; 0x301]); (0x587, [0x535; 0x552]);
   (0x1E96, [0x48; 0x331]); (0x1E97, [0x54; 0x308]); (0x1E98, [0x57; 0x30A]);
   (0x1E99, [0x59; 0x30A]); (0x1E9A, [0x41; 0x2BE]); (0x1F50, [0x3A5; 0x313]);
   (0x1F52, [0x3A5; 0x313; 0x300]); (0x1F54, [0x3A5; 0x313; 0x301]);
   (0x1F56, [0x3A5; 0x313; 0x342]); (0x1F80, [0x1F08; 0x399]); (0x1F81, [0x1F09; 0x399]);
   (0x1F82, [0x1F0A; 0x399]); (0x1F83, [0x1F0B; 0x399]); (0x1F84, [0x1F0C; 0x399]);
   (0x1F85, [0x1F0D; 0x399]); (0x1F86, [0x1F0E; 0x399]); (0x1F87, [0x1F0F; 0x399]);
   (0x1F88, [0x1F08; 0x399]); (0x1F89, [0x1F09; 0x399]); (0x1F8A, [0x1F0A; 0x399]);
   (0x1F8B, [0x1F0B; 0x399]); (0x1F8C, [0x1F0C; 0x399]); (0x1F8D, [0x1F0D; 0x399]);
   (0x1F8E, [0x1F0E; 0x399]); (0x1F8F, [0x1F0F; 0x399]); (0x1F90, [0x1F28; 0x399]);
   (0x1F91, [0x1F29; 0x399]); (0x1F92, [0x1F2A; 0x399]); (0x1F93, [0x1F2B; 0x399]);
   (0x1F94, [0x1F2C; 0x399]); (0x1F95, [0x1F2D; 0x399]); (0x1F96, [0x1F2E; 0x399]);
   (0x1F97, [0x1F2F; 0x399]); (0x1F98, [0x1F28; 0x399]); (0x1F99, [0x1F29; 0x399]);
   (0x1F9A, [0x1F2A; 0x399]); (0x1F9B, [0x1F2B; 0x399]); (0x1F9C, [0x1F2C; 0x399]);
   (0x1F9D, [0x1F2D; 0x399]); (0x1F9E, [0x1F2E; 0x399]); (0x1F9F, [0x1F2F; 0x399]);
   (0x1FA0, [0x1F68; 0x399]); (0x1FA1, [0x1F69; 0x399]); (0x1FA2, [0x1F6A; 0x399]);
   (0x1FA3, [0x1F6B; 0x399]); (0x1FA4, [0x1F6C; 0x399]); (0x1FA5, [0x1F6D; 0x399]);
   (0x1FA6, [0x1F6E; 0x399]); (0x1FA7, [0x1F6F; 0x399]); (0x1FA8, [0x1F68; 0x399]);
   (0x1FA9, [0x1F69; 0x399]); (0x1FAA, [0x1F6A; 0x399]); (0x1FAB, [0x1F6B; 0x399]);
   (0x1FAC, [0x1F6C; 0x399]); (0x1FAD, [0x1F6D; 0x399]); (0x1FAE, [0x1F6E; 0x399]);
   (0x1FAF, [0x1F6F; 0x399]); (0x1FB2, [0x1FBA; 0x399]); (0x1FB3, [0x391; 0x399]);
   (0x1FB4, [0x386; 0x399]); (0x1FB6, [0x391; 0x342]); (0x1FB7, [0x391; 0x342; 0x399]);
   (0x1FBC, [0x391; 0x399]); (0x1FC2, [0x1FCA; 0x399]); (0x1FC3, [0x397; 0x399]);
   (0x1FC4, [0x389; 0x399]); (0x1FC6, [0x397; 0x342]); (0x1FC7, [0x397; 0x342; 0x399]);
   (0x1FCC, [0x397; 0x399]); (0x1FD2, [0x399; 0x308; 0x300]);
   (0x1FD3, [0x399; 0x308; 0x301]); (0x1FD6, [0x399; 0x342]);
   (0x1FD7, [0x399; 0x308; 0x342]); (0x1FE2, [0x3A5; 0x308; 0x300]);
   (0x1FE3, [0x3A5; 0x308; 0x301]); (0x1FE4, [0x3A1; 0x313]); (0x1FE6, [0x3A5; 0x342]);
   (0x1FE7, [0x3A5; 0x308; 0x342]); (0x1FF2, [0x1FFA; 0x399]); (0x1FF3, [0x3A9; 0x399]);
   (0x1FF4, [0x38F; 0x399]); (0x1FF6, [0x3A9; 0x342]); (0x1FF7, [0x3A9; 0x342; 0x399]);
   (0x1FFC, [0x3A9; 0x399]); (0xFB00, [0x46; 0x46]); (0xFB01, [0x46; 0x49]);
   (0xFB02, [0x46; 0x4C]); (0xFB03, [0x46; 0x46; 0x49]); (0xFB04, [0x46; 0x46; 0x4C]);
   (0xFB05, [0x53; 0x54]); (0xFB06, [0x53; 0x54]); (0xFB13, [0x544; 0x546]);
   (0xFB14, [0x544; 0x535]); (0xFB15, [0x544; 0x53B]); (0xFB16, [0x54E; 0x546]);
   (0xFB17, [0x544; 0x53D])].

Definition casedRanges : list (N * N) :=
  [(0x41, 0x5A); (0x61, 0x7A); (0xAA, 0xAA); (0xB5, 0xB5); (0xBA, 0xBA); (0xC0, 0xD6);
   (0xD8, 0xF6); (0xF8, 0x1BA); (0x1BC, 0x1BF); (0x1C4, 0x293); (0x295, 0x2B8);
   (0x2C0, 0x2C1); (0x2E0, 0x2E4); (0x345, 0x345); (0x370, 0x373); (0x376, 0x377);
   (0x37A, 0x37D); (0x37F, 0x37F); (0x386, 0x386); (0x388, 0x38A); (0x38C, 0x38C);
   (0x38E, 0x3A1); (0x3A3, 0x3F5); (0x3F7, 0x481); (0x48A, 0x52F); (0x531, 0x556);
   (0x560, 0x588); (0x10A0, 0x10C5); (0x10C7, 0x10C7); (0x10CD, 0x10CD); (0x10D0, 0x10FA);
   (0x10FD, 0x10FF); (0x13A0, 0x13F5); (0x13F8, 0x13FD); (0x1C80, 0x1C88); (0x1C90, 0x1CBA);
   (0x1CBD, 0x1CBF); (0x1D00, 0x1DBF); (0x1E00, 0x1F15); (0x1F18, 0x1F1D); (0x1F20, 0x1F45);
   (0x1F48, 0x1F4D); (0x1F50, 0x1F57); (0x1F59, 0x1F59); (0x1F5B, 0x1F5B); (0x1F5D, 0x1F5D);
   (0x1F5F, 0x1F7D); (0x1F80, 0x1FB4); (0x1FB6, 0x1FBC); (0x1FBE, 0x1FBE); (0x1FC2, 0x1FC4);
   (0x1FC6, 0x1FCC); (0x1FD0, 0x1FD3); (0x1FD6, 0x1FDB); (0x1FE0, 0x1FEC); (0x1FF2, 0x1FF4);
   (0x1FF6, 0x1FFC); (0x2071, 0x2071); (0x207F, 0x207F); (0x2090, 0x209C); (0x2102, 0x2102);
   (0x2107, 0x2107); (0x210A, 0x2113); (0x2115, 0x2115); (0x2119, 0x211D); (0x2124, 0x2124);
   (0x2126, 0x2126); (0x2128, 0x2128); (0x212A, 0x212D); (0x212F, 0x2134); (0x2139, 0x2139);
   (0x213C, 0x213F); (0x2145, 0x2149); (0x214E, 0x214E); (0x2160, 0x217F); (0x2183, 0x2184);
   (0x24B6, 0x24E9); (0x2C00, 0x2CE4); (0x2CEB, 0x2CEE); (0x2CF2, 0x2CF3); (0x2D00, 0x2D25);
   (0x2D27, 0x2D27); (0x2D2D, 0x2D2D); (0xA640, 0xA66D); (0xA680, 0xA69D); (0xA722, 0xA787);
   (0xA78B, 0xA78E); (0xA790, 0xA7CA); (0xA7D0, 0xA7D1); (0xA7D3, 0xA7D3); (0xA7D5, 0xA7D9);
   (0xA7F5, 0xA7F6); (0xA7F8, 0xA7FA); (0xAB30, 0xAB5A); (0xAB5C, 0xAB68); (0xAB70, 0xABBF);
   (0xFB00, 0xFB06); (0xFB13, 0xFB17); (0xFF21, 0xFF3A); (0xFF41, 0xFF5A);
   (0x10400, 0x1044F); (0x104B0, 0x104D3); (0x104D8, 0x104FB); (0x10570, 0x1057A);
   (0x1057C, 0x1058A); (0x1058C, 0x10592); (0x10594, 0x10595); (0x10597, 0x105A1);
   (0x105A3, 0x105B1); (0x105B3, 0x105B9); (0x105BB, 0x105BC); (0x10780, 0x10780);
   (0x10783, 0x10785); (0x10787, 0x107B0); (0x107B2, 0x107BA); (0x10C80, 0x10CB2);
   (0x10CC0, 0x10CF2); (0x118A0, 0x118DF); (0x16E40, 0x16E7F); (0x1D400, 0x1D454);
   (0x1D456, 0x1D49C); (0x1D49E, 0x1D49F); (0x1D4A2, 0x1D4A2); (0x1D4A5, 0x1D4A6);
   (0x1D4A9, 0x1D4AC); (0x1D4AE, 0x1D4B9); (0x1D4BB, 0x1D4BB); (0x1D4BD, 0x1D4C3);
   (0x1D4C5, 0x1D505); (0x1D507, 0x1D50A); (0x1D50D, 0x1D514); (0x1D516, 0x1D51C);
   (0x1D51E, 0x1D539); (0x1D53B, 0x1D53E); (0x1D540, 0x1D544); (0x1D546, 0x1D546);
   (0x1D54A, 0x1D550); (0x1D552, 0x1D6A5); (0x1D6A8, 0x1D6C0); (0x1D6C2, 0x1D6DA);
   (0x1D6DC, 0x1D6FA); (0x1D6FC, 0x1D714); (0x1D716, 0x1D734); (0x1D736, 0x1D74E);
   (0x1D750, 0x1D76E); (0x1D770, 0x1D788); (0x1D78A, 0x1D7A8); (0x1D7AA, 0x1D7C2);
   (0x1D7C4, 0x1D7CB); (0x1DF00, 0x1DF09); (0x1DF0B, 0x1DF1E); (0x1E900, 0x1E943);
   (0x1F130, 0x1F149); (0x1F150, 0x1F169); (0x1F170, 0x1F189)].

Definition caseIgnorableRanges : list (N * N) :=
  [(0x27, 0x27); (0x2E, 0x2E); (0x3A, 0x3A); (0x5E, 0x5E); (0x60, 0x60); (0xA8, 0xA8);
   (0xAD, 0xAD); (0xAF, 0xAF); (0xB4, 0xB4); (0xB7, 0xB8); (0x2B0, 0x36F); (0x374, 0x375);
   (0x37A, 0x37A); (0x384, 0x385); (0x387, 0x387); (0x483, 0x489); (0x559, 0x559);
   (0x55F, 0x55F); (0x591, 0x5BD); (0x5BF, 0x5BF); (0x5C1, 0x5C2); (0x5C4, 0x5C5);
   (0x5C7, 0x5C7); (0x5F4, 0x5F4); (0x600, 0x605); (0x610, 0x61A); (0x61C, 0x61C);
   (0x640, 0x640); (0x64B, 0x65F); (0x670, 0x670); (0x6D6, 0x6DD); (0x6DF, 0x6E8);
   (0x6EA, 0x6ED); (0x70F, 0x70F); (0x711, 0x711); (0x730, 0x74A); (0x7A6, 0x7B0);
   (0x7EB, 0x7F5); (0x7FA, 0x7FA); (0x7FD, 0x7FD); (0x816, 0x82D); (0x859, 0x85B);
   (0x888, 0x888); (0x890, 0x891); (0x898, 0x89F); (0x8C9, 0x902); (0x93A, 0x93A);
   (0x93C, 0x93C); (0x941, 0x948); (0x94D, 0x94D); (0x951, 0x957); (0x962, 0x963);
   (0x971, 0x971); (0x981, 0x981); (0x9BC, 0x9BC); (0x9C1, 0x9C4); (0x9CD, 0x9CD);
   (0x9E2, 0x9E3); (0x9FE, 0x9FE); (0xA01, 0xA02); (0xA3C, 0xA3C); (0xA41, 0xA42);
   (0xA47, 0xA48); (0xA4B, 0xA4D); (0xA51, 0xA51); (0xA70, 0xA71); (0xA75, 0xA75);
   (0xA81, 0xA82); (0xABC, 0xABC); (0xAC1, 0xAC5); (0xAC7, 0xAC8); (0xACD, 0xACD);
   (0xAE2, 0xAE3); (0xAFA, 0xAFF); (0xB01, 0xB01); (0xB3C, 0xB3C); (0xB3F, 0xB3F);
   (0xB41, 0xB44); (0xB4D, 0xB4D); (0xB55, 0xB56); (0xB62, 0xB63); (0xB82, 0xB82);
   (0xBC0, 0xBC0); (0xBCD, 0xBCD); (0xC00, 0xC00); (0xC04, 0xC04); (0xC3C, 0xC3C);
   (0xC3E, 0xC40); (0xC46, 0xC48); (0xC4A, 0xC4D); (0xC55, 0xC56); (0xC62, 0xC63);
   (0xC81, 0xC81); (0xCBC, 0xCBC); (0xCBF, 0xCBF); (0xCC6, 0xCC6); (0xCCC, 0xCCD);
   (0xCE2, 0xCE3); (0xD00, 0xD01); (0xD3B, 0xD3C); (0xD41, 0xD44); (0xD4D, 0xD4D);
   (0xD62, 0xD63); (0xD81, 0xD81); (0xDCA, 0xDCA); (0xDD2, 0xDD4); (0xDD6, 0xDD6);
   (0xE31, 0xE31); (0xE34, 0xE3A); (0xE46, 0xE4E); (0xEB1, 0xEB1); (0xEB4, 0xEBC);
   (0xEC6, 0xEC6); (0xEC8, 0xECD); (0xF18, 0xF19); (0xF35, 0xF35); (0xF37, 0xF37);
   (0xF39, 0xF39); (0xF71, 0xF7E); (0xF80, 0xF84); (0xF86, 0xF87); (0xF8D, 0xF97);
   (0xF99, 0xFBC); (0xFC6, 0xFC6); (0x102D, 0x1030); (0x1032, 0x1037); (0x1039, 0x103A);
   (0x103D, 0x103E); (0x1058, 0x1059); (0x105E, 0x1060); (0x1071, 0x1074); (0x1082, 0x1082);
   (0x1085, 0x1086); (0x108D, 0x108D); (0x109D, 0x109D); (0x10FC, 0x10FC); (0x135D, 0x135F);
   (0x1712, 0x1714); (0x1732, 0x1733); (0x1752, 0x1753); (0x1772, 0x1773); (0x17B4, 0x17B5);
   (0x17B7, 0x17BD); (0x17C6, 0x17C6); (0x17C9, 0x17D3); (0x17D7, 0x17D7); (0x17DD, 0x17DD);
   (0x180B, 0x180F); (0x1843, 0x1843); (0x1885, 0x1886); (0x18A9, 0x18A9); (0x1920, 0x1922);
   (0x1927, 0x1928); (0x1932, 0x1932); (0x1939, 0x193B); (0x1A17, 0x1A18); (0x1A1B, 0x1A1B);
   (0x1A56, 0x1A56); (0x1A58, 0x1A5E); (0x1A60, 0x1A60); (0x1A62, 0x1A62); (0x1A65, 0x1A6C);
   (0x1A73, 0x1A7C); (0x1A7F, 0x1A7F); (0x1AA7, 0x1AA7); (0x1AB0, 0x1ACE); (0x1B00, 0x1B03);
   (0x1B34, 0x1B34); (0x1B36, 0x1B3A); (0x1B3C, 0x1B3C); (0x1B42, 0x1B42); (0x1B6B, 0x1B73);
   (0x1B80, 0x1B81); (0x1BA2, 0x1BA5); (0x1BA8, 0x1BA9); (0x1BAB, 0x1BAD); (0x1BE6, 0x1BE6);
   (0x1BE8, 0x1BE9); (0x1BED, 0x1BED); (0x1BEF, 0x1BF1); (0x1C2C, 0x1C33); (0x1C36, 0x1C37);
   (0x1C78, 0x1C7D); (0x1CD0, 0x1CD2); (0x1CD4, 0x1CE0); (0x1CE2, 0x1CE8); (0x1CED, 0x1CED);
   (0x1CF4, 0x1CF4); (0x1CF8, 0x1CF9); (0x1D2C, 0x1D6A); (0x1D78, 0x1D78); (0x1D9B, 0x1DFF);
   (0x1FBD, 0x1FBD); (0x1FBF, 0x1FC1); (0x1FCD, 0x1FCF); (0x1FDD, 0x1FDF); (0x1FED, 0x1FEF);
   (0x1FFD, 0x1FFE); (0x200B, 0x200F); (0x2018, 0x2019); (0x2024, 0x2024); (0x2027, 0x2027);
   (0x202A, 0x202E); (0x2060, 0x2064); (0x2066, 0x206F); (0x2071, 0x2071); (0x207F, 0x207F);
   (0x2090, 0x209C); (0x20D0, 0x20F0); (0x2C7C, 0x2C7D); (0x2CEF, 0x2CF1); (0x2D6F, 0x2D6F);
   (0x2D7F, 0x2D7F); (0x2DE0, 0x2DFF); (0x2E2F, 0x2E2F); (0x3005, 0x3005); (0x302A, 0x302D);
   (0x3031, 0x3035); (0x303B, 0x303B); (0x3099, 0x309E); (0x30FC, 0x30FE); (0xA015, 0xA015);
   (0xA4F8, 0xA4FD); (0xA60C, 0xA60C); (0xA66F, 0xA672); (0xA674, 0xA67D); (0xA67F, 0xA67F);
   (0xA69C, 0xA69F); (0xA6F0, 0xA6F1); (0xA700, 0xA721); (0xA770, 0xA770); (0xA788, 0xA78A);
   (0xA7F2, 0xA7F4); (0xA7F8, 0xA7F9); (0xA802, 0xA802); (0xA806, 0xA806); (0xA80B, 0xA80B);
   (0xA825, 0xA826); (0xA82C, 0xA82C); (0xA8C4, 0xA8C5); (0xA8E0, 0xA8F1); (0xA8FF, 0xA8FF);
   (0xA926, 0xA92D); (0xA947, 0xA951); (0xA980, 0xA982); (0xA9B3, 0xA9B3); (0xA9B6, 0xA9B9);
   (0xA9BC, 0xA9BD); (0xA9CF, 0xA9CF); (0xA9E5, 0xA9E6); (0xAA29, 0xAA2E); (0xAA31, 0xAA32);
   (0xAA35, 0xAA36); (0xAA43, 0xAA43); (0xAA4C, 0xAA4C); (0xAA70, 0xAA70); (0xAA7C, 0xAA7C);
   (0xAAB0, 0xAAB0); (0xAAB2, 0xAAB4); (0xAAB7, 0xAAB8); (0xAABE, 0xAABF); (0xAAC1, 0xAAC1);
   (0xAADD, 0xAADD); (0xAAEC, 0xAAED); (0xAAF3, 0xAAF4); (0xAAF6, 0xAAF6); (0xAB5B, 0xAB5F);
   (0xAB69, 0xAB6B); (0xABE5, 0xABE5); (0xABE8, 0xABE8); (0xABED, 0xABED); (0xFB1E, 0xFB1E);
   (0xFBB2, 0xFBC2); (0xFE00, 0xFE0F); (0xFE13, 0xFE13); (0xFE20, 0xFE2F); (0xFE52, 0xFE52);
   (0xFE55, 0xFE55); (0xFEFF, 0xFEFF); (0xFF07, 0xFF07); (0xFF0E, 0xFF0E); (0xFF1A, 0xFF1A);
   (0xFF3E, 0xFF3E); (0xFF40, 0xFF40); (0xFF70, 0xFF70); (0xFF9E, 0xFF9F); (0xFFE3, 0xFFE3);
   (0xFFF9, 0xFFFB); (0x101FD, 0x101FD); (0x102E0, 0x102E0); (0x10376, 0x1037A);
   (0x10780, 0x10785); (0x10787, 0x107B0); (0x107B2, 0x107BA); (0x10A01, 0x10A03);
   (0x10A05, 0x10A06); (0x10A0C, 0x10A0F); (0x10A38, 0x10A3A); (0x10A3F, 0x10A3F);
   (0x10AE5, 0x10AE6); (0x10D24, 0x10D27); (0x10EAB, 0x10EAC); (0x10F46, 0x10F50);
   (0x10F82, 0x10F85); (0x11001, 0x11001); (0x11038, 0x11046); (0x11070, 0x11070);
   (0x11073, 0x11074); (0x1107F, 0x11081); (0x110B3, 0x110B6); (0x110B9, 0x110BA);
   (0x110BD, 0x110BD); (0x110C2, 0x110C2); (0x110CD, 0x110CD); (0x11100, 0x11102);
   (0x11127, 0x1112B); (0x1112D, 0x11134); (0x11173, 0x11173); (0x11180, 0x11181);
   (0x111B6, 0x111BE); (0x111C9, 0x111CC); (0x111CF, 0x111CF); (0x1122F, 0x11231);
   (0x11234, 0x11234); (0x11236, 0x11237); (0x1123E, 0x1123E); (0x112DF, 0x112DF);
   (0x112E3, 0x112EA); (0x11300, 0x11301); (0x1133B, 0x1133C); (0x11340, 0x11340);
   (0x11366, 0x1136C); (0x11370, 0x11374); (0x11438, 0x1143F); (0x11442, 0x11444);
   (0x11446, 0x11446); (0x1145E, 0x1145E); (0x114B3, 0x114B8); (0x114BA, 0x114BA);
   (0x114BF, 0x114C0); (0x114C2, 0x114C3); (0x115B2, 0x115B5); (0x115BC, 0x115BD);
   (0x115BF, 0x115C0); (0x115DC, 0x115DD); (0x11633, 0x1163A); (0x1163D, 0x1163D);
   (0x1163F, 0x11640); (0x116AB, 0x116AB); (0x116AD, 0x116AD); (0x116B0, 0x116B5);
   (0x116B7, 0x116B7); (0x1171D, 0x1171F); (0x11722, 0x11725); (0x11727, 0x1172B);
   (0x1182F, 0x11837); (0x11839, 0x1183A); (0x1193B, 0x1193C); (0x1193E, 0x1193E);
   (0x11943, 0x11943); (0x119D4, 0x119D7); (0x119DA, 0x119DB); (0x119E0, 0x119E0);
   (0x11A01, 0x11A0A); (0x11A33, 0x11A38); (0x11A3B, 0x11A3E); (0x11A47, 0x11A47);
   (0x11A51, 0x11A56); (0x11A59, 0x11A5B); (0x11A8A, 0x11A96); (0x11A98, 0x11A99);
   (0x11C30, 0x11C36); (0x11C38, 0x11C3D); (0x11C3F, 0x11C3F); (0x11C92, 0x11CA7);
   (0x11CAA, 0x11CB0); (0x11CB2, 0x11CB3); (0x11CB5, 0x11CB6); (0x11D31, 0x11D36);
   (0x11D3A, 0x11D3A); (0x11D3C, 0x11D3D); (0x11D3F, 0x11D45); (0x11D47, 0x11D47);
   (0x11D90, 0x11D91); (0x11D95, 0x11D95); (0x11D97, 0x11D97); (0x11EF3, 0x11EF4);
   (0x13430, 0x13438); (0x16AF0, 0x16AF4); (0x16B30, 0x16B36); (0x16B40, 0x16B43);
   (0x16F4F, 0x16F4F); (0x16F8F, 0x16F9F); (0x16FE0, 0x16FE1); (0x16FE3, 0x16FE4);
   (0x1AFF0, 0x1AFF3); (0x1AFF5, 0x1AFFB); (0x1AFFD, 0x1AFFE); (0x1BC9D, 0x1BC9E);
   (0x1BCA0, 0x1BCA3); (0x1CF00, 0x1CF2D); (0x1CF30, 0x1CF46); (0x1D167, 0x1D169);
   (0x1D173, 0x1D182); (0x1D185, 0x1D18B); (0x1D1AA, 0x1D1AD); (0x1D242, 0x1D244);
   (0x1DA00, 0x1DA36); (0x1DA3B, 0x1DA6C); (0x1DA75, 0x1DA75); (0x1DA84, 0x1DA84);
   (0x1DA9B, 0x1DA9F); (0x1DAA1, 0x1DAAF); (0x1E000, 0x1E006); (0x1E008, 0x1E018);
   (0x1E01B, 0x1E021); (0x1E023, 0x1E024); (0x1E026, 0x1E02A); (0x1E130, 0x1E13D);
   (0x1E2AE, 0x1E2AE); (0x1E2EC, 0x1E2EF); (0x1E8D0, 0x1E8D6); (0x1E944, 0x1E94B);
   (0x1F3FB, 0x1F3FF); (0xE0001, 0xE0001); (0xE0020, 0xE007F); (0xE0100, 0xE01EF)].

Definition toLower (c : N) : list N := fullCase lowerSpecial lowerRuns c.
Definition toUpper (c : N) : list N := fullCase upperSpecial upperRuns c.
Definition cased (c : N) : bool := inRanges casedRanges c.
Definition caseIgnorable (c : N) : bool := inRanges caseIgnorableRanges c.

Definition capitalSigma : N := 0x3A3.
Definition smallSigma : N := 0x3C3.
Definition finalSigma : N := 0x3C2.

(** The second half of Final_Sigma: no cased letter follows, case-ignorable
    code points apart. *)
Fixpoint casedAhead (cps : list N) : bool :=
  match cps with
  | c :: cps' => if caseIgnorable c then casedAhead cps' else cased c
  | [] => false
  end.

(** Lowering, left to right.  [before] is the first half of Final_Sigma:
    a cased letter stands before this place, case-ignorable code points
    apart. *)
Fixpoint lowerFrom (before : bool) (cps : list N) : list N :=
  match cps with
  | c :: cps' =>
      (if c =? capitalSigma
       then [if before && negb (casedAhead cps') then finalSigma else smallSigma]
       else toLower c)
      ++ lowerFrom (if caseIgnorable c then before else cased c) cps'
  | [] => []
  end.
End Unicode.

Definition toLowerCase (s : jsstring) : jsstring :=
  Unicode.codePointsToString (Unicode.lowerFrom false (Unicode.stringToCodePoints s)).

Definition toUpperCase (s : jsstring) : jsstring :=
  Unicode.codePointsToString (flat_map Unicode.toUpper (Unicode.stringToCodePoints s)).

Fixpoint dropWhile (p : char -> bool) (s : jsstring) : jsstring :=
  match s with
  | c :: s' => if p c then dropWhile p s' else s
  | [] => []
  end.

Definition trimStart (s : jsstring) : jsstring := dropWhile Chars.isSpace s.
Definition trimEnd (s : jsstring) : jsstring := rev (dropWhile Chars.isSpace (rev s)).
Definition trim (s : jsstring) : jsstring := trimEnd (trimStart s).

(** [s.endsWith(c)] for a one-unit needle. *)
Definition endsWith (c : char) (s : jsstring) : bool :=
  match rev s with
  | x :: _ => N.eqb x c
  | [] => false
  end.

(** Truthiness of a string: non-empty. *)
Definition truthy (s : jsstring) : bool :=
  match s with [] => false | _ => true end.

(** ** Regular expressions

    The fragment of ECMAScript regular expressions the source uses:
    character classes, sequence, alternation, the greedy optional group,
    quantified classes (greedy and lazy, bounded and unbounded), capture
    groups, [^], [$] and [\b].  Matching is by backtracking, in
    continuation-passing style, in the order the language defines. *)

Module Regex.

Inductive regex :=
| Eps
| Cls (p : char -> bool)
| Seq (r1 r2 : regex)
| Alt (r1 r2 : regex)
| Opt (r : regex)
| Rep (greedy : bool) (lo : nat) (hi : option nat) (p : char -> bool)
| Grp (i : nat) (r : regex)
| Bol
| Eol
| Wb.

(** Captures: group number to captured text; an absent group is
    [undefined]. *)
Definition caps := list (nat * jsstring).

Fixpoint getCap (i : nat) (cs : caps) : option jsstring :=
  match cs with
  | (j, v) :: cs' => if Nat.eqb i j then Some v else getCap i cs'
  | [] => None
  end.

Definition below (cnt : nat) (hi : option nat) : bool :=
  match hi with Some h => cnt <? h | None => true end.

Definition isWordOpt (o : option char) : bool :=
  match o with Some c => Chars.isWord c | None => false end.

Section Run.
Variable A : Type.

(** The state of a match is the code unit before the current position
    (for [^] and [\b]) and the rest of the subject. *)

Fixpoint repGreedy (p : char -> bool) (lo : nat) (hi : option nat) (cnt : nat)
         (prev : option char) (s : jsstring)
         (k : option char -> jsstring -> option A) : option A :=
  let stop := if lo <=? cnt then k prev s else None in
  match s with
  | c :: s' =>
      if p c && below cnt hi then
        match repGreedy p lo hi (S cnt) (Some c) s' k with
        | Some a => Some a
        | None => stop
        end
      else stop
  | [] => stop
  end.

Fixpoint repLazy (p : char -> bool) (lo : nat) (hi : option nat) (cnt : nat)
         (prev : option char) (s : jsstring)
         (k : option char -> jsstring -> option A) : option A :=
  let more :=
    match s with
    | c :: s' =>
        if p c && below cnt hi then repLazy p lo hi (S cnt) (Some c) s' k
        else None
    | [] => None
    end in
  if lo <=? cnt then
    match k prev s with
    | Some a => Some a
    | None => more
    end
  else more.

Fixpoint run (r : regex) (prev : option char) (s : jsstring) (cs : caps)
         (k : option char -> jsstring -> caps -> option A) : option A :=
  match r with
  | Eps => k prev s cs
  | Cls p =>
      match s with
      | c :: s' => if p c then k (Some c) s' cs else None
      | [] => None
      end
  | Seq r1 r2 => run r1 prev s cs (fun prev' s' cs' => run r2 prev' s' cs' k)
  | Alt r1 r2 =>
      match run r1 prev s cs k with
      | Some a => Some a
      | None => run r2 prev s cs k
      end
  | Opt r1 =>
      match run r1 prev s cs k with
      | Some a => Some a
      | None => k prev s cs
      end
  | Rep g lo hi p =>
      (if g then repGreedy else repLazy) p lo hi 0 prev s
        (fun prev' s' => k prev' s' cs)
  | Grp i r1 =>
      run r1 prev s cs
        (fun prev' s' cs' =>
           k prev' s' ((i, firstn (length s - length s') s) :: cs'))
  | Bol => match prev with None => k prev s cs | Some _ => None end
  | Eol => match s with [] => k prev s cs | _ :: _ => None end
  | Wb =>
      if xorb (isWordOpt prev) (isWordOpt (hd_error s)) then k prev s cs
      else None
  end.
End Run.

(** A match attempt at one position: the number of code units matched and
    the captures. *)
Definition matchAt (r : regex) (prev : option char) (s : jsstring)
  : option (nat * caps) :=
  run r prev s [] (fun _ s' cs => Some (length s - length s', cs)).

Record result := mkResult
  { before : jsstring; matched : jsstring; groups : caps; after : jsstring }.

(** [exec]: the leftmost match. *)
Fixpoint execFrom (r : regex) (prev : option char) (pre : jsstring) (s : jsstring)
  : option result :=
  match matchAt r prev s with
  | Some (n, cs) => Some (mkResult (rev pre) (firstn n s) cs (skipn n s))
  | None =>
      match s with
      | c :: s' => execFrom r (Some c) (c :: pre) s'
      | [] => None
      end
  end.

Definition exec (r : regex) (s : jsstring) : option result := execFrom r None [] s.

Definition test (r : regex) (s : jsstring) : bool :=
  match exec r s with Some _ => true | None => false end.

(** [s.replace(r, f)] without the [g] flag. *)
Definition replace (r : regex) (f : jsstring -> jsstring) (s : jsstring) : jsstring :=
  match exec r s with
  | Some m => before m ++ f (matched m) ++ after m
  | None => s
  end.

(** [s.replace(r, f)] with the [g] flag: matches are found left to
    right, each search starting where the last match ended; after an
    empty match the search moves on by one code unit.  [skip] counts the
    code units of the current match still to be passed over. *)
Fixpoint replaceAllFrom (r : regex) (f : jsstring -> jsstring)
         (prev : option char) (skip : nat) (s : jsstring) : jsstring :=
  match s with
  | c :: s' =>
      match skip with
      | S skip' => replaceAllFrom r f (Some c) skip' s'
      | O =>
          match matchAt r prev s with
          | Some (S n, _) => f (firstn (S n) s) ++ replaceAllFrom r f (Some c) n s'
          | Some (O, _) => f [] ++ c :: replaceAllFrom r f (Some c) O s'
          | None => c :: replaceAllFrom r f (Some c) O s'
          end
      end
  | [] =>
      match skip, matchAt r prev [] with
      | O, Some _ => f []
      | _, _ => []
      end
  end.

Definition replaceAll (r : regex) (f : jsstring -> jsstring) (s : jsstring) : jsstring :=
  replaceAllFrom r f None O s.

(** [s.split(r)]: the pieces between the matches of [r]; a match that
    ends where the current piece starts does not split. *)
Fixpoint splitFrom (r : regex) (prev : option char) (skip : nat)
         (piece : jsstring) (s : jsstring) : list jsstring :=
  match s with
  | c :: s' =>
      match skip with
      | S skip' => splitFrom r (Some c) skip' piece s'
      | O =>
          match matchAt r prev s with
          | Some (S n, _) => rev piece :: splitFrom r (Some c) n [] s'
          | Some (O, _) =>
              match piece with
              | [] => splitFrom r (Some c) O [c] s'
              | _ :: _ => rev piece :: splitFrom r (Some c) O [c] s'
              end
          | None => splitFrom r (Some c) O (c :: piece) s'
          end
      end
  | [] => [rev piece]
  end.

Definition split (r : regex) (s : jsstring) : list jsstring :=
  match s with
  | [] => match matchAt r None [] with Some _ => [] | None => [[]] end
  | _ :: _ => splitFrom r None O [] s
  end.

(** Pattern syntax. *)
Fixpoint lit (cmp : char -> char -> bool) (w : jsstring) : regex :=
  match w with
  | [] => Eps
  | [c] => Cls (cmp c)
  | c :: w' => Seq (Cls (cmp c)) (lit cmp w')
  end.

Fixpoint seqs (l : list regex) : regex :=
  match l with
  | [] => Eps
  | [r] => r
  | r :: l' => Seq r (seqs l')
  end.

Fixpoint alts (l : list regex) : regex :=
  match l with
  | [] => Eps
  | [r] => r
  | r :: l' => Alt r (alts l')
  end.

Definition star p := Rep true 0 None p.
Definition plus p := Rep true 1 None p.
End Regex.
Import Regex.

(** Literal text of a pattern, with and without the [i] flag. *)
Definition litI (w : string) : regex := lit Chars.ci (js w).
Definition litS (w : string) : regex := lit Chars.exact (js w).
Definition cspace : regex := Cls Chars.isSpace.

Definition const (v : jsstring) : jsstring -> jsstring := fun _ => v.

(** ** Data model *)

(** [type Party = { name: string; role?: string }] *)
Record Party := mkParty { name : jsstring; role : option jsstring }.

Definition TAG : jsstring := js "AI_PARTY_HL".
Definition HIGHLIGHT_COLOR : jsstring := js "Turquoise".
Definition BATCH_SIZE : Z := 60.
Definition PRONOUN_HIT_CAP : nat := 250.

(** [/^(services?|deliverables?|agreement|parties?)$/i] *)
Definition STOPWORDS : regex :=
  seqs [Bol;
        Grp 1 (alts [Seq (litI "service") (Opt (litI "s"));
                     Seq (litI "deliverable") (Opt (litI "s"));
                     litI "agreement";
                     Seq (litI "partie") (Opt (litI "s"))]);
        Eol].

(** A JavaScript [Set<string>] keeps its elements in insertion order and
    [Array.from] lists them in that order: a duplicate-free list, new
    elements at the end. *)
Definition setHas (set : list jsstring) (s : jsstring) : bool :=
  existsb (jseqb s) set.

Definition setAdd (set : list jsstring) (s : jsstring) : list jsstring :=
  if setHas set s then set else set ++ [s].

(** [dedupe(arr) = Array.from(new Set(arr))] *)
Definition dedupe (arr : list jsstring) : list jsstring :=
  fold_left setAdd arr [].

(** ** Party management *)

Definition equalName (a b : jsstring) : bool :=
  jseqb (toLowerCase (trim a)) (toLowerCase (trim b)).

Fixpoint dedupePartiesFrom (seen : list jsstring) (out : list Party) (arr : list Party)
  : list Party :=
  match arr with
  | p :: arr' =>
      let key := toLowerCase (trim (name p)) in
      if negb (setHas seen key)
      then dedupePartiesFrom (setAdd seen key) (out ++ [p]) arr'
      else dedupePartiesFrom seen out arr'
  | [] => out
  end.

Definition dedupeParties (arr : list Party) : list Party :=
  dedupePartiesFrom [] [] arr.

(** ** Party detection *)

(** [s.replace(/\r\n?/g, "\n").replace(/[ \t]+/g, " ").trim()] *)
Definition normalizeSpaces (s : jsstring) : jsstring :=
  let crlf := Seq (Cls (Chars.exact cr)) (Opt (Cls (Chars.exact newline))) in
  let blanks := plus (Chars.oneOf [space; tab]) in
  trim (replaceAll blanks (const (js " ")) (replaceAll crlf (const [newline]) s)).

(** [s.replace(/^[“"']|[”"']$/g, "").trim()] *)
Definition stripQuotes (s : jsstring) : jsstring :=
  let re := Alt (Seq Bol (Cls (Chars.oneOf [ldquote; dquote; apostrophe])))
                (Seq (Cls (Chars.oneOf [rdquote; dquote; apostrophe])) Eol) in
  trim (replaceAll re (const []) s).

(** The class [[,;:\-\s]]. *)
Definition edgeJunk (c : char) : bool :=
  Chars.oneOf (js ",;:-") c || Chars.isSpace c.

(** [/\b(?:by and )?between\b/i] *)
Definition betweenRe : regex :=
  seqs [Wb; Opt (litI "by and "); litI "between"; Wb].

Definition scrubName (s : jsstring) : jsstring :=
  let x := replace betweenRe (const []) s in
  let x := replaceAll (Alt (Seq Bol (plus edgeJunk)) (Seq (plus edgeJunk) Eol))
                      (const []) x in
  let x := replaceAll (Rep true 2 None Chars.isSpace) (const (js " ")) x in
  stripQuotes x.

(** [s.replace(/\w\S*/g, (w) => w[0].toUpperCase() + w.slice(1).toLowerCase())] *)
Definition titleCase (s : jsstring) : jsstring :=
  replaceAll (Seq (Cls Chars.isWord) (star (fun c => negb (Chars.isSpace c))))
             (fun w => toUpperCase (firstn 1 w) ++ toLowerCase (skipn 1 w)) s.

Definition roleWords : list string :=
  ["Company"; "Contractor"; "Client"; "Customer"; "Licensor"; "Licensee";
   "Provider"; "Vendor"; "Reseller"; "Partner"]%string.

(** [/\(\s*(?:the\s+)?["“](Company|...|Partner)["”]\s*\)/i]; the second use
    in the source has the same pattern with a non-capturing group. *)
Definition roleRe (capture : bool) : regex :=
  let words := alts (map litI roleWords) in
  seqs [Cls (Chars.exact lparen); star Chars.isSpace;
        Opt (Seq (litI "the") (plus Chars.isSpace));
        Cls (Chars.oneOf [dquote; ldquote]);
        (if capture then Grp 1 words else words);
        Cls (Chars.oneOf [dquote; rdquote]);
        star Chars.isSpace; Cls (Chars.exact rparen)].

Definition extractRole (fragment : jsstring) : Party :=
  let roleMatch := exec (roleRe true) fragment in
  let role :=
    match roleMatch with
    | Some m => option_map titleCase (getCap 1 (groups m))
    | None => None
    end in
  let name := trim (replaceAll (roleRe false) (const []) fragment) in
  mkParty (stripQuotes name) role.

(** [Inc\.?|Incorporated|Corp\.?|Corporation|LLC|L\.?L\.?C\.?|Ltd\.?|Limited|
    Holdings|Group|Partners|Company] *)
Definition orgSuffix (cmp : char -> char -> bool) : regex :=
  let w (x : string) := lit cmp (js x) in
  let d := Opt (Cls (Chars.exact period)) in
  alts [Seq (w "Inc") d; w "Incorporated"; Seq (w "Corp") d; w "Corporation";
        w "LLC"; seqs [w "L"; d; w "L"; d; w "C"; d]; Seq (w "Ltd") d;
        w "Limited"; w "Holdings"; w "Group"; w "Partners"; w "Company"]%string.

(** The class [[A-Za-z0-9&.,'’\- ]]. *)
Definition orgChar (c : char) : bool :=
  Chars.isUpper c || Chars.isLower c || Chars.isDigit c ||
  Chars.oneOf (js "&.,'" ++ [rsquote] ++ js "- ") c.

Definition orgTokens : regex := Grp 1 (orgSuffix Chars.ci).

Definition orgNameRe : regex :=
  Grp 1 (seqs [Cls Chars.isUpper; Rep false 2 (Some 80) orgChar; orgSuffix Chars.exact]).

Fixpoint findOrgNamesIn (lines : list jsstring) : list jsstring :=
  match lines with
  | ln :: lines' =>
      let rest := findOrgNamesIn lines' in
      if test orgTokens ln then
        match exec orgNameRe ln with
        | Some m =>
            match getCap 1 (groups m) with
            | Some g => scrubName g :: rest
            | None => rest
            end
        | None => rest
        end
      else rest
  | [] => []
  end.

Definition findOrgNames (t : jsstring) : list jsstring :=
  let lines := firstn 40 (split (plus (Chars.exact newline)) t) in
  dedupe (findOrgNamesIn lines).

(** [/\b(?:by and )?between\s+(.{2,140}?)\s+and\s+(.{2,140}?)[\.;,\n]/i] *)
Definition recitalRe : regex :=
  seqs [Wb; Opt (litI "by and "); litI "between"; plus Chars.isSpace;
        Grp 1 (Rep false 2 (Some 140) Chars.dot);
        plus Chars.isSpace; litI "and"; plus Chars.isSpace;
        Grp 2 (Rep false 2 (Some 140) Chars.dot);
        Cls (Chars.oneOf (js ".;," ++ [newline]))].

(** The two captures of the recital pattern on the normalized text. *)
Definition recitalMatch (t : jsstring) : option (jsstring * jsstring) :=
  match exec recitalRe t with
  | Some m =>
      match getCap 1 (groups m), getCap 2 (groups m) with
      | Some a, Some b => Some (a, b)
      | _, _ => None
      end
  | None => None
  end.

(** [const a = scrubName(m[i]); if (a) candidates.push(extractRole(a));] *)
Definition pushScrubbed (candidates : list Party) (capture : jsstring) : list Party :=
  let a := scrubName capture in
  if truthy a then candidates ++ [extractRole a] else candidates.

Definition recitalCandidates (t : jsstring) : list Party :=
  match recitalMatch t with
  | Some (m1, m2) => pushScrubbed (pushScrubbed [] m1) m2
  | None => []
  end.

(** The fallback loop over the organization names, with its [break]. *)
Fixpoint orgLoop (orgs : list jsstring) (candidates : list Party) : list Party :=
  match orgs with
  | o :: orgs' =>
      let candidates :=
        if existsb (fun p => equalName (name p) o) candidates then candidates
        else candidates ++ [extractRole o] in
      if 2 <=? length candidates then candidates else orgLoop orgs' candidates
  | [] => candidates
  end.

(** The candidates before the final [slice(0, 5)]. *)
Definition detectCandidates (t : jsstring) : list Party :=
  let candidates := recitalCandidates t in
  if length candidates <? 2 then orgLoop (findOrgNames t) candidates
  else candidates.

Definition detectParties (text : jsstring) : list Party :=
  firstn 5 (detectCandidates (normalizeSpaces text)).

(** The detection pipeline of [detectAndRenderParties]: the stopword filter
    and the de-duplication applied to the detected parties. *)
Definition detectedParties (text : jsstring) : list Party :=
  dedupeParties
    (filter (fun p => negb (test STOPWORDS (trim (name p)))) (detectParties text)).

(** [onAddParty]: the new list of parties for a manual entry; [None] when
    the trimmed entry is empty and the handler returns at once. *)
Definition onAddParty (stored : option (list Party)) (input : jsstring)
  : option (list Party) :=
  let name := trim input in
  if truthy name
  then Some (dedupeParties (match stored with Some l => l | None => [] end
                            ++ [mkParty name None]))
  else None.

(** ** Term building *)

(** [if (s && s.trim()) set.add(s.trim())] *)
Definition add (set : list jsstring) (s : jsstring) : list jsstring :=
  if truthy s && truthy (trim s) then setAdd set (trim s) else set.

Definition makePossessive (s : jsstring) : jsstring :=
  if negb (truthy s) then s
  else if endsWith 115%N s || endsWith 83%N s then s ++ js "'"
       else s ++ js "'s".

Definition buildTerms (name : jsstring) (aliases pronouns : list jsstring)
  : list jsstring :=
  let unique := add [] name in
  let unique := add unique (makePossessive name) in
  let unique := fold_left (fun u a => add (add u a) (makePossessive a)) aliases unique in
  fold_left add pronouns unique.

(** [out.push(r, `the ${r}`, r.toUpperCase(), `the ${r.toUpperCase()}`)] *)
Definition addForms (out : list jsstring) (r : jsstring) : list jsstring :=
  out ++ [r; js "the " ++ r; toUpperCase r; js "the " ++ toUpperCase r].

Definition baseRoles : list jsstring := map js roleWords.

Definition buildAliases (p : Party) : list jsstring :=
  let out :=
    match role p with
    | Some r => if truthy r then addForms [] r else fold_left addForms baseRoles []
    | None => fold_left addForms baseRoles []
    end in
  dedupe out.

(** [/(holdings|group|partners)\b/i] and [/[^']s\b/i] *)
Definition pluralWordRe : regex :=
  Seq (Grp 1 (alts [litI "holdings"; litI "group"; litI "partners"])) Wb.

Definition pluralEssRe : regex :=
  seqs [Cls (fun c => negb (Chars.exact apostrophe c)); litI "s"; Wb].

Definition pluralPronouns : list jsstring := [js "they"; js "their"; js "themselves"].
Definition singularPronouns : list jsstring := [js "it"; js "its"; js "itself"].

Definition pronounsFor (name : jsstring) : list jsstring :=
  let pluralHint := test pluralWordRe name || test pluralEssRe name in
  if pluralHint then pluralPronouns else singularPronouns.

(** [/'\s*s?$/] *)
Definition possessiveRe : regex :=
  seqs [Cls (Chars.exact apostrophe); star Chars.isSpace; Opt (litS "s"); Eol].

Definition isPossessive (term : jsstring) : bool := test possessiveRe term.

(** [terms.sort((a, b) => b.length - a.length)]: the sort is stable, so
    terms of one length keep their order. *)
Fixpoint insertByLength (t : jsstring) (l : list jsstring) : list jsstring :=
  match l with
  | u :: l' => if length u <=? length t then t :: l else u :: insertByLength t l'
  | [] => [t]
  end.

Definition sortByLengthDesc (l : list jsstring) : list jsstring :=
  fold_right insertByLength [] l.

(** ** The Word host

    The document body is fixed text: [search] gives the ranges a term
    matches under given options, in document order.  Content controls wrap
    ranges and do not change the text, so they do not change what a search
    finds.  Operations are queued and take effect at [context.sync()]; a
    sync that the host refuses throws and leaves the document as it was.
    [syncOk] says, for the content controls present and the ranges queued
    for wrapping, whether the host accepts the sync (it refuses ranges that
    overlap or are invalid). *)

Record SearchOptions := mkOpts
  { matchCase : bool; matchWholeWord : bool; ignorePunct : bool; ignoreSpace : bool }.

Record ContentControl (Range : Type) := mkCC
  { ccRange : Range; ccTag : jsstring; ccHighlight : option jsstring }.

(** The part of the document that changes: its content controls, and the
    calls of [body.search] it has received so far, each with the term and
    the options it was given. *)
Record Doc (Range : Type) := mkDoc
  { controls : list (ContentControl Range);
    searches : list (jsstring * SearchOptions) }.

(** The persisted settings: [ai.parties] and [ai.selectedParty]. *)
Record Settings := mkSettings
  { parties : option (list Party); selectedParty : option jsstring }.

(** [(parties || []).find((p) => equalName(p.name, selected))
    || { name: selected }] *)
Definition partyFor (selected : jsstring) (st : Settings) : Party :=
  match find (fun p => equalName (name p) selected)
             (match parties st with Some l => l | None => [] end) with
  | Some p => p
  | None => mkParty selected None
  end.

Section Marker.
Variable Range : Type.
Variable search : jsstring -> SearchOptions -> list Range.
Variable syncOk : list (ContentControl Range) -> list Range -> bool.

Local Abbreviation CC := (ContentControl Range).

(** [r.insertContentControl(); cc.tag = TAG;
    cc.font.highlightColor = HIGHLIGHT_COLOR] *)
Definition mark (r : Range) : CC := mkCC r TAG (Some HIGHLIGHT_COLOR).

Definition isOurs (cc : CC) : bool := jseqb (ccTag cc) TAG.

(** [clearPartyHighlights]: every content control with our tag is
    deleted, its content kept. *)
Definition clearPartyHighlights (d : Doc Range) : Doc Range :=
  mkDoc (filter (fun cc => negb (isOurs cc)) (controls d)) (searches d).

(** [results.items[i]]; [undefined] outside the array. *)
Definition itemAt (items : list Range) (i : Z) : option Range :=
  if (i <? 0)%Z then None else nth_error items (Z.to_nat i).

(** [for (let i = start; i > end; i--) slice.push(results.items[i])]:
    [n] is the number of turns left, [start - end] at the beginning. *)
Fixpoint sliceLoop (items : list Range) (i : Z) (n : nat) : list (option Range) :=
  match n with
  | O => []
  | S n' => itemAt items i :: sliceLoop items (i - 1) n'
  end.

Definition buildSlice (items : list Range) (start end_ : Z) : list (option Range) :=
  sliceLoop items start (Z.to_nat (start - end_)).

Fixpoint defined (slice : list (option Range)) : option (list Range) :=
  match slice with
  | Some r :: slice' => option_map (cons r) (defined slice')
  | None :: _ => None
  | [] => Some []
  end.

(** The [try] block: wrap every range of the slice, then one sync.
    [None] when it throws. *)
Definition trySlice (cs : list CC) (slice : list (option Range)) : option (list CC) :=
  match defined slice with
  | Some rs => if syncOk cs rs then Some (cs ++ map mark rs) else None
  | None => None
  end.

(** The [catch] block: one range and one sync at a time; a range whose
    sync throws is passed over. *)
Fixpoint perItem (cs : list CC) (applied : nat) (slice : list (option Range))
  : nat * list CC :=
  match slice with
  | r :: slice' =>
      match trySlice cs [r] with
      | Some cs' => perItem cs' (S applied) slice'
      | None => perItem cs applied slice'
      end
  | [] => (applied, cs)
  end.

(** One turn of the batch loop on the slice it built. *)
Definition processSlice (st : nat * list CC) (slice : list (option Range))
  : nat * list CC :=
  let '(applied, cs) := st in
  match trySlice cs slice with
  | Some cs' => (applied + length slice, cs')
  | None => perItem cs applied slice
  end.

(** [for (let start = results.items.length - 1; start >= 0; ) { ... }].
    Every turn lowers [start]; [fuel] bounds the number of turns. *)
Fixpoint batchLoop (fuel : nat) (items : list Range) (start : Z)
         (st : nat * list CC) : option (nat * list CC) :=
  if (start <? 0)%Z then Some st
  else
    match fuel with
    | O => None
    | S fuel' =>
        let end_ := Z.max (-1) (start - BATCH_SIZE) in
        let slice := buildSlice items start end_ in
        batchLoop fuel' items end_ (processSlice st slice)
    end.

(** The slices the loop builds, in the order it builds them. *)
Fixpoint slicesFrom (fuel : nat) (items : list Range) (start : Z)
  : list (list (option Range)) :=
  if (start <? 0)%Z then []
  else
    match fuel with
    | O => []
    | S fuel' =>
        let end_ := Z.max (-1) (start - BATCH_SIZE) in
        buildSlice items start end_ :: slicesFrom fuel' items end_
    end.

Definition slices (items : list Range) : list (list (option Range)) :=
  slicesFrom (length items) items (Z.of_nat (length items) - 1).

(** [{ matchCase: false, matchWholeWord: wholeWord }], and for
    [term.length > 3] also [ignorePunct] and [ignoreSpace]; an option that
    is not set is off. *)
Definition searchOptions (term : jsstring) (wholeWord : bool) : SearchOptions :=
  let tolerant := 3 <? length term in
  mkOpts false wholeWord tolerant tolerant.

(** [body.search(term, opts)], loaded and synced: the host finds the
    matches for the term under the options it is given, and the document
    has received the call.  This is the only way to the host's search. *)
Definition bodySearch (term : jsstring) (opts : SearchOptions) (d : Doc Range)
  : list Range * Doc Range :=
  (search term opts, mkDoc (controls d) (searches d ++ [(term, opts)])).

(** The loop ends within [length items] turns ([batchLoop_slices] below),
    so the [None] branch is never taken. *)
Definition searchAndHighlight (term : jsstring) (wholeWord : bool) (d : Doc Range)
  : nat * Doc Range :=
  let opts := searchOptions term wholeWord in
  let '(items, d) := bodySearch term opts d in
  if (PRONOUN_HIT_CAP <? length items) && (length term <=? 3) then (0, d)
  else
    match batchLoop (length items) items (Z.of_nat (length items) - 1)
                    (0, controls d) with
    | Some (applied, cs) => (applied, mkDoc cs (searches d))
    | None => (0, d)
    end.

(** The terms [onNext] searches for, in the order it searches them. *)
Definition termsFor (party : Party) : list jsstring :=
  sortByLengthDesc
    (buildTerms (name party) (buildAliases party) (pronounsFor (name party))).

(** The loop of [onNext] over the terms. *)
Fixpoint highlightTerms (terms : list jsstring) (totalHits : nat) (d : Doc Range)
  : nat * Doc Range :=
  match terms with
  | term :: terms' =>
      let '(hits, d') := searchAndHighlight term (negb (isPossessive term)) d in
      highlightTerms terms' (totalHits + hits) d'
  | [] => (totalHits, d)
  end.

(** [settings.set(STORAGE_KEY_SELECTED, name || null)] *)
Definition saveSelected (name : option jsstring) (st : Settings) : Settings :=
  mkSettings (parties st)
             (match name with
              | Some n => if truthy n then Some n else None
              | None => None
              end).

Record Outcome := mkOutcome
  { outDoc : Doc Range; outSettings : Settings; outTotal : option nat }.

(** [onNext]: [selected] is the value of the checked radio button.  With
    no selection nothing happens ([outTotal = None]). *)
Definition onNext (selected : option jsstring) (st : Settings) (d : Doc Range)
  : Outcome :=
  match selected with
  | Some sel =>
      if truthy sel then
        let d := clearPartyHighlights d in
        let party := partyFor sel st in
        let terms := termsFor party in
        let st := saveSelected (Some (name party)) st in
        let '(total, d) := highlightTerms terms 0 d in
        mkOutcome d st (Some total)
      else mkOutcome d st None
  | None => mkOutcome d st None
  end.

Definition onReset (st : Settings) (d : Doc Range) : Doc Range * Settings :=
  (clearPartyHighlights d, saveSelected None st).
End Marker.

(** A host for the examples: every range is valid or not, and a sync is
    accepted exactly when every queued range is valid. *)
Definition validHost (Range : Type) (valid : Range -> bool)
  : list (ContentControl Range) -> list Range -> bool :=
  fun _ rs => forallb valid rs.

(** ** Vocabulary of the statements *)

(** The identity of a party: its trimmed, lower-cased name. *)
Definition partyKey (p : Party) : jsstring := toLowerCase (trim (name p)).

(** The loop invariant of [dedupeParties]: [seen] holds the keys of [out],
    and [out] has no key twice. *)
Definition dedupeInv (seen : list jsstring) (out : list Party) : Prop :=
  (forall k, In k seen <-> In k (map partyKey out)) /\ NoDup (map partyKey out).

(** What the recital heuristic pushes for one capture. *)
Definition pushedFor (capture : jsstring) : list Party :=
  if truthy (scrubName capture) then [extractRole (scrubName capture)] else [].

(** The code unit before a position: the last unit of the text passed
    over, or the one before it. *)
Definition lastOr (prev : option char) (u : jsstring) : option char :=
  fold_left (fun _ c => Some c) u prev.

(** [w] read off the front of [s], unit by unit, under [cmp]. *)
Fixpoint prefixMatch (cmp : char -> char -> bool) (w s : jsstring) : bool :=
  match w, s with
  | [], _ => true
  | p :: w', c :: s' => cmp p c && prefixMatch cmp w' s'
  | _ :: _, [] => false
  end.

(** The end of a word: the end of the text, or a unit that is not a word
    unit. *)
Definition wordEnd (post : jsstring) : Prop :=
  match post with
  | [] => True
  | d :: _ => Chars.isWord d = false
  end.

Definition isEss (c : char) : Prop := c = 115%N \/ c = 83%N.

(** The name holds one of the words holdings, group, partners, in any
    case, ending at the end of a word. *)
Definition wordHint (nm : jsstring) : Prop :=
  exists pre w post,
    nm = pre ++ w ++ post
    /\ In (asciiLower w) [js "holdings"; js "group"; js "partners"]
    /\ wordEnd post.

(** The name holds a unit other than an apostrophe, then an s that ends a
    word. *)
Definition essHint (nm : jsstring) : Prop :=
  exists pre b c post,
    nm = pre ++ b :: c :: post /\ b <> apostrophe /\ isEss c /\ wordEnd post.

(** The second hint in the words of the specification: the name holds a
    token ending in s, and that s is not immediately preceded by an
    apostrophe. *)
Definition essHintAsStated (nm : jsstring) : Prop :=
  exists pre c post,
    nm = pre ++ c :: post /\ isEss c /\ wordEnd post
    /\ ~ (exists pre', pre = pre' ++ [apostrophe]).

(** The term ends in an apostrophe, then white space (possibly none),
    then at most one lower case s. *)
Definition possessiveShape (t : jsstring) : Prop :=
  exists pre ws,
    forallb Chars.isSpace ws = true
    /\ (t = pre ++ apostrophe :: ws \/ t = pre ++ apostrophe :: ws ++ [115%N]).

(** The options the marker searches a term with: case is never matched,
    [wholeWord] is as given, and the two tolerant options are on exactly
    for a term of more than three code units. *)
Definition policyOptions (term : jsstring) (wholeWord : bool) (o : SearchOptions) : Prop :=
  matchCase o = false /\ matchWholeWord o = wholeWord
  /\ ignorePunct o = (3 <? length term) /\ ignoreSpace o = (3 <? length term).

(** [f] moves a code point without changing how it is lowered or how it
    counts for Final_Sigma. *)
Definition sameLowering (f : N -> N) (c : N) : bool :=
  jseqb (Unicode.toLower (f c)) (Unicode.toLower c)
  && Bool.eqb (N.eqb (f c) Unicode.capitalSigma) (N.eqb c Unicode.capitalSigma)
  && Bool.eqb (Unicode.caseIgnorable (f c)) (Unicode.caseIgnorable c)
  && Bool.eqb (Unicode.cased (f c)) (Unicode.cased c).

(** ** Further functions of the task pane *)

Definition READ_TEXT_LIMIT : Z := 12000.

(** The object literal of [escapeHtml], looked up with the matched text;
    a key it does not hold gives [undefined]. *)
Definition htmlEntity (c : jsstring) : jsstring :=
  match c with
  | [x] =>
      if N.eqb x 38 then js "&amp;"
      else if N.eqb x 60 then js "&lt;"
      else if N.eqb x 62 then js "&gt;"
      else if N.eqb x 34 then [38; 113; 117; 111; 116; 59]%N
      else if N.eqb x 39 then js "&#39;"
      else js "undefined"
  | _ => js "undefined"
  end.

(** The class of [escapeHtml]: ampersand, less-than, greater-than, double
    quote, apostrophe. *)
Definition htmlSpecial (c : char) : bool :=
  Chars.oneOf [38; 60; 62; 34; 39]%N c.

(** [escapeHtml]: every unit of that class is replaced, through the [g]
    flag, by its entry in the object literal. *)
Definition escapeHtml (s : jsstring) : jsstring :=
  replaceAll (Cls htmlSpecial) htmlEntity s.

(** [readDocumentHeadText]: [txt.slice(0, Math.max(0, limitChars))] of the
    body text. *)
Definition readDocumentHeadText (limitChars : Z) (bodyText : jsstring) : jsstring :=
  firstn (Z.to_nat (Z.max 0 limitChars)) bodyText.

(** [detectAndRenderParties], when the document is read and the settings
    are saved: the settings it leaves.  [parties[0]?.name] is the
    selection. *)
Definition detectAndRenderParties (bodyText : jsstring) (st : Settings) : Settings :=
  let text := readDocumentHeadText READ_TEXT_LIMIT bodyText in
  let parties := detectedParties text in
  let selected := option_map name (hd_error parties) in
  saveSelected selected (mkSettings (Some parties) (selectedParty st)).

(** ** A declarative reading of the patterns

    [Reaches r prev s cs prev' s' cs']: the pattern [r], started before
    [s] with [prev] the unit before it and [cs] the captures so far, can
    match up to [s'], leaving [prev'] and [cs']. *)
Fixpoint Reaches (r : regex) (prev : option char) (s : jsstring) (cs : caps)
         (prev' : option char) (s' : jsstring) (cs' : caps) : Prop :=
  match r with
  | Eps => prev' = prev /\ s' = s /\ cs' = cs
  | Cls p => exists c, s = c :: s' /\ p c = true /\ prev' = Some c /\ cs' = cs
  | Seq r1 r2 =>
      exists pm sm cm,
        Reaches r1 prev s cs pm sm cm /\ Reaches r2 pm sm cm prev' s' cs'
  | Alt r1 r2 =>
      Reaches r1 prev s cs prev' s' cs' \/ Reaches r2 prev s cs prev' s' cs'
  | Opt r1 =>
      Reaches r1 prev s cs prev' s' cs' \/ (prev' = prev /\ s' = s /\ cs' = cs)
  | Rep _ lo hi p =>
      exists w,
        s = w ++ s' /\ forallb p w = true /\ lo <= length w
        /\ match hi with Some h => length w <= h | None => True end
        /\ prev' = lastOr prev w /\ cs' = cs
  | Grp i r1 =>
      exists cm,
        Reaches r1 prev s cs prev' s' cm
        /\ cs' = (i, firstn (length s - length s') s) :: cm
  | Bol => prev = None /\ prev' = prev /\ s' = s /\ cs' = cs
  | Eol => s = [] /\ prev' = prev /\ s' = s /\ cs' = cs
  | Wb =>
      xorb (isWordOpt prev) (isWordOpt (hd_error s)) = true
      /\ prev' = prev /\ s' = s /\ cs' = cs
  end.

Fixpoint takeWhile (p : char -> bool) (s : jsstring) : jsstring :=
  match s with
  | c :: s' => if p c then c :: takeWhile p s' else []
  | [] => []
  end.

(** Two equal neighbours [c], [c] somewhere in [s]. *)
Fixpoint hasDouble (c : char) (s : jsstring) : bool :=
  match s with
  | x :: (y :: _) as s' => (N.eqb x c && N.eqb y c) || hasDouble c s'
  | _ => false
  end.

(** Runs of blanks (space, tab) read as one space each: what the second
    replacement of [normalizeSpaces] computes.  [inRun] says that the unit
    before was a blank. *)
Definition isBlank (c : char) : bool := Chars.oneOf [space; tab] c.

Fixpoint collapseFrom (inRun : bool) (s : jsstring) : jsstring :=
  match s with
  | c :: s' =>
      if isBlank c
      then if inRun then collapseFrom true s' else space :: collapseFrom true s'
      else c :: collapseFrom false s'
  | [] => []
  end.

(** The two patterns of [normalizeSpaces], by name. *)
Definition crlfRe : regex :=
  Seq (Cls (Chars.exact cr)) (Opt (Cls (Chars.exact newline))).
Definition blanksRe : regex := plus isBlank.

(** A pattern without capture groups. *)
Fixpoint groupFree (r : regex) : bool :=
  match r with
  | Seq r1 r2 | Alt r1 r2 => groupFree r1 && groupFree r2
  | Opt r1 => groupFree r1
  | Grp _ _ => false
  | _ => true
  end.

(** The role pattern of [extractRole] around its alternation of role
    words, and the pattern of [titleCase], by name. *)
Definition roleWordsRe : regex := alts (map litI roleWords).

Definition roleShape (inner : regex) : regex :=
  seqs [Cls (Chars.exact lparen); star Chars.isSpace;
        Opt (Seq (litI "the") (plus Chars.isSpace));
        Cls (Chars.oneOf [dquote; ldquote]);
        inner;
        Cls (Chars.oneOf [dquote; rdquote]);
        star Chars.isSpace; Cls (Chars.exact rparen)].

Definition notSpace (c : char) : bool := negb (Chars.isSpace c).
Definition titleRe : regex := Seq (Cls Chars.isWord) (star notSpace).

(** One unit of [escapeHtml]. *)
Definition escapeUnit (c : char) : jsstring :=
  if htmlSpecial c then htmlEntity [c] else [c].

(** The words [STOPWORDS] accepts, in lower case. *)
Definition stopWords : list jsstring :=
  [js "service"; js "services"; js "deliverable"; js "deliverables";
   js "agreement"; js "partie"; js "parties"].

(** The order [sort((a, b) => b.length - a.length)] establishes. *)
Definition longerFirst (a b : jsstring) : Prop := length b <= length a.

(** * Properties *)

Unset Implicit Arguments.

(** ** Strings and sets *)

Lemma jseqb_true a b : jseqb a b = true <-> a = b.
Proof. unfold jseqb; destruct (list_eq_dec N.eq_dec a b); split; congruence. Qed.

Lemma jseqb_refl a : jseqb a a = true.
Proof. apply jseqb_true; reflexivity. Qed.

Lemma truthy_true s : truthy s = true <-> s <> [].
Proof. destruct s; simpl; split; congruence. Qed.

Lemma truthy_false s : truthy s = false <-> s = [].
Proof. destruct s; simpl; split; congruence. Qed.

Lemma setHas_In set s : setHas set s = true <-> In s set.
Proof.
  unfold setHas. rewrite existsb_exists. split.
  - intros (x & Hx & E). apply jseqb_true in E. now subst.
  - intros H. exists s. split; [assumption | apply jseqb_refl].
Qed.

Lemma setHas_false set s : setHas set s = false <-> ~ In s set.
Proof.
  rewrite <- setHas_In. destruct (setHas set s); split; congruence.
Qed.

Lemma setAdd_In set s x : In x (setAdd set s) <-> In x set \/ x = s.
Proof.
  unfold setAdd. destruct (setHas set s) eqn:E.
  - apply setHas_In in E. split; [tauto | intros [H | ->]; assumption].
  - rewrite in_app_iff. simpl. intuition congruence.
Qed.

Lemma setAdd_NoDup set s : NoDup set -> NoDup (setAdd set s).
Proof.
  intros H. unfold setAdd. destruct (setHas set s) eqn:E; [assumption |].
  apply setHas_false in E.
  apply NoDup_app; [assumption | repeat constructor; intros [] | ].
  intros x Hx [<- | []]. contradiction.
Qed.

Lemma setAdd_length set s : length set <= length (setAdd set s) <= S (length set).
Proof.
  unfold setAdd. destruct (setHas set s); [lia |].
  rewrite length_app. simpl. lia.
Qed.

(** ** De-duplication of parties *)

Lemma dedupePartiesFrom_step seen out p :
  dedupeInv seen out -> setHas seen (partyKey p) = false ->
  dedupeInv (setAdd seen (partyKey p)) (out ++ [p]).
Proof.
  intros [Hs Hn] E. apply setHas_false in E. split.
  - intros k. rewrite setAdd_In, map_app, in_app_iff, Hs. simpl.
    intuition congruence.
  - rewrite map_app. apply NoDup_app; [assumption | repeat constructor; intros [] |].
    intros k Hk [<- | []]. apply E, Hs, Hk.
Qed.

Lemma dedupePartiesFrom_NoDup arr : forall seen out,
  dedupeInv seen out -> NoDup (map partyKey (dedupePartiesFrom seen out arr)).
Proof.
  induction arr as [| p arr IH]; intros seen out Hinv; simpl.
  - apply Hinv.
  - fold (partyKey p). destruct (setHas seen (partyKey p)) eqn:E; simpl.
    + now apply IH.
    + apply IH. now apply dedupePartiesFrom_step.
Qed.

Lemma dedupePartiesFrom_first arr : forall seen out p,
  In p (dedupePartiesFrom seen out arr) ->
  In p out \/
  exists pre post, arr = pre ++ p :: post /\
                   ~ In (partyKey p) (map partyKey pre) /\ ~ In (partyKey p) seen.
Proof.
  induction arr as [| q arr IH]; intros seen out p Hp; simpl in Hp.
  - now left.
  - fold (partyKey q) in Hp. destruct (setHas seen (partyKey q)) eqn:E; simpl in Hp.
    + apply setHas_In in E.
      destruct (IH _ _ _ Hp) as [H | (pre & post & -> & Hpre & Hseen)]; [now left |].
      right. exists (q :: pre), post. repeat split; [| assumption].
      simpl. intros [Hq | Hq]; [| contradiction]. apply Hseen. now rewrite <- Hq.
    + apply setHas_false in E.
      destruct (IH _ _ _ Hp) as [H | (pre & post & -> & Hpre & Hseen)].
      * apply in_app_iff in H. destruct H as [H | [<- | []]]; [now left |].
        right. exists [], arr. repeat split; [intros [] | assumption].
      * right. exists (q :: pre), post. rewrite setAdd_In in Hseen.
        repeat split; [| tauto].
        simpl. intros [Hq | Hq]; [| contradiction]. apply Hseen. now right.
Qed.

Lemma dedupePartiesFrom_keeps arr : forall seen out p,
  In p out -> In p (dedupePartiesFrom seen out arr).
Proof.
  induction arr as [| q arr IH]; intros seen out p Hp; simpl; [assumption |].
  destruct (setHas seen _); simpl; apply IH; try assumption.
  apply in_app_iff. now left.
Qed.

Lemma dedupePartiesFrom_covers arr : forall seen out p,
  dedupeInv seen out -> In p arr ->
  In (partyKey p) (map partyKey (dedupePartiesFrom seen out arr)).
Proof.
  induction arr as [| q arr IH]; intros seen out p Hinv Hp; [destruct Hp |].
  simpl. fold (partyKey q). destruct (setHas seen (partyKey q)) eqn:E; simpl.
  - destruct Hp as [-> | Hp]; [| now apply IH].
    apply setHas_In in E. apply Hinv in E. apply in_map_iff in E.
    destruct E as (x & Hx & Hin). rewrite <- Hx. apply in_map.
    now apply dedupePartiesFrom_keeps.
  - destruct Hp as [-> | Hp].
    + apply in_map, dedupePartiesFrom_keeps, in_app_iff. right. now left.
    + apply IH; [| assumption]. now apply dedupePartiesFrom_step.
Qed.

Lemma dedupePartiesFrom_length arr : forall seen out,
  length (dedupePartiesFrom seen out arr) <= length out + length arr.
Proof.
  induction arr as [| q arr IH]; intros seen out; simpl; [lia |].
  destruct (setHas seen _); simpl.
  - specialize (IH seen out). lia.
  - specialize (IH (setAdd seen (toLowerCase (trim (name q)))) (out ++ [q])).
    rewrite length_app in IH. simpl in IH. lia.
Qed.

Lemma dedupeInv_empty : dedupeInv [] [].
Proof. split; [intros k; simpl; tauto | constructor]. Qed.

Lemma dedupeParties_length arr : length (dedupeParties arr) <= length arr.
Proof. apply (dedupePartiesFrom_length arr [] []). Qed.

(** C9: [dedupeParties] keeps, for each trimmed lower-cased name, the first
    party of the input that has it (the whole record, so with its role):
    on Acme, ACME, Beta it returns Acme, Beta, and on a name with an
    accented capital, the same name in small letters with a role, and
    Beta it returns the first and Beta; the output never holds two
    parties with equal keys; every party of the output stands in the input
    with no earlier party of the same key; and every key of the input is
    still present in the output.  Lower-casing is that of the language,
    not of Basic Latin only. *)
Theorem dedupeParties_first_wins :
  dedupeParties [mkParty (js "Acme") None; mkParty (js "ACME") None;
                 mkParty (js "Beta") None]
  = [mkParty (js "Acme") None; mkParty (js "Beta") None]
  /\ dedupeParties [mkParty (201%N :: js "cole") None;
                    mkParty (js " " ++ 233%N :: js "cole") (Some (js "Client"));
                    mkParty (js "Beta") None]
     = [mkParty (201%N :: js "cole") None; mkParty (js "Beta") None]
  /\ (forall arr, NoDup (map partyKey (dedupeParties arr)))
  /\ (forall arr p, In p (dedupeParties arr) ->
        exists pre post, arr = pre ++ p :: post /\ ~ In (partyKey p) (map partyKey pre))
  /\ (forall arr p, In p arr -> In (partyKey p) (map partyKey (dedupeParties arr))).
Proof.
  split; [reflexivity |]. split; [vm_compute; reflexivity |]. split; [| split].
  - intros arr. apply dedupePartiesFrom_NoDup, dedupeInv_empty.
  - intros arr p Hp. destruct (dedupePartiesFrom_first _ _ _ _ Hp) as [[] | H].
    destruct H as (pre & post & E & Hpre & _). now exists pre, post.
  - intros arr p Hp. now apply dedupePartiesFrom_covers; [apply dedupeInv_empty |].
Qed.

(** ** Party detection *)

Lemma pushScrubbed_pushedFor candidates capture :
  pushScrubbed candidates capture = candidates ++ pushedFor capture.
Proof.
  unfold pushScrubbed, pushedFor. destruct (truthy (scrubName capture)).
  - reflexivity.
  - now rewrite app_nil_r.
Qed.

Lemma pushedFor_length capture : length (pushedFor capture) <= 1.
Proof. unfold pushedFor. destruct (truthy _); simpl; lia. Qed.

Lemma recitalCandidates_length t : length (recitalCandidates t) <= 2.
Proof.
  unfold recitalCandidates. destruct (recitalMatch t) as [[a b] |]; simpl; [| lia].
  rewrite !pushScrubbed_pushedFor, length_app. simpl.
  pose proof (pushedFor_length a). pose proof (pushedFor_length b). lia.
Qed.

Lemma orgLoop_cons o orgs candidates :
  orgLoop (o :: orgs) candidates =
  if existsb (fun p => equalName (name p) o) candidates
  then if 2 <=? length candidates then candidates else orgLoop orgs candidates
  else if 2 <=? length (candidates ++ [extractRole o])
       then candidates ++ [extractRole o]
       else orgLoop orgs (candidates ++ [extractRole o]).
Proof. simpl. now destruct (existsb _ candidates). Qed.

Lemma orgLoop_extends orgs : forall candidates,
  exists rest, orgLoop orgs candidates = candidates ++ rest.
Proof.
  induction orgs as [| o orgs IH]; intros candidates.
  - exists []. simpl. now rewrite app_nil_r.
  - rewrite orgLoop_cons. destruct (existsb _ candidates).
    + destruct (2 <=? length candidates); [exists []; now rewrite app_nil_r | apply IH].
    + destruct (2 <=? length (candidates ++ [extractRole o])).
      * now exists [extractRole o].
      * destruct (IH (candidates ++ [extractRole o])) as [rest ->].
        exists (extractRole o :: rest). now rewrite <- app_assoc.
Qed.

Lemma orgLoop_length orgs : forall candidates,
  length candidates < 2 -> length (orgLoop orgs candidates) <= 2.
Proof.
  induction orgs as [| o orgs IH]; intros candidates Hlen; [simpl; lia |].
  rewrite orgLoop_cons. destruct (existsb _ candidates).
  - destruct (2 <=? length candidates) eqn:E; [lia | now apply IH].
  - destruct (2 <=? length (candidates ++ [extractRole o])) eqn:E.
    + rewrite length_app. simpl. lia.
    + apply IH. now apply Nat.leb_gt in E.
Qed.

Lemma detectCandidates_length t : length (detectCandidates t) <= 2.
Proof.
  unfold detectCandidates. destruct (length (recitalCandidates t) <? 2) eqn:E.
  - apply orgLoop_length. now apply Nat.ltb_lt in E.
  - apply recitalCandidates_length.
Qed.

Lemma detectParties_untruncated text :
  detectParties text = detectCandidates (normalizeSpaces text).
Proof.
  unfold detectParties. apply firstn_all2.
  pose proof (detectCandidates_length (normalizeSpaces text)). lia.
Qed.

(** C10: detection never yields more than two parties.  The recital
    heuristic gives at most two candidates; with two of them the fallback
    is not run; run from fewer than two, the fallback loop stops at two; so
    [slice(0, 5)] cuts nothing, and the detected list after the stopword
    filter and the de-duplication has at most two entries.  A list of three
    arises from a manual addition. *)
Theorem detectParties_at_most_two :
  (forall text, length (detectParties text) <= 2)
  /\ (forall text, detectParties text = detectCandidates (normalizeSpaces text))
  /\ (forall t, length (recitalCandidates t) <= 2)
  /\ (forall t, 2 <= length (recitalCandidates t) ->
                detectCandidates t = recitalCandidates t)
  /\ (forall orgs candidates, length candidates < 2 ->
                length (orgLoop orgs candidates) <= 2)
  /\ (forall text, length (detectedParties text) <= 2)
  /\ (exists l, onAddParty (Some [mkParty (js "Acme Inc") (Some (js "Client"));
                                  mkParty (js "John Doe") None])
                           (js " Beta LLC ") = Some l
                /\ length l = 3).
Proof.
  repeat split.
  - intros text. rewrite detectParties_untruncated. apply detectCandidates_length.
  - apply detectParties_untruncated.
  - apply recitalCandidates_length.
  - intros t H. unfold detectCandidates.
    destruct (length (recitalCandidates t) <? 2) eqn:E; [| reflexivity].
    apply Nat.ltb_lt in E. lia.
  - intros orgs candidates. apply orgLoop_length.
  - intros text. unfold detectedParties.
    etransitivity; [apply dedupeParties_length |].
    etransitivity; [apply filter_length_le |].
    rewrite detectParties_untruncated. apply detectCandidates_length.
  - eexists. split; [vm_compute; reflexivity | reflexivity].
Qed.

Lemma detectParties_recital_prefix text :
  exists rest,
    detectParties text = recitalCandidates (normalizeSpaces text) ++ rest.
Proof.
  rewrite detectParties_untruncated. unfold detectCandidates.
  destruct (_ <? 2).
  - apply orgLoop_extends.
  - exists []. now rewrite app_nil_r.
Qed.

(** C1, as the code has it: when the recital pattern matches, a capture
    whose scrubbed text is not empty is pushed as a candidate (its role
    extracted), and a capture that scrubs to the empty string is passed
    over: the recital heuristic contributes exactly the candidates of the
    non-empty scrubbed captures, in order, and they open the result of
    [detectParties]. *)
Theorem recital_pushes_nonempty_scrubs (text a b : jsstring) :
  recitalMatch (normalizeSpaces text) = Some (a, b) ->
  recitalCandidates (normalizeSpaces text) = pushedFor a ++ pushedFor b
  /\ (exists rest, detectParties text = pushedFor a ++ pushedFor b ++ rest)
  /\ (scrubName a <> [] -> In (extractRole (scrubName a)) (detectParties text))
  /\ (scrubName b <> [] -> In (extractRole (scrubName b)) (detectParties text))
  /\ (scrubName a = [] -> pushedFor a = [])
  /\ (scrubName b = [] -> pushedFor b = []).
Proof.
  intros Hm.
  assert (Hrc : recitalCandidates (normalizeSpaces text) = pushedFor a ++ pushedFor b).
  { unfold recitalCandidates. rewrite Hm. now rewrite !pushScrubbed_pushedFor. }
  destruct (detectParties_recital_prefix text) as [rest Hd].
  rewrite Hrc in Hd.
  split; [assumption |]. split; [exists rest; now rewrite app_assoc |].
  repeat split.
  - intros Ha. rewrite Hd, !in_app_iff. left. left.
    unfold pushedFor. apply truthy_true in Ha. rewrite Ha. now left.
  - intros Hb. rewrite Hd, !in_app_iff. left. right.
    unfold pushedFor. apply truthy_true in Hb. rewrite Hb. now left.
  - intros Ha. unfold pushedFor. now rewrite Ha.
  - intros Hb. unfold pushedFor. now rewrite Hb.
Qed.

Lemma recital_pushes_nonempty_scrubs_witness :
  recitalMatch (normalizeSpaces (js "made by and between Acme Inc and John Doe, a person."))
  = Some (js "Acme Inc", js "John Doe")
  /\ In (extractRole (scrubName (js "Acme Inc")))
        (detectParties (js "made by and between Acme Inc and John Doe, a person."))
  /\ In (extractRole (scrubName (js "John Doe")))
        (detectParties (js "made by and between Acme Inc and John Doe, a person.")).
Proof.
  assert (H : recitalMatch
                (normalizeSpaces (js "made by and between Acme Inc and John Doe, a person."))
              = Some (js "Acme Inc", js "John Doe")) by (vm_compute; reflexivity).
  destruct (recital_pushes_nonempty_scrubs _ _ _ H) as (_ & _ & Ha & Hb & _).
  split; [exact H |].
  split; [apply Ha | apply Hb]; vm_compute; discriminate.
Defined.

(** C1, as stated, fails: on "between -- and Bob." the recital pattern
    matches with captures "--" and "Bob"; "--" scrubs to the empty string
    and no candidate is pushed for it: the result is the one party Bob, and
    holds no party with an empty name. *)
Lemma recital_empty_scrub_is_dropped :
  recitalMatch (normalizeSpaces (js "between -- and Bob.")) = Some (js "--", js "Bob")
  /\ scrubName (js "--") = []
  /\ extractRole (scrubName (js "--")) = mkParty [] None
  /\ detectParties (js "between -- and Bob.") = [mkParty (js "Bob") None]
  /\ ~ In (extractRole (scrubName (js "--"))) (detectParties (js "between -- and Bob.")).
Proof.
  assert (E : detectParties (js "between -- and Bob.") = [mkParty (js "Bob") None])
    by (vm_compute; reflexivity).
  repeat split; try (vm_compute; reflexivity).
  rewrite E. intros [H | []]. vm_compute in H. discriminate H.
Qed.

(** ** Trimming *)

Lemma dropWhile_app_stop p l c r :
  p c = false -> dropWhile p (l ++ c :: r) = dropWhile p l ++ c :: r.
Proof.
  intros Hc. induction l as [| x l IH]; simpl.
  - now rewrite Hc.
  - destruct (p x); [assumption | reflexivity].
Qed.

Lemma dropWhile_idem p s : dropWhile p (dropWhile p s) = dropWhile p s.
Proof.
  induction s as [| x s IH]; simpl; [reflexivity |].
  destruct (p x) eqn:E; [assumption |]. simpl. now rewrite E.
Qed.

Lemma dropWhile_head p s :
  dropWhile p s = [] \/ exists c r, dropWhile p s = c :: r /\ p c = false.
Proof.
  induction s as [| x s IH]; simpl; [now left |].
  destruct (p x) eqn:E; [assumption |]. right. now exists x, s.
Qed.

Lemma trimEnd_cons_keep c y :
  Chars.isSpace c = false -> trimEnd (c :: y) = c :: trimEnd y.
Proof.
  intros Hc. unfold trimEnd. simpl.
  rewrite dropWhile_app_stop by assumption. now rewrite rev_app_distr.
Qed.

Lemma trimEnd_snoc_keep u c :
  Chars.isSpace c = false -> trimEnd (u ++ [c]) = u ++ [c].
Proof.
  intros Hc. unfold trimEnd. rewrite rev_app_distr. simpl. rewrite Hc. simpl.
  now rewrite rev_involutive.
Qed.

Lemma trimEnd_idem s : trimEnd (trimEnd s) = trimEnd s.
Proof. unfold trimEnd. now rewrite rev_involutive, dropWhile_idem. Qed.

Lemma trim_idem s : trim (trim s) = trim s.
Proof.
  unfold trim, trimStart.
  destruct (dropWhile_head Chars.isSpace s) as [E | (c & r & E & Hc)]; rewrite E.
  - reflexivity.
  - rewrite trimEnd_cons_keep by assumption. simpl. rewrite Hc.
    rewrite trimEnd_cons_keep by assumption. now rewrite trimEnd_idem.
Qed.

(** A string that ends in a non-empty run [c :: v ++ [e]] or [[c]] of
    visible code units keeps that end under [trim]. *)
Lemma trim_keeps_end x c v e :
  Chars.isSpace c = false -> Chars.isSpace e = false ->
  trim (x ++ c :: v ++ [e]) = trimStart x ++ c :: v ++ [e].
Proof.
  intros Hc He. unfold trim, trimStart. rewrite dropWhile_app_stop by assumption.
  replace (dropWhile Chars.isSpace x ++ c :: v ++ [e])
    with ((dropWhile Chars.isSpace x ++ c :: v) ++ [e])
    by (now rewrite <- app_assoc).
  now apply trimEnd_snoc_keep.
Qed.

Lemma trim_keeps_two x c e :
  Chars.isSpace c = false -> Chars.isSpace e = false ->
  trim (x ++ [c; e]) = trimStart x ++ [c; e].
Proof. intros Hc He. now apply (trim_keeps_end x c [] e). Qed.

Lemma trim_keeps_last x c :
  Chars.isSpace c = false -> trim (x ++ [c]) = trimStart x ++ [c].
Proof.
  intros Hc. unfold trim, trimStart. rewrite dropWhile_app_stop by assumption.
  now apply trimEnd_snoc_keep.
Qed.

(** ** Term building *)

Lemma endsWith_snoc x pre c : endsWith x (pre ++ [c]) = N.eqb c x.
Proof. unfold endsWith. now rewrite rev_app_distr. Qed.

Lemma truthy_snoc pre (c : char) : truthy (pre ++ [c]) = true.
Proof. now destruct pre. Qed.

Lemma add_In set s t : In t (add set s) <-> In t set \/ (t = trim s /\ t <> []).
Proof.
  unfold add. destruct (truthy s && truthy (trim s)) eqn:E.
  - apply andb_true_iff in E. destruct E as [_ E]. apply truthy_true in E.
    rewrite setAdd_In. intuition congruence.
  - assert (Ht : trim s = []).
    { apply andb_false_iff in E. destruct E as [E | E]; apply truthy_false in E.
      - now subst.
      - assumption. }
    rewrite Ht. intuition congruence.
Qed.

Lemma add_NoDup set s : NoDup set -> NoDup (add set s).
Proof. intros H. unfold add. destruct (_ && _); [now apply setAdd_NoDup | assumption]. Qed.

Lemma fold_add_In l : forall set t,
  In t (fold_left add l set) <->
  In t set \/ exists p, In p l /\ t = trim p /\ t <> [].
Proof.
  induction l as [| x l IH]; intros set t; simpl.
  - split; [now left | intros [H | (p & [] & _)]; assumption].
  - rewrite IH, add_In. split.
    + intros [[H | H] | (p & Hp & H)]; eauto 6.
    + intros [H | (p & [-> | Hp] & H)]; eauto 6.
Qed.

Lemma fold_add_NoDup l : forall set, NoDup set -> NoDup (fold_left add l set).
Proof.
  induction l as [| x l IH]; intros set H; simpl; [assumption |].
  now apply IH, add_NoDup.
Qed.

Lemma fold_alias_In l : forall set t,
  In t (fold_left (fun u a => add (add u a) (makePossessive a)) l set) <->
  In t set \/
  exists a, In a l /\ (t = trim a \/ t = trim (makePossessive a)) /\ t <> [].
Proof.
  induction l as [| x l IH]; intros set t; simpl.
  - split; [now left | intros [H | (p & [] & _)]; assumption].
  - rewrite IH, !add_In. split.
    + intros [[[H | [H1 H2]] | [H1 H2]] | (a & Ha & H)]; eauto 8.
    + intros [H | (a & [-> | Ha] & [H1 | H1] & H2)]; eauto 8.
Qed.

Lemma fold_alias_NoDup l : forall set, NoDup set ->
  NoDup (fold_left (fun u a => add (add u a) (makePossessive a)) l set).
Proof.
  induction l as [| x l IH]; intros set H; simpl; [assumption |].
  now apply IH, add_NoDup, add_NoDup.
Qed.

Lemma buildTerms_In nm aliases pronouns t :
  In t (buildTerms nm aliases pronouns) <->
  t <> [] /\
  (t = trim nm \/ t = trim (makePossessive nm)
   \/ (exists a, In a aliases /\ (t = trim a \/ t = trim (makePossessive a)))
   \/ (exists p, In p pronouns /\ t = trim p)).
Proof.
  unfold buildTerms. rewrite fold_add_In, fold_alias_In, !add_In. simpl. split.
  - intros [[[[[] | [H1 H2]] | [H1 H2]] | (a & Ha & H1 & H2)] | (p & Hp & H1 & H2)];
      split; eauto 8.
  - intros [Hne [H | [H | [(a & Ha & H) | (p & Hp & H)]]]]; eauto 10.
Qed.

Lemma buildTerms_NoDup nm aliases pronouns : NoDup (buildTerms nm aliases pronouns).
Proof. apply fold_add_NoDup, fold_alias_NoDup, add_NoDup, add_NoDup. constructor. Qed.

(** C8: [makePossessive] on a non-empty string appends an apostrophe alone
    when the string ends in s or S and apostrophe-s otherwise (Acme gives
    Acme's, Holdings gives Holdings'); the terms of [buildTerms] are the
    non-empty trimmed forms of the name, the possessive of the name, every
    alias, the possessive of every alias, and the pronouns themselves: no
    possessive of a pronoun is formed. *)
Theorem makePossessive_rule :
  (forall pre c, (c = 115 \/ c = 83)%N ->
                 makePossessive (pre ++ [c]) = (pre ++ [c]) ++ js "'")
  /\ (forall pre c, c <> 115%N -> c <> 83%N ->
                 makePossessive (pre ++ [c]) = (pre ++ [c]) ++ js "'s")
  /\ makePossessive (js "Acme") = js "Acme's"
  /\ makePossessive (js "Holdings") = js "Holdings'"
  /\ (forall nm aliases pronouns t,
        In t (buildTerms nm aliases pronouns) <->
        t <> [] /\
        (t = trim nm \/ t = trim (makePossessive nm)
         \/ (exists a, In a aliases /\ (t = trim a \/ t = trim (makePossessive a)))
         \/ (exists p, In p pronouns /\ t = trim p)))
  /\ buildTerms (js "Acme") [js "Client"] [js "it"]
     = [js "Acme"; js "Acme's"; js "Client"; js "Client's"; js "it"].
Proof.
  split; [| split; [| split; [| split; [| split]]]].
  - intros pre c Hc. unfold makePossessive.
    rewrite truthy_snoc, !endsWith_snoc. simpl.
    destruct Hc as [-> | ->]; reflexivity.
  - intros pre c H1 H2. unfold makePossessive.
    rewrite truthy_snoc, !endsWith_snoc. simpl.
    apply N.eqb_neq in H1, H2. now rewrite H1, H2.
  - reflexivity.
  - reflexivity.
  - apply buildTerms_In.
  - vm_compute; reflexivity.
Qed.

(** C5: for the party Acme Inc with role Client the terms are exactly the
    thirteen listed ones, each once; and whatever the name, aliases and
    pronouns, [buildTerms] returns a list without duplicates whose elements
    are trimmed and not empty. *)
Theorem buildTerms_acme_client :
  (forall t,
     In t (buildTerms (js "Acme Inc")
                      (buildAliases (mkParty (js "Acme Inc") (Some (js "Client"))))
                      (pronounsFor (js "Acme Inc")))
     <-> In t [js "Acme Inc"; js "Acme Inc's"; js "Client"; js "the Client";
               js "CLIENT"; js "the CLIENT"; js "Client's"; js "the Client's";
               js "CLIENT's"; js "the CLIENT's"; js "it"; js "its"; js "itself"])
  /\ length (buildTerms (js "Acme Inc")
                      (buildAliases (mkParty (js "Acme Inc") (Some (js "Client"))))
                      (pronounsFor (js "Acme Inc"))) = 13
  /\ (forall nm aliases pronouns, NoDup (buildTerms nm aliases pronouns))
  /\ (forall nm aliases pronouns t,
        In t (buildTerms nm aliases pronouns) -> trim t = t /\ t <> []).
Proof.
  split; [| split; [| split]].
  - assert (E : buildTerms (js "Acme Inc")
                  (buildAliases (mkParty (js "Acme Inc") (Some (js "Client"))))
                  (pronounsFor (js "Acme Inc"))
                = [js "Acme Inc"; js "Acme Inc's"; js "Client"; js "Client's";
                   js "the Client"; js "the Client's"; js "CLIENT"; js "CLIENT's";
                   js "the CLIENT"; js "the CLIENT's"; js "it"; js "its"; js "itself"])
      by (vm_compute; reflexivity).
    rewrite E. intros t. simpl. tauto.
  - vm_compute; reflexivity.
  - apply buildTerms_NoDup.
  - intros nm aliases pronouns t Ht. apply buildTerms_In in Ht.
    destruct Ht as [Hne H]. split; [| assumption].
    destruct H as [-> | [-> | [(a & _ & [-> | ->]) | (p & _ & ->)]]]; apply trim_idem.
Qed.

(** ** The batch loop *)

Section BatchSlices.
Variable Range : Type.
Implicit Types items : list Range.

Lemma itemAt_rev items (j : nat) :
  j < length items ->
  itemAt items (Z.of_nat (length items) - 1 - Z.of_nat j) = nth_error (rev items) j.
Proof.
  intros Hj. unfold itemAt.
  destruct (Z.ltb_spec (Z.of_nat (length items) - 1 - Z.of_nat j) 0) as [H | H]; [lia |].
  rewrite nth_error_rev.
  destruct (Nat.ltb_spec j (length items)) as [_ | H']; [| lia].
  f_equal. lia.
Qed.

Lemma skipn_cons_nth (l : list Range) : forall j x,
  nth_error l j = Some x -> skipn j l = x :: skipn (S j) l.
Proof.
  induction l as [| y l IH]; intros [| j] x H; simpl in *; try discriminate.
  - congruence.
  - now apply IH.
Qed.

Lemma sliceLoop_rev items k : forall j,
  j + k <= length items ->
  sliceLoop items (Z.of_nat (length items) - 1 - Z.of_nat j) k
  = map Some (firstn k (skipn j (rev items))).
Proof.
  induction k as [| k IH]; intros j H; simpl; [reflexivity |].
  rewrite itemAt_rev by lia.
  destruct (nth_error (rev items) j) as [x |] eqn:E.
  - rewrite (skipn_cons_nth _ _ _ E). simpl. f_equal.
    replace (Z.of_nat (length items) - 1 - Z.of_nat j - 1)%Z
      with (Z.of_nat (length items) - 1 - Z.of_nat (S j))%Z by lia.
    apply IH. lia.
  - apply nth_error_None in E. rewrite length_rev in E. lia.
Qed.

Lemma slicesFrom_unfold fuel items start :
  slicesFrom (S fuel) items start =
  if (start <? 0)%Z then []
  else buildSlice items start (Z.max (-1) (start - BATCH_SIZE))
       :: slicesFrom fuel items (Z.max (-1) (start - BATCH_SIZE)).
Proof. reflexivity. Qed.

(** The slices are the reversed list of results cut into runs of at most
    sixty. *)
Lemma slicesFrom_chunks items fuel : forall j,
  j <= length items -> length items - j <= fuel ->
  exists chunks,
    slicesFrom fuel items (Z.of_nat (length items) - 1 - Z.of_nat j)
    = map (map Some) chunks
    /\ concat chunks = skipn j (rev items)
    /\ Forall (fun c => 1 <= length c <= 60) chunks.
Proof.
  induction fuel as [| fuel IH]; intros j Hj Hf.
  - assert (j = length items) by lia. subst j.
    exists []. repeat split; [| | constructor].
    + simpl. now destruct (_ <? 0)%Z.
    + simpl. rewrite skipn_all2; [reflexivity | rewrite length_rev; lia].
  - rewrite slicesFrom_unfold.
    destruct (Z.ltb_spec (Z.of_nat (length items) - 1 - Z.of_nat j) 0) as [H | H].
    + exists []. repeat split; [| constructor].
      simpl. rewrite skipn_all2; [reflexivity | rewrite length_rev; lia].
    + set (k := Nat.min (length items - j) 60).
      assert (Hk : 1 <= k <= 60) by (unfold k; lia).
      assert (Hend : Z.max (-1) (Z.of_nat (length items) - 1 - Z.of_nat j - BATCH_SIZE)
                     = (Z.of_nat (length items) - 1 - Z.of_nat (j + k))%Z)
        by (unfold BATCH_SIZE, k; lia).
      rewrite Hend. unfold buildSlice.
      replace (Z.to_nat (Z.of_nat (length items) - 1 - Z.of_nat j
                         - (Z.of_nat (length items) - 1 - Z.of_nat (j + k))))
        with k by lia.
      rewrite sliceLoop_rev by (unfold k; lia).
      destruct (IH (j + k)) as (chunks & E & Hc & Hl); [unfold k; lia | unfold k; lia |].
      exists (firstn k (skipn j (rev items)) :: chunks). repeat split.
      * simpl. now rewrite E.
      * simpl. rewrite Hc.
        replace (skipn (j + k) (rev items)) with (skipn k (skipn j (rev items)))
          by (rewrite skipn_skipn; f_equal; lia).
        apply firstn_skipn.
      * constructor; [| assumption].
        rewrite length_firstn, length_skipn, length_rev. unfold k. lia.
Qed.

Lemma slices_chunks items :
  exists chunks,
    slices items = map (map Some) chunks
    /\ concat chunks = rev items
    /\ Forall (fun c => 1 <= length c <= 60) chunks.
Proof.
  destruct (slicesFrom_chunks items (length items) 0) as (chunks & E & Hc & Hl);
    [lia | lia |].
  exists chunks. repeat split; try assumption.
  unfold slices. rewrite <- E. f_equal. lia.
Qed.

Variable syncOk : list (ContentControl Range) -> list Range -> bool.

Lemma batchLoop_unfold fuel items start st :
  batchLoop syncOk (S fuel) items start st =
  if (start <? 0)%Z then Some st
  else batchLoop syncOk fuel items (Z.max (-1) (start - BATCH_SIZE))
         (processSlice syncOk st
            (buildSlice items start (Z.max (-1) (start - BATCH_SIZE)))).
Proof. reflexivity. Qed.

(** The loop ends within its fuel, and is the fold of [processSlice] over
    the slices. *)
Lemma batchLoop_fold fuel items : forall start st,
  (start < Z.of_nat fuel)%Z ->
  batchLoop syncOk fuel items start st
  = Some (fold_left (processSlice syncOk) (slicesFrom fuel items start) st).
Proof.
  induction fuel as [| fuel IH]; intros start st H.
  - simpl. destruct (Z.ltb_spec start 0); [reflexivity | lia].
  - rewrite batchLoop_unfold, slicesFrom_unfold.
    destruct (Z.ltb_spec start 0); [reflexivity |].
    simpl. apply IH. unfold BATCH_SIZE. lia.
Qed.

Lemma batchLoop_slices items st :
  batchLoop syncOk (length items) items (Z.of_nat (length items) - 1) st
  = Some (fold_left (processSlice syncOk) (slices items) st).
Proof. apply batchLoop_fold. lia. Qed.

Lemma defined_map_Some (rs : list Range) : defined (map Some rs) = Some rs.
Proof. induction rs as [| r rs IH]; simpl; [reflexivity | now rewrite IH]. Qed.

Lemma trySlice_map_Some cs (rs : list Range) :
  trySlice syncOk cs (map Some rs)
  = if syncOk cs rs then Some (cs ++ map (@mark Range) rs) else None.
Proof. unfold trySlice. now rewrite defined_map_Some. Qed.

Lemma perItem_added (rs : list Range) : forall cs applied,
  exists added,
    perItem syncOk cs applied (map Some rs)
    = (applied + length added, cs ++ map (@mark Range) added)
    /\ incl added rs.
Proof.
  induction rs as [| r rs IH]; intros cs applied.
  - exists []. simpl. rewrite app_nil_r, Nat.add_0_r. split; [reflexivity | easy].
  - cbn [map perItem].
    rewrite (trySlice_map_Some cs [r] : trySlice syncOk cs [Some r] = _).
    destruct (syncOk cs [r]).
    + destruct (IH (cs ++ map (@mark Range) [r]) (S applied)) as (added & E & Hi).
      exists (r :: added). rewrite E. split.
      * simpl. rewrite <- app_assoc. simpl. f_equal. lia.
      * intros x [<- | Hx]; [now left | right; now apply Hi].
    + destruct (IH cs applied) as (added & E & Hi).
      exists added. split; [assumption |]. intros x Hx. right. now apply Hi.
Qed.

Lemma processSlice_added (rs : list Range) cs applied :
  exists added,
    processSlice syncOk (applied, cs) (map Some rs)
    = (applied + length added, cs ++ map (@mark Range) added)
    /\ incl added rs.
Proof.
  unfold processSlice. rewrite trySlice_map_Some. destruct (syncOk cs rs).
  - exists rs. rewrite length_map. split; [reflexivity | apply incl_refl].
  - apply perItem_added.
Qed.

Lemma fold_processSlice_added (chunks : list (list Range)) : forall cs applied,
  exists added,
    fold_left (processSlice syncOk) (map (map Some) chunks) (applied, cs)
    = (applied + length added, cs ++ map (@mark Range) added)
    /\ incl added (concat chunks).
Proof.
  induction chunks as [| c chunks IH]; intros cs applied.
  - exists []. simpl. rewrite app_nil_r, Nat.add_0_r. split; [reflexivity | easy].
  - cbn [map fold_left concat].
    destruct (processSlice_added c cs applied) as (a1 & E1 & H1). rewrite E1.
    destruct (IH (cs ++ map (@mark Range) a1) (applied + length a1)) as (a2 & E2 & H2).
    exists (a1 ++ a2). rewrite E2. split.
    + rewrite map_app, length_app, <- app_assoc. f_equal. lia.
    + apply incl_app; [now apply incl_appl | now apply incl_appr].
Qed.

Variable search : jsstring -> SearchOptions -> list Range.

Lemma searchAndHighlight_eq term wholeWord (d : Doc Range) :
  searchAndHighlight search syncOk term wholeWord d =
  let opts := searchOptions term wholeWord in
  let items := search term opts in
  let log := searches d ++ [(term, opts)] in
  if (PRONOUN_HIT_CAP <? length items) && (length term <=? 3)
  then (0, mkDoc (controls d) log)
  else (fst (fold_left (processSlice syncOk) (slices items) (0, controls d)),
        mkDoc (snd (fold_left (processSlice syncOk) (slices items) (0, controls d)))
              log).
Proof.
  unfold searchAndHighlight, bodySearch. cbv beta iota zeta. cbn [controls searches].
  rewrite batchLoop_slices.
  destruct (_ && _); [reflexivity |].
  now destruct (fold_left _ _ _).
Qed.

Lemma searchAndHighlight_searches term wholeWord (d : Doc Range) :
  searches (snd (searchAndHighlight search syncOk term wholeWord d))
  = searches d ++ [(term, searchOptions term wholeWord)].
Proof.
  rewrite searchAndHighlight_eq. cbv zeta. now destruct (_ && _).
Qed.

Lemma searchAndHighlight_added term wholeWord (d : Doc Range) :
  exists added,
    fst (searchAndHighlight search syncOk term wholeWord d) = length added
    /\ controls (snd (searchAndHighlight search syncOk term wholeWord d))
       = controls d ++ map (@mark Range) added
    /\ incl added (search term (searchOptions term wholeWord)).
Proof.
  rewrite searchAndHighlight_eq. cbv zeta. destruct (_ && _).
  - exists []. simpl. rewrite app_nil_r. repeat split. easy.
  - destruct (slices_chunks (search term (searchOptions term wholeWord)))
      as (chunks & E & Hc & _).
    rewrite E.
    destruct (fold_processSlice_added chunks (controls d) 0) as (added & Ef & Hi).
    rewrite Ef. exists added. simpl. repeat split.
    intros x Hx. apply Hi in Hx. rewrite Hc in Hx. now apply in_rev.
Qed.

Lemma searchAndHighlight_controls term wholeWord (d d' : Doc Range) :
  controls d = controls d' ->
  fst (searchAndHighlight search syncOk term wholeWord d)
  = fst (searchAndHighlight search syncOk term wholeWord d')
  /\ controls (snd (searchAndHighlight search syncOk term wholeWord d))
     = controls (snd (searchAndHighlight search syncOk term wholeWord d')).
Proof.
  intros E. rewrite !searchAndHighlight_eq. cbv zeta. rewrite E.
  now destruct (_ && _).
Qed.
End BatchSlices.

Section ValidHost.
Variable Range : Type.
Variable valid : Range -> bool.

Lemma perItem_valid (rs : list Range) : forall cs applied,
  perItem (validHost valid) cs applied (map Some rs)
  = (applied + length (filter valid rs), cs ++ map (@mark Range) (filter valid rs)).
Proof.
  induction rs as [| r rs IH]; intros cs applied.
  - simpl. now rewrite app_nil_r, Nat.add_0_r.
  - cbn [map perItem filter].
    rewrite (trySlice_map_Some Range (validHost valid) cs [r]
             : trySlice (validHost valid) cs [Some r] = _).
    unfold validHost at 1. simpl forallb. rewrite andb_true_r.
    destruct (valid r).
    + rewrite IH. simpl. rewrite <- app_assoc. simpl. f_equal. lia.
    + apply IH.
Qed.

Lemma processSlice_valid (rs : list Range) cs applied :
  processSlice (validHost valid) (applied, cs) (map Some rs)
  = (applied + length (filter valid rs), cs ++ map (@mark Range) (filter valid rs)).
Proof.
  unfold processSlice. rewrite trySlice_map_Some. unfold validHost at 1.
  destruct (forallb valid rs) eqn:E.
  - rewrite (forallb_filter_id _ _ E). now rewrite length_map.
  - apply perItem_valid.
Qed.

Lemma fold_processSlice_valid (chunks : list (list Range)) : forall cs applied,
  fold_left (processSlice (validHost valid)) (map (map Some) chunks) (applied, cs)
  = (applied + length (filter valid (concat chunks)),
     cs ++ map (@mark Range) (filter valid (concat chunks))).
Proof.
  induction chunks as [| c chunks IH]; intros cs applied.
  - simpl. now rewrite app_nil_r, Nat.add_0_r.
  - cbn [map fold_left concat]. rewrite processSlice_valid, IH.
    rewrite filter_app, map_app, length_app, <- app_assoc. f_equal. lia.
Qed.

Variable search : jsstring -> SearchOptions -> list Range.

Lemma searchAndHighlight_valid term wholeWord (d : Doc Range) :
  (PRONOUN_HIT_CAP <? length (search term (searchOptions term wholeWord)))
  && (length term <=? 3) = false ->
  fst (searchAndHighlight search (validHost valid) term wholeWord d)
  = length (filter valid (search term (searchOptions term wholeWord)))
  /\ controls (snd (searchAndHighlight search (validHost valid) term wholeWord d))
     = controls d
       ++ map (@mark Range)
              (filter valid (rev (search term (searchOptions term wholeWord)))).
Proof.
  intros Hcap. rewrite searchAndHighlight_eq. cbv zeta. rewrite Hcap.
  destruct (slices_chunks Range (search term (searchOptions term wholeWord)))
    as (chunks & E & Hc & _).
  rewrite E, fold_processSlice_valid, Hc. simpl. split; [| reflexivity].
  now rewrite filter_rev, length_rev.
Qed.
End ValidHost.

(** ** The whole-party highlight *)

Lemma isOurs_mark (Range : Type) (r : Range) : isOurs (mark r) = true.
Proof. reflexivity. Qed.

Lemma filter_idem (A : Type) (f : A -> bool) (l : list A) :
  filter f (filter f l) = filter f l.
Proof. apply forallb_filter_id, forallb_filter. Qed.

Lemma filter_marks (Range : Type) (added : list Range) :
  filter (fun cc => negb (isOurs cc)) (map (@mark Range) added) = [].
Proof. induction added as [| r added IH]; simpl; [reflexivity | assumption]. Qed.

Lemma clear_after_marks (Range : Type) (cs : list (ContentControl Range))
      (added : list Range) log log' :
  controls (clearPartyHighlights
              (mkDoc (controls (clearPartyHighlights (mkDoc cs log))
                      ++ map (@mark Range) added) log'))
  = controls (clearPartyHighlights (mkDoc cs log)).
Proof.
  unfold clearPartyHighlights. simpl.
  now rewrite filter_app, filter_idem, filter_marks, app_nil_r.
Qed.

Lemma clear_no_ours (Range : Type) (d : Doc Range) :
  filter (@isOurs Range) (controls (clearPartyHighlights d)) = [].
Proof.
  unfold clearPartyHighlights. simpl.
  induction (controls d) as [| cc cs IH]; simpl; [reflexivity |].
  destruct (isOurs cc) eqn:E; simpl; [assumption |]. now rewrite E.
Qed.

Section Highlight.
Variable Range : Type.
Variable search : jsstring -> SearchOptions -> list Range.
Variable syncOk : list (ContentControl Range) -> list Range -> bool.

Lemma highlightTerms_cons term terms total (d : Doc Range) :
  highlightTerms search syncOk (term :: terms) total d
  = highlightTerms search syncOk terms
      (total + fst (searchAndHighlight search syncOk term (negb (isPossessive term)) d))
      (snd (searchAndHighlight search syncOk term (negb (isPossessive term)) d)).
Proof. simpl. now destruct (searchAndHighlight _ _ _ _ _). Qed.

Lemma highlightTerms_added terms : forall total (d : Doc Range),
  exists added,
    fst (highlightTerms search syncOk terms total d) = total + length added
    /\ controls (snd (highlightTerms search syncOk terms total d))
       = controls d ++ map (@mark Range) added.
Proof.
  induction terms as [| term terms IH]; intros total d.
  - exists []. simpl. now rewrite app_nil_r, Nat.add_0_r.
  - rewrite highlightTerms_cons.
    destruct (searchAndHighlight_added Range syncOk search term
                (negb (isPossessive term)) d) as (a1 & E1 & C1 & _).
    destruct (IH (total + fst (searchAndHighlight search syncOk term
                                 (negb (isPossessive term)) d))
                 (snd (searchAndHighlight search syncOk term
                         (negb (isPossessive term)) d))) as (a2 & E2 & C2).
    exists (a1 ++ a2). rewrite E2, C2, C1, E1. split.
    + rewrite length_app. lia.
    + now rewrite map_app, app_assoc.
Qed.

Lemma highlightTerms_controls terms : forall total (d d' : Doc Range),
  controls d = controls d' ->
  fst (highlightTerms search syncOk terms total d)
  = fst (highlightTerms search syncOk terms total d')
  /\ controls (snd (highlightTerms search syncOk terms total d))
     = controls (snd (highlightTerms search syncOk terms total d')).
Proof.
  induction terms as [| term terms IH]; intros total d d' E.
  - simpl. now split.
  - rewrite !highlightTerms_cons.
    destruct (searchAndHighlight_controls Range syncOk search term
                (negb (isPossessive term)) d d' E) as [E1 E2].
    rewrite E1. now apply IH.
Qed.

Lemma highlightTerms_searches terms : forall total (d : Doc Range),
  searches (snd (highlightTerms search syncOk terms total d))
  = searches d
    ++ map (fun t => (t, searchOptions t (negb (isPossessive t)))) terms.
Proof.
  induction terms as [| term terms IH]; intros total d.
  - simpl. now rewrite app_nil_r.
  - rewrite highlightTerms_cons, IH, searchAndHighlight_searches.
    now rewrite <- app_assoc.
Qed.

Lemma onNext_eq sel st (d : Doc Range) :
  truthy sel = true ->
  onNext search syncOk (Some sel) st d
  = mkOutcome
      (snd (highlightTerms search syncOk (termsFor (partyFor sel st)) 0
              (clearPartyHighlights d)))
      (saveSelected (Some (name (partyFor sel st))) st)
      (Some (fst (highlightTerms search syncOk (termsFor (partyFor sel st)) 0
                    (clearPartyHighlights d)))).
Proof.
  intros H. unfold onNext. rewrite H.
  now destruct (highlightTerms _ _ _ _ _).
Qed.

Lemma onNext_twice sel st (d : Doc Range) :
  controls (outDoc (onNext search syncOk (Some sel)
                      (outSettings (onNext search syncOk (Some sel) st d))
                      (outDoc (onNext search syncOk (Some sel) st d))))
  = controls (outDoc (onNext search syncOk (Some sel) st d))
  /\ outTotal (onNext search syncOk (Some sel)
                 (outSettings (onNext search syncOk (Some sel) st d))
                 (outDoc (onNext search syncOk (Some sel) st d)))
     = outTotal (onNext search syncOk (Some sel) st d).
Proof.
  destruct (truthy sel) eqn:Hs.
  - rewrite (onNext_eq sel st d Hs). cbn [outDoc outSettings outTotal].
    rewrite onNext_eq by assumption. cbn [outDoc outSettings outTotal].
    assert (Hp : partyFor sel (saveSelected (Some (name (partyFor sel st))) st)
                 = partyFor sel st) by reflexivity.
    rewrite Hp.
    destruct (highlightTerms_added (termsFor (partyFor sel st)) 0
                (clearPartyHighlights d)) as (added & _ & Hc).
    assert (Hclear :
      controls (clearPartyHighlights
                  (snd (highlightTerms search syncOk (termsFor (partyFor sel st)) 0
                          (clearPartyHighlights d))))
      = controls (clearPartyHighlights d)).
    { destruct (snd (highlightTerms search syncOk (termsFor (partyFor sel st)) 0
                       (clearPartyHighlights d))) as [cs' log'].
      simpl in Hc. subst cs'. destruct d as [cs log]. apply clear_after_marks. }
    destruct (highlightTerms_controls (termsFor (partyFor sel st)) 0 _ _ Hclear)
      as [E1 E2].
    now rewrite E1, E2.
  - unfold onNext. rewrite Hs. simpl. now split.
Qed.
End Highlight.

(** What an operation takes from the host's search. *)
Lemma searchAndHighlight_ext (Range : Type)
      (search search' : jsstring -> SearchOptions -> list Range) syncOk
      term wholeWord (d : Doc Range) :
  search' term (searchOptions term wholeWord) = search term (searchOptions term wholeWord) ->
  searchAndHighlight search' syncOk term wholeWord d
  = searchAndHighlight search syncOk term wholeWord d.
Proof. intros E. rewrite !searchAndHighlight_eq. cbv zeta. now rewrite E. Qed.

Lemma highlightTerms_ext (Range : Type)
      (search search' : jsstring -> SearchOptions -> list Range) syncOk terms :
  (forall t, In t terms ->
     search' t (searchOptions t (negb (isPossessive t)))
     = search t (searchOptions t (negb (isPossessive t)))) ->
  forall total (d : Doc Range),
    highlightTerms search' syncOk terms total d = highlightTerms search syncOk terms total d.
Proof.
  induction terms as [| t terms IH]; intros H total d; [reflexivity |].
  rewrite !highlightTerms_cons.
  rewrite (searchAndHighlight_ext Range search search') by (apply H; now left).
  apply IH. intros u Hu. apply H. now right.
Qed.

Lemma onNext_ext (Range : Type)
      (search search' : jsstring -> SearchOptions -> list Range) syncOk
      sel st (d : Doc Range) :
  (forall t, In t (termsFor (partyFor sel st)) ->
     search' t (searchOptions t (negb (isPossessive t)))
     = search t (searchOptions t (negb (isPossessive t)))) ->
  onNext search' syncOk (Some sel) st d = onNext search syncOk (Some sel) st d.
Proof.
  intros H. destruct (truthy sel) eqn:Hs.
  - rewrite !onNext_eq by assumption.
    now rewrite (highlightTerms_ext Range search search').
  - unfold onNext. now rewrite Hs.
Qed.

Lemma filter_all (A : Type) (l : list A) : filter (fun _ => true) l = l.
Proof. induction l as [| x l IH]; simpl; [reflexivity | now rewrite IH]. Qed.

Lemma policyOptions_eq term wholeWord o :
  policyOptions term wholeWord o <-> o = searchOptions term wholeWord.
Proof.
  unfold policyOptions, searchOptions. split.
  - destruct o as [mc mw ip isp]. simpl. intros (-> & -> & -> & ->). reflexivity.
  - intros ->. simpl. auto.
Qed.

(** C2: highlighting a party clears before it applies, so doing it twice
    is doing it once.  For every host, document, settings and selection,
    the second of two [onNext] in a row leaves the same content controls
    and reports the same total as the first; after a first run with a
    selection the controls are the foreign ones of the document followed by
    one fresh control per counted hit; and a reset after either run leaves
    no control with our tag. *)
Theorem onNext_idempotent :
  forall (Range : Type) (search : jsstring -> SearchOptions -> list Range)
         (syncOk : list (ContentControl Range) -> list Range -> bool)
         (sel : jsstring) (st : Settings) (d : Doc Range),
    let first := onNext search syncOk (Some sel) st d in
    let second := onNext search syncOk (Some sel) (outSettings first) (outDoc first) in
    controls (outDoc second) = controls (outDoc first)
    /\ outTotal second = outTotal first
    /\ (truthy sel = true ->
        exists added,
          controls (outDoc first)
          = filter (fun cc => negb (isOurs cc)) (controls d) ++ map (@mark Range) added
          /\ outTotal first = Some (length added))
    /\ filter (@isOurs Range)
              (controls (fst (onReset (outSettings first) (outDoc first)))) = []
    /\ filter (@isOurs Range)
              (controls (fst (onReset (outSettings second) (outDoc second)))) = [].
Proof.
  intros Range search syncOk sel st d first second.
  destruct (onNext_twice Range search syncOk sel st d) as [Hc Ht].
  split; [exact Hc |]. split; [exact Ht |]. split; [| split].
  - intros Hs. subst first. rewrite (onNext_eq Range search syncOk sel st d Hs).
    cbn [outDoc outTotal].
    destruct (highlightTerms_added Range search syncOk (termsFor (partyFor sel st)) 0
                (clearPartyHighlights d)) as (added & Hn & Hcs).
    exists added. rewrite Hcs, Hn. split; reflexivity.
  - apply clear_no_ours.
  - apply clear_no_ours.
Qed.

(** C3: the noise cap.  A term of at most three code units with more than
    250 matches is passed over: nothing is applied and 0 is returned.  A
    longer term is never capped: whatever the number of matches, the
    result is that of the batch loop over all of them, every match in one
    slice; on a host that accepts every range all of them are wrapped and
    counted.  A two-unit term with 300 matches gives 0, a five-unit term
    with 300 matches gives 300. *)
Theorem noise_cap_short_terms_only :
  forall (Range : Type) (search : jsstring -> SearchOptions -> list Range)
         (syncOk : list (ContentControl Range) -> list Range -> bool)
         (term : jsstring) (wholeWord : bool) (d : Doc Range),
    let items := search term (searchOptions term wholeWord) in
    (length term <= 3 -> 250 < length items ->
       fst (searchAndHighlight search syncOk term wholeWord d) = 0
       /\ controls (snd (searchAndHighlight search syncOk term wholeWord d)) = controls d)
    /\ (3 < length term ->
        fst (searchAndHighlight search syncOk term wholeWord d)
        = fst (fold_left (processSlice syncOk) (slices items) (0, controls d))
        /\ controls (snd (searchAndHighlight search syncOk term wholeWord d))
           = snd (fold_left (processSlice syncOk) (slices items) (0, controls d))
        /\ concat (slices items) = map Some (rev items))
    /\ (3 < length term ->
        fst (searchAndHighlight search (validHost (fun _ => true)) term wholeWord d)
        = length items
        /\ controls (snd (searchAndHighlight search (validHost (fun _ => true))
                            term wholeWord d))
           = controls d ++ map (@mark Range) (rev items))
    /\ fst (searchAndHighlight (fun _ _ => seq 0 300) (validHost (fun _ => true))
              (js "it") true (mkDoc [] [])) = 0
    /\ fst (searchAndHighlight (fun _ _ => seq 0 300) (validHost (fun _ => true))
              (js "Acmes") true (mkDoc [] [])) = 300.
Proof.
  intros Range search syncOk term wholeWord d items.
  split; [| split; [| split; [| split]]].
  - intros Hlen Hhits. rewrite searchAndHighlight_eq. cbv zeta. fold items.
    assert (E : (PRONOUN_HIT_CAP <? length items) && (length term <=? 3) = true).
    { apply andb_true_iff. split; [apply Nat.ltb_lt | apply Nat.leb_le]; assumption. }
    rewrite E. now split.
  - intros Hlen. rewrite searchAndHighlight_eq. cbv zeta. fold items.
    assert (E : (PRONOUN_HIT_CAP <? length items) && (length term <=? 3) = false).
    { apply andb_false_iff. right. apply Nat.leb_gt. assumption. }
    rewrite E. cbn [fst snd controls]. repeat split.
    destruct (slices_chunks Range items) as (chunks & Es & Hc & _).
    now rewrite Es, <- concat_map, Hc.
  - intros Hlen.
    assert (E : (PRONOUN_HIT_CAP <? length items) && (length term <=? 3) = false).
    { apply andb_false_iff. right. apply Nat.leb_gt. assumption. }
    destruct (searchAndHighlight_valid Range (fun _ => true) search term wholeWord d E)
      as [E1 E2].
    fold items in E1, E2. rewrite E1, E2.
    assert (Hf : forall l : list Range, filter (fun _ => true) l = l)
      by (intros l; apply forallb_filter_id, forallb_forall; reflexivity).
    now rewrite !Hf.
  - vm_compute; reflexivity.
  - vm_compute; reflexivity.
Qed.

(** C4: batches and the fall-back.  The loop cuts the matches, taken from
    the last to the first, into slices of at most sixty and ends; a slice
    whose sync is accepted is counted whole; a slice whose sync is refused
    is gone through range by range, a refused range neither counted nor
    tried again and the ranges after it still tried; the number returned
    is the number of content controls added, all of them on matches of the
    search.  On a host where a sync fails exactly when it holds an invalid
    range, the valid matches are wrapped, from the last to the first, and
    counted: sixty matches with one invalid give 59. *)
Theorem batches_with_per_item_fallback :
  forall (Range : Type) (search : jsstring -> SearchOptions -> list Range)
         (syncOk : list (ContentControl Range) -> list Range -> bool),
    (forall items : list Range,
       exists chunks,
         slices items = map (map Some) chunks
         /\ concat chunks = rev items
         /\ Forall (fun c => 1 <= length c <= 60) chunks)
    /\ (forall (items : list Range) st,
          batchLoop syncOk (length items) items (Z.of_nat (length items) - 1) st
          = Some (fold_left (processSlice syncOk) (slices items) st))
    /\ (forall cs applied (rs : list Range),
          processSlice syncOk (applied, cs) (map Some rs)
          = if syncOk cs rs then (applied + length rs, cs ++ map (@mark Range) rs)
            else perItem syncOk cs applied (map Some rs))
    /\ (forall cs applied (r : Range) rest,
          perItem syncOk cs applied (Some r :: rest)
          = if syncOk cs [r] then perItem syncOk (cs ++ [mark r]) (S applied) rest
            else perItem syncOk cs applied rest)
    /\ (forall term wholeWord (d : Doc Range),
          exists added,
            fst (searchAndHighlight search syncOk term wholeWord d) = length added
            /\ controls (snd (searchAndHighlight search syncOk term wholeWord d))
               = controls d ++ map (@mark Range) added
            /\ incl added (search term (searchOptions term wholeWord)))
    /\ (forall (valid : Range -> bool) term wholeWord (d : Doc Range),
          (PRONOUN_HIT_CAP <? length (search term (searchOptions term wholeWord)))
          && (length term <=? 3) = false ->
          fst (searchAndHighlight search (validHost valid) term wholeWord d)
          = length (filter valid (search term (searchOptions term wholeWord)))
          /\ controls (snd (searchAndHighlight search (validHost valid) term wholeWord d))
             = controls d
               ++ map (@mark Range)
                      (filter valid (rev (search term (searchOptions term wholeWord)))))
    /\ searchAndHighlight (fun _ _ => seq 0 60)
                          (validHost (fun r => negb (Nat.eqb r 17)))
                          (js "Acme") true (mkDoc [] [])
       = (59,
          mkDoc (map (@mark nat) (rev (seq 18 42) ++ rev (seq 0 17)))
                [(js "Acme", mkOpts false true true true)]).
Proof.
  intros Range search syncOk.
  split; [| split; [| split; [| split; [| split; [| split]]]]].
  - apply slices_chunks.
  - apply batchLoop_slices.
  - intros cs applied rs. unfold processSlice. rewrite trySlice_map_Some.
    destruct (syncOk cs rs); [now rewrite length_map | reflexivity].
  - intros cs applied r rest. cbn [perItem].
    rewrite (trySlice_map_Some Range syncOk cs [r] : trySlice syncOk cs [Some r] = _).
    now destruct (syncOk cs [r]).
  - apply searchAndHighlight_added.
  - intros valid term wholeWord d. apply searchAndHighlight_valid.
  - vm_compute; reflexivity.
Qed.

(** ** Regular expressions *)

Lemma lastOr_app prev u v : lastOr prev (u ++ v) = lastOr (lastOr prev u) v.
Proof. unfold lastOr. apply fold_left_app. Qed.

Lemma lastOr_snoc prev u c : lastOr prev (u ++ [c]) = Some c.
Proof. now rewrite lastOr_app. Qed.

Lemma execFrom_complete r u : forall prev pre v,
  matchAt r (lastOr prev u) v <> None -> execFrom r prev pre (u ++ v) <> None.
Proof.
  induction u as [| c u IH]; intros prev pre v H; simpl in *.
  - destruct v; simpl; destruct (matchAt r prev _) as [[n cs] |]; congruence.
  - destruct (matchAt r prev (c :: u ++ v)) as [[n cs] |]; [discriminate |].
    now apply IH.
Qed.

Lemma execFrom_sound r s : forall prev pre,
  execFrom r prev pre s <> None ->
  exists u v, s = u ++ v /\ matchAt r (lastOr prev u) v <> None.
Proof.
  induction s as [| c s IH]; intros prev pre H; simpl in H.
  - exists [], []. split; [reflexivity |]. simpl.
    destruct (matchAt r prev []) as [[n cs] |]; congruence.
  - destruct (matchAt r prev (c :: s)) as [[n cs] |] eqn:E.
    + exists [], (c :: s). split; [reflexivity |]. simpl. congruence.
    + destruct (IH _ _ H) as (u & v & -> & Hm).
      exists (c :: u), v. split; [reflexivity | exact Hm].
Qed.

Lemma test_iff r s :
  test r s = true <->
  exists u v, s = u ++ v /\ matchAt r (lastOr None u) v <> None.
Proof.
  unfold test, exec. split.
  - intros H. apply (execFrom_sound r s None []).
    destruct (execFrom r None [] s); congruence.
  - intros (u & v & -> & H).
    pose proof (execFrom_complete r u None [] v H) as H'.
    destruct (execFrom r None [] (u ++ v)); congruence.
Qed.

Lemma run_lit (A : Type) cmp w : forall prev s cs
    (k : option char -> jsstring -> caps -> option A),
  run (lit cmp w) prev s cs k
  = if prefixMatch cmp w s
    then k (lastOr prev (firstn (length w) s)) (skipn (length w) s) cs
    else None.
Proof.
  induction w as [| p w IH]; intros prev s cs k; [reflexivity |].
  destruct w as [| q w].
  - destruct s as [| c s]; simpl; [reflexivity |].
    rewrite andb_true_r. reflexivity.
  - change (lit cmp (p :: q :: w)) with (Seq (Cls (cmp p)) (lit cmp (q :: w))).
    destruct s as [| c s]; [reflexivity |].
    cbn [run]. destruct (cmp p c) eqn:E.
    + rewrite IH. cbn [prefixMatch]. rewrite E. reflexivity.
    + cbn [prefixMatch]. now rewrite E.
Qed.

(** ** Possessive terms *)

Lemma possessive_suffix u : forall w,
  (forall prev, matchAt possessiveRe prev w <> None) ->
  isPossessive (u ++ w) = true.
Proof.
  intros w H. apply test_iff. exists u, w. split; [reflexivity | apply H].
Qed.

Lemma isPossessive_apostrophe u : isPossessive (u ++ js "'") = true.
Proof. apply possessive_suffix. intros prev. vm_compute. discriminate. Qed.

Lemma isPossessive_apostrophe_s u : isPossessive (u ++ js "'s") = true.
Proof. apply possessive_suffix. intros prev. vm_compute. discriminate. Qed.

Lemma makePossessive_shape x :
  x <> [] -> makePossessive x = x ++ js "'" \/ makePossessive x = x ++ js "'s".
Proof.
  intros H. unfold makePossessive. apply truthy_true in H. rewrite H. simpl.
  destruct (_ || _); [now left | now right].
Qed.

Lemma isPossessive_makePossessive x :
  x <> [] -> isPossessive (trim (makePossessive x)) = true.
Proof.
  intros H. destruct (makePossessive_shape x H) as [-> | ->].
  - change (js "'") with [apostrophe].
    rewrite trim_keeps_last by reflexivity. apply (isPossessive_apostrophe (trimStart x)).
  - change (js "'s") with [apostrophe; 115%N].
    rewrite trim_keeps_two by reflexivity.
    apply (isPossessive_apostrophe_s (trimStart x)).
Qed.

(** C6: the options of every search.  [searchAndHighlight] calls
    [body.search] once, with the term and with options in which case is
    not matched, whole-word is as it is told, and the two tolerant options
    are on exactly for a term of more than three code units: what the host
    answers to that call is all the operation takes from the host's
    search (two hosts that agree on that call give the same outcome), on a
    host that accepts every sync the controls added are the matches of
    that call, and the document has received exactly that call.  The loop
    of [onNext] asks for whole words exactly for the terms that are not
    possessive, so one [onNext] depends on the host's search only at its
    terms under those options, and the calls the document receives are,
    term by term, those; and every possessive that [buildTerms] forms from
    a non-empty name or alias is recognised as possessive, so it is
    searched as a fragment (Acme's is, Acme is not). *)
Theorem search_options_policy :
  forall (Range : Type) (search : jsstring -> SearchOptions -> list Range)
         (syncOk : list (ContentControl Range) -> list Range -> bool),
    (forall (search' : jsstring -> SearchOptions -> list Range) term wholeWord
            (d : Doc Range),
       (forall o, policyOptions term wholeWord o -> search' term o = search term o) ->
       searchAndHighlight search' syncOk term wholeWord d
       = searchAndHighlight search syncOk term wholeWord d)
    /\ (forall term wholeWord (d : Doc Range),
          (PRONOUN_HIT_CAP
           <? length (search term (mkOpts false wholeWord (3 <? length term)
                                          (3 <? length term))))
          && (length term <=? 3) = false ->
          controls (snd (searchAndHighlight search (validHost (fun _ => true))
                                            term wholeWord d))
          = controls d
            ++ map (@mark Range)
                   (rev (search term (mkOpts false wholeWord (3 <? length term)
                                             (3 <? length term)))))
    /\ (forall (search' : jsstring -> SearchOptions -> list Range) sel st
               (d : Doc Range),
          (forall t o, In t (termsFor (partyFor sel st)) ->
                       policyOptions t (negb (isPossessive t)) o ->
                       search' t o = search t o) ->
          onNext search' syncOk (Some sel) st d = onNext search syncOk (Some sel) st d)
    /\ (forall term wholeWord (d : Doc Range),
          searches (snd (searchAndHighlight search syncOk term wholeWord d))
          = searches d
            ++ [(term, mkOpts false wholeWord (3 <? length term) (3 <? length term))])
    /\ (forall terms total (d : Doc Range),
          searches (snd (highlightTerms search syncOk terms total d))
          = searches d
            ++ map (fun t => (t, mkOpts false (negb (isPossessive t))
                                        (3 <? length t) (3 <? length t))) terms)
    /\ (forall sel st (d : Doc Range),
          truthy sel = true ->
          searches (outDoc (onNext search syncOk (Some sel) st d))
          = searches d
            ++ map (fun t => (t, mkOpts false (negb (isPossessive t))
                                        (3 <? length t) (3 <? length t)))
                   (termsFor (partyFor sel st)))
    /\ (forall x, x <> [] -> isPossessive (trim (makePossessive x)) = true)
    /\ isPossessive (js "Acme's") = true
    /\ isPossessive (js "Holdings'") = true
    /\ isPossessive (js "Acme") = false
    /\ searchOptions (js "Acme's") (negb (isPossessive (js "Acme's")))
       = mkOpts false false true true
    /\ searchOptions (js "its") (negb (isPossessive (js "its")))
       = mkOpts false true false false.
Proof.
  intros Range search syncOk.
  split; [| split; [| split; [| split; [| split; [| split; [| split]]]]]].
  - intros search' term wholeWord d H. apply searchAndHighlight_ext.
    apply H. now apply policyOptions_eq.
  - intros term wholeWord d Hcap.
    destruct (searchAndHighlight_valid Range (fun _ => true) search term wholeWord d Hcap)
      as [_ E].
    rewrite E, filter_all. reflexivity.
  - intros search' sel st d H. apply onNext_ext. intros t Ht.
    apply H; [assumption | now apply policyOptions_eq].
  - intros term wholeWord d. apply searchAndHighlight_searches.
  - intros terms total d. apply highlightTerms_searches.
  - intros sel st d Hs. rewrite onNext_eq by assumption. cbn [outDoc].
    now rewrite highlightTerms_searches.
  - apply isPossessive_makePossessive.
  - repeat split; vm_compute; reflexivity.
Qed.

(** ** Pronouns *)

Ltac split_leb :=
  repeat match goal with
         | |- context [N.leb ?a ?b] => destruct (N.leb_spec a b)
         | H : context [N.leb ?a ?b] |- _ => destruct (N.leb_spec a b)
         end.

Lemma ci_lower p c :
  Chars.isLower p = true -> (Chars.ci p c = true <-> Chars.lower c = p).
Proof.
  unfold Chars.ci, Chars.upper, Chars.lower, Chars.isLower, Chars.isUpper, Chars.inRange.
  intros Hp. split_leb; simpl in *; try discriminate; rewrite N.eqb_eq; lia.
Qed.

Lemma lower_letter_isWord c :
  Chars.isLower (Chars.lower c) = true -> Chars.isWord c = true.
Proof.
  unfold Chars.isWord, Chars.lower. destruct (Chars.isUpper c) eqn:E; [reflexivity |].
  intros ->. reflexivity.
Qed.

Lemma ci_ess c : Chars.ci 115%N c = true <-> isEss c.
Proof.
  rewrite ci_lower by reflexivity. unfold isEss, Chars.lower, Chars.isUpper, Chars.inRange.
  split_leb; simpl; lia.
Qed.

Lemma isEss_isWord c : isEss c -> Chars.isWord c = true.
Proof. intros [-> | ->]; reflexivity. Qed.

Lemma wordEnd_iff post : isWordOpt (hd_error post) = false <-> wordEnd post.
Proof. destruct post; simpl; [tauto | reflexivity]. Qed.

Lemma orElse_some (A : Type) (x y : option A) :
  match x with Some a => Some a | None => y end <> None <-> x <> None \/ y <> None.
Proof. destruct x, y; intuition congruence. Qed.

Lemma matchAt_pluralEss prev v :
  matchAt pluralEssRe prev v <> None <->
  exists b c post, v = b :: c :: post /\ b <> apostrophe /\ isEss c /\ wordEnd post.
Proof.
  change pluralEssRe
    with (Seq (Cls (fun c => negb (Chars.exact apostrophe c)))
              (Seq (Cls (Chars.ci 115%N)) Wb)).
  unfold matchAt. destruct v as [| b [| c post]]; cbn [run].
  - split; [congruence | intros (b & c & post & E & _); discriminate].
  - split.
    + destruct (negb _); congruence.
    + intros (b' & c & post & E & _); discriminate.
  - unfold Chars.exact. split.
    + destruct (N.eqb_spec b apostrophe) as [Hb | Hb]; simpl; [congruence |].
      destruct (Chars.ci 115%N c) eqn:Hc; [| congruence].
      apply ci_ess in Hc. rewrite (isEss_isWord c Hc). simpl.
      destruct (isWordOpt (hd_error post)) eqn:Hw; simpl; [congruence |].
      intros _. exists b, c, post. repeat split; try assumption.
      now apply wordEnd_iff.
    + intros (b' & c' & post' & E & Hb & Hc & Hw). injection E as <- <- <-.
      apply N.eqb_neq in Hb. rewrite Hb. simpl.
      rewrite (proj2 (ci_ess c) Hc), (isEss_isWord c Hc). simpl.
      apply wordEnd_iff in Hw. rewrite Hw. simpl. discriminate.
Qed.

Lemma test_pluralEss nm : test pluralEssRe nm = true <-> essHint nm.
Proof.
  rewrite test_iff. unfold essHint. split.
  - intros (u & v & -> & H). apply matchAt_pluralEss in H.
    destruct H as (b & c & post & -> & H). now exists u, b, c, post.
  - intros (pre & b & c & post & -> & H). exists pre, (b :: c :: post).
    split; [reflexivity |]. apply matchAt_pluralEss. now exists b, c, post.
Qed.

Lemma prefixMatch_ci W :
  Forall (fun p => Chars.isLower p = true) W ->
  forall v, prefixMatch Chars.ci W v = true <-> asciiLower (firstn (length W) v) = W.
Proof.
  induction 1 as [| p W Hp HW IH]; intros v; simpl.
  - tauto.
  - destruct v as [| c v]; simpl; [split; discriminate |].
    rewrite andb_true_iff, IH, (ci_lower p c Hp). split.
    + intros [-> ->]. reflexivity.
    + intros E. injection E as E1 E2. now split.
Qed.

Lemma lastOr_lowered prev m W :
  asciiLower m = W -> W <> [] ->
  Forall (fun p => Chars.isLower p = true) W ->
  exists c, lastOr prev m = Some c /\ Chars.isWord c = true.
Proof.
  intros E Hne HW.
  assert (Hm : m <> []) by (intros ->; simpl in E; congruence).
  destruct (exists_last Hm) as (m' & c & ->).
  exists c. split; [apply lastOr_snoc |].
  apply lower_letter_isWord. rewrite Forall_forall in HW. apply HW.
  rewrite <- E. unfold asciiLower. rewrite map_app. apply in_app_iff. right. now left.
Qed.

(** One branch of the alternation, followed by [\b]. *)
Lemma word_branch (A : Type) W prev v cs (g : jsstring -> caps -> A) :
  W <> [] -> Forall (fun p => Chars.isLower p = true) W ->
  run (lit Chars.ci W) prev v cs
      (fun p s c =>
         if xorb (isWordOpt p) (isWordOpt (hd_error s)) then Some (g s c) else None)
  <> None
  <-> asciiLower (firstn (length W) v) = W /\ wordEnd (skipn (length W) v).
Proof.
  intros Hne HW. rewrite run_lit.
  destruct (prefixMatch Chars.ci W v) eqn:E.
  - apply (prefixMatch_ci W HW) in E.
    destruct (lastOr_lowered prev _ _ E Hne HW) as (c & -> & Hc).
    simpl. rewrite Hc. simpl. rewrite <- wordEnd_iff.
    destruct (isWordOpt _); simpl.
    + split; [congruence | intros [_ H]; discriminate].
    + split; [intros _; now split | intros _; discriminate].
  - split; [congruence |]. intros [H _]. apply (prefixMatch_ci W HW) in H. congruence.
Qed.

Lemma lowered_split v W :
  (asciiLower (firstn (length W) v) = W /\ wordEnd (skipn (length W) v))
  <-> exists w post, v = w ++ post /\ asciiLower w = W /\ wordEnd post.
Proof.
  split.
  - intros [E Hw]. exists (firstn (length W) v), (skipn (length W) v).
    now rewrite firstn_skipn.
  - intros (w & post & -> & E & Hw).
    assert (Hl : length W = length w)
      by (rewrite <- E; unfold asciiLower; now rewrite length_map).
    rewrite Hl, firstn_app, skipn_app, Nat.sub_diag, firstn_all, skipn_all. simpl.
    rewrite app_nil_r. now split.
Qed.

Lemma matchAt_pluralWord prev v :
  matchAt pluralWordRe prev v <> None <->
  exists w post,
    v = w ++ post
    /\ In (asciiLower w) [js "holdings"; js "group"; js "partners"]
    /\ wordEnd post.
Proof.
  change pluralWordRe
    with (Seq (Grp 1 (Alt (lit Chars.ci (js "holdings"))
                          (Alt (lit Chars.ci (js "group"))
                               (lit Chars.ci (js "partners"))))) Wb).
  unfold matchAt. cbn [run]. rewrite !orElse_some.
  assert (HL : forall W, In W [js "holdings"; js "group"; js "partners"] ->
                         W <> [] /\ Forall (fun p => Chars.isLower p = true) W).
  { intros W [<- | [<- | [<- | []]]]; (split; [discriminate |]);
      repeat constructor. }
  rewrite !(word_branch _ _ prev v []
              (fun s' cs' => (length v - length s',
                              (1, firstn (length v - length s') v) :: cs')))
    by (apply HL; simpl; tauto).
  rewrite !lowered_split. simpl. split.
  - intros [H | [H | H]]; destruct H as (w & post & -> & E & Hw);
      exists w, post; rewrite E; tauto.
  - intros (w & post & -> & [E | [E | [E | []]]] & Hw);
      [left | right; left | right; right]; exists w, post; now repeat split.
Qed.

Lemma test_pluralWord nm : test pluralWordRe nm = true <-> wordHint nm.
Proof.
  rewrite test_iff. unfold wordHint. split.
  - intros (u & v & -> & H). apply matchAt_pluralWord in H.
    destruct H as (w & post & -> & H). now exists u, w, post.
  - intros (pre & w & post & -> & H). exists pre, (w ++ post).
    split; [reflexivity |]. apply matchAt_pluralWord. now exists w, post.
Qed.

Lemma pronounsFor_plural nm :
  wordHint nm \/ essHint nm -> pronounsFor nm = pluralPronouns.
Proof.
  intros H. unfold pronounsFor.
  assert (E : test pluralWordRe nm || test pluralEssRe nm = true).
  { apply orb_true_iff. destruct H as [H | H];
      [left; now apply test_pluralWord | right; now apply test_pluralEss]. }
  now rewrite E.
Qed.

Lemma pronounsFor_singular nm :
  ~ (wordHint nm \/ essHint nm) -> pronounsFor nm = singularPronouns.
Proof.
  intros H. unfold pronounsFor.
  destruct (test pluralWordRe nm) eqn:E1.
  - exfalso. apply H. left. now apply test_pluralWord.
  - destruct (test pluralEssRe nm) eqn:E2; [| reflexivity].
    exfalso. apply H. right. now apply test_pluralEss.
Qed.

Lemma essHint_asStated nm : essHint nm -> essHintAsStated nm.
Proof.
  intros (pre & b & c & post & -> & Hb & Hc & Hw).
  exists (pre ++ [b]), c, post. rewrite <- app_assoc. repeat split; try assumption.
  intros (pre' & E). apply app_inj_tail in E. destruct E as [_ E]. contradiction.
Qed.

Lemma essHintAsStated_cases nm :
  essHintAsStated nm ->
  essHint nm \/ exists c post, nm = c :: post /\ isEss c /\ wordEnd post.
Proof.
  intros (pre & c & post & -> & Hc & Hw & Hn).
  destruct pre as [| x pre] using rev_ind.
  - right. now exists c, post.
  - left. exists pre, x, c, post. rewrite <- app_assoc. repeat split; try assumption.
    intros ->. apply Hn. now exists pre.
Qed.

(** C7, as the code has it: [pronounsFor] returns one of the two fixed
    sets; the plural one exactly when the name holds one of the words
    holdings, group, partners (in any case) ending at the end of a word, or
    holds some unit other than an apostrophe followed at once by an s (or
    S) that ends a word; the singular one otherwise.  The second hint is
    the stated one (a token ending in s whose s is not right after an
    apostrophe) but for an s that opens the name, which has no unit before
    it and does not count.  Acme Holdings gives they, their, themselves;
    Acme Inc gives it, its, itself. *)
Theorem pronounsFor_rule :
  forall nm : jsstring,
    (wordHint nm \/ essHint nm -> pronounsFor nm = pluralPronouns)
    /\ (~ (wordHint nm \/ essHint nm) -> pronounsFor nm = singularPronouns)
    /\ (pronounsFor nm = pluralPronouns \/ pronounsFor nm = singularPronouns)
    /\ (pronounsFor nm = pluralPronouns <-> wordHint nm \/ essHint nm)
    /\ (essHint nm -> essHintAsStated nm)
    /\ (essHintAsStated nm ->
        essHint nm \/ exists c post, nm = c :: post /\ isEss c /\ wordEnd post)
    /\ pronounsFor (js "Acme Holdings") = [js "they"; js "their"; js "themselves"]
    /\ pronounsFor (js "Acme Inc") = [js "it"; js "its"; js "itself"].
Proof.
  intros nm. split; [| split; [| split; [| split; [| split; [| split; [| split]]]]]].
  - apply pronounsFor_plural.
  - apply pronounsFor_singular.
  - unfold pronounsFor. destruct (_ || _); [now left | now right].
  - split; [| apply pronounsFor_plural].
    intros E. unfold pronounsFor in E.
    destruct (test pluralWordRe nm) eqn:E1; [left; now apply test_pluralWord |].
    destruct (test pluralEssRe nm) eqn:E2; [right; now apply test_pluralEss |].
    simpl in E. discriminate E.
  - apply essHint_asStated.
  - apply essHintAsStated_cases.
  - vm_compute; reflexivity.
  - vm_compute; reflexivity.
Qed.

(** C7, as stated, fails on a name that opens with a lone s: in "s" (and
    in "S Corp") the token s ends in s and no apostrophe stands before it,
    no word of the first pattern occurs, and [pronounsFor] returns the
    singular set. *)
Lemma pronounsFor_leading_s_is_singular :
  essHintAsStated (js "s")
  /\ pronounsFor (js "s") = [js "it"; js "its"; js "itself"]
  /\ pronounsFor (js "s") <> [js "they"; js "their"; js "themselves"]
  /\ essHintAsStated (js "S Corp")
  /\ pronounsFor (js "S Corp") = [js "it"; js "its"; js "itself"].
Proof.
  assert (Hn : ~ (exists pre', @nil char = pre' ++ [apostrophe]))
    by (intros ([| x pre'] & E); discriminate).
  split; [| split; [| split; [| split]]].
  - exists [], 115%N, []. repeat split; [now left | exact Hn].
  - vm_compute; reflexivity.
  - vm_compute. discriminate.
  - exists [], 83%N, (js " Corp"). repeat split; [now right | exact Hn].
  - vm_compute; reflexivity.
Qed.

(** * Further properties *)

(** ** The matcher against the declarative reading *)

Lemma below_lt cnt hi :
  below cnt hi = true -> match hi with Some h => S cnt <= h | None => True end.
Proof. destruct hi as [h |]; simpl; [| trivial]. intros H. now apply Nat.ltb_lt in H. Qed.

Lemma lt_below cnt hi n :
  match hi with Some h => cnt + S n <= h | None => True end -> below cnt hi = true.
Proof. destruct hi as [h |]; simpl; [| trivial]. intros H. apply Nat.ltb_lt. lia. Qed.

Lemma repGreedy_sound (A : Type) p lo hi s : forall cnt prev k (a : A),
  repGreedy p lo hi cnt prev s k = Some a ->
  exists w s',
    s = w ++ s' /\ forallb p w = true /\ lo <= cnt + length w
    /\ match hi with Some h => length w = 0 \/ cnt + length w <= h | None => True end
    /\ k (lastOr prev w) s' = Some a.
Proof.
  assert (Hstop : forall cnt prev s0 k (a : A),
             (if lo <=? cnt then k prev s0 else None) = Some a ->
             exists w s', s0 = w ++ s' /\ forallb p w = true /\ lo <= cnt + length w
               /\ match hi with Some h => length w = 0 \/ cnt + length w <= h
                                | None => True end
               /\ k (lastOr prev w) s' = Some a).
  { intros cnt prev s0 k a H. destruct (Nat.leb_spec lo cnt); [| discriminate].
    exists [], s0. simpl. repeat split; try assumption; try lia.
    destruct hi; auto. }
  induction s as [| c s IH]; intros cnt prev k a H; simpl in H.
  - now apply Hstop.
  - destruct (p c && below cnt hi) eqn:E; [| now apply Hstop].
    destruct (repGreedy p lo hi (S cnt) (Some c) s k) as [a' |] eqn:R; [| now apply Hstop].
    injection H as <-. apply andb_true_iff in E. destruct E as [Hp Hb].
    destruct (IH _ _ _ _ R) as (w & s' & -> & Hw & Hlo & Hhi & Hk).
    exists (c :: w), s'. simpl. rewrite Hp, Hw. repeat split; try assumption; try lia.
    apply below_lt in Hb. destruct hi as [h |]; [| trivial]. right. lia.
Qed.

Lemma repLazy_sound (A : Type) p lo hi s : forall cnt prev k (a : A),
  repLazy p lo hi cnt prev s k = Some a ->
  exists w s',
    s = w ++ s' /\ forallb p w = true /\ lo <= cnt + length w
    /\ match hi with Some h => length w = 0 \/ cnt + length w <= h | None => True end
    /\ k (lastOr prev w) s' = Some a.
Proof.
  induction s as [| c s IH]; intros cnt prev k a H; simpl in H.
  - destruct (Nat.leb_spec lo cnt); [| discriminate].
    destruct (k prev []) eqn:K; [| discriminate]. injection H as <-.
    exists [], []. simpl. repeat split; try assumption; try lia. destruct hi; auto.
  - assert (Hmore : (if p c && below cnt hi
                     then repLazy p lo hi (S cnt) (Some c) s k else None) = Some a ->
                    exists w s', c :: s = w ++ s' /\ forallb p w = true
                      /\ lo <= cnt + length w
                      /\ match hi with Some h => length w = 0 \/ cnt + length w <= h
                                       | None => True end
                      /\ k (lastOr prev w) s' = Some a).
    { intros R. destruct (p c && below cnt hi) eqn:E; [| discriminate].
      apply andb_true_iff in E. destruct E as [Hp Hb].
      destruct (IH _ _ _ _ R) as (w & s' & -> & Hw & Hlo & Hhi & Hk).
      exists (c :: w), s'. simpl. rewrite Hp, Hw. repeat split; try assumption; try lia.
      apply below_lt in Hb. destruct hi as [h |]; [| trivial]. right. lia. }
    destruct (Nat.leb_spec lo cnt); [| now apply Hmore].
    destruct (k prev (c :: s)) eqn:K; [| now apply Hmore].
    injection H as <-. exists [], (c :: s). simpl.
    repeat split; try assumption; try lia. destruct hi; auto.
Qed.

Lemma run_sound (A : Type) r : forall prev s cs k (a : A),
  run r prev s cs k = Some a ->
  exists prev' s' cs', Reaches r prev s cs prev' s' cs' /\ k prev' s' cs' = Some a.
Proof.
  induction r as [| p | r1 IH1 r2 IH2 | r1 IH1 r2 IH2 | r1 IH1 | g lo hi p | i r1 IH1 | | |];
    intros prev s cs k a H; simpl in H.
  - exists prev, s, cs. simpl. auto.
  - destruct s as [| c s]; [discriminate |]. destruct (p c) eqn:E; [| discriminate].
    exists (Some c), s, cs. split; [exists c; auto | assumption].
  - destruct (IH1 _ _ _ _ _ H) as (pm & sm & cm & R1 & H2).
    destruct (IH2 _ _ _ _ _ H2) as (p' & s' & c' & R2 & Hk).
    exists p', s', c'. split; [exists pm, sm, cm; auto | assumption].
  - destruct (run r1 prev s cs k) as [a' |] eqn:E.
    + injection H as <-. destruct (IH1 _ _ _ _ _ E) as (p' & s' & c' & R & Hk).
      exists p', s', c'. split; [left |]; assumption.
    + destruct (IH2 _ _ _ _ _ H) as (p' & s' & c' & R & Hk).
      exists p', s', c'. split; [right |]; assumption.
  - destruct (run r1 prev s cs k) as [a' |] eqn:E.
    + injection H as <-. destruct (IH1 _ _ _ _ _ E) as (p' & s' & c' & R & Hk).
      exists p', s', c'. split; [left |]; assumption.
    + exists prev, s, cs. split; [right; auto | assumption].
  - assert (Hr : exists w s', s = w ++ s' /\ forallb p w = true /\ lo <= 0 + length w
                   /\ match hi with Some h => length w = 0 \/ 0 + length w <= h
                                    | None => True end
                   /\ k (lastOr prev w) s' cs = Some a).
    { destruct g; [apply repGreedy_sound in H | apply repLazy_sound in H]; exact H. }
    destruct Hr as (w & s' & -> & Hw & Hlo & Hhi & Hk).
    exists (lastOr prev w), s', cs. split; [| assumption].
    exists w. repeat split; try assumption; try lia.
    destruct hi as [h |]; [lia | trivial].
  - destruct (IH1 _ _ _ _ _ H) as (p' & s' & c' & R & Hk).
    exists p', s', ((i, firstn (length s - length s') s) :: c').
    split; [exists c'; auto | assumption].
  - destruct prev; [discriminate |]. exists None, s, cs. simpl. auto.
  - destruct s; [| discriminate]. exists prev, [], cs. simpl. auto.
  - destruct (xorb _ _) eqn:E; [| discriminate]. exists prev, s, cs. simpl. auto.
Qed.

Lemma repGreedy_complete (A : Type) p lo hi w : forall cnt prev s'
    (k : option char -> jsstring -> option A),
  forallb p w = true -> lo <= cnt + length w ->
  match hi with Some h => cnt + length w <= h | None => True end ->
  k (lastOr prev w) s' <> None ->
  repGreedy p lo hi cnt prev (w ++ s') k <> None.
Proof.
  induction w as [| c w IH]; intros cnt prev s' k Hw Hlo Hhi Hk; simpl in *.
  - assert (Hstop : (if lo <=? cnt then k prev s' else None) <> None).
    { destruct (Nat.leb_spec lo cnt); [assumption | lia]. }
    destruct s' as [| c s']; simpl; [assumption |].
    destruct (p c && below cnt hi); [| assumption].
    destruct (repGreedy p lo hi (S cnt) (Some c) s' k); [discriminate | assumption].
  - apply andb_true_iff in Hw. destruct Hw as [Hp Hw].
    rewrite Hp, (lt_below cnt hi (length w)) by assumption. simpl.
    assert (R : repGreedy p lo hi (S cnt) (Some c) (w ++ s') k <> None).
    { apply IH; try assumption; [lia |]. destruct hi; [lia | trivial]. }
    destruct (repGreedy p lo hi (S cnt) (Some c) (w ++ s') k); [discriminate | congruence].
Qed.

Lemma repLazy_complete (A : Type) p lo hi w : forall cnt prev s'
    (k : option char -> jsstring -> option A),
  forallb p w = true -> lo <= cnt + length w ->
  match hi with Some h => cnt + length w <= h | None => True end ->
  k (lastOr prev w) s' <> None ->
  repLazy p lo hi cnt prev (w ++ s') k <> None.
Proof.
  induction w as [| c w IH]; intros cnt prev s' k Hw Hlo Hhi Hk; simpl in *.
  - assert (Hle : (lo <=? cnt) = true) by (apply Nat.leb_le; lia).
    destruct s' as [| c s']; simpl; rewrite Hle;
      destruct (k prev _); try discriminate; congruence.
  - apply andb_true_iff in Hw. destruct Hw as [Hp Hw].
    rewrite Hp, (lt_below cnt hi (length w)) by assumption. simpl.
    assert (R : repLazy p lo hi (S cnt) (Some c) (w ++ s') k <> None).
    { apply IH; try assumption; [lia |]. destruct hi; [lia | trivial]. }
    destruct (lo <=? cnt); [| assumption].
    destruct (k prev (c :: w ++ s')); [discriminate | assumption].
Qed.

Lemma run_complete (A : Type) r : forall prev s cs prev' s' cs'
    (k : option char -> jsstring -> caps -> option A),
  Reaches r prev s cs prev' s' cs' -> k prev' s' cs' <> None ->
  run r prev s cs k <> None.
Proof.
  induction r as [| p | r1 IH1 r2 IH2 | r1 IH1 r2 IH2 | r1 IH1 | g lo hi p | i r1 IH1 | | |];
    intros prev s cs prev' s' cs' k R Hk; simpl in R |- *.
  - destruct R as (-> & -> & ->). assumption.
  - destruct R as (c & -> & Hp & -> & ->). now rewrite Hp.
  - destruct R as (pm & sm & cm & R1 & R2).
    apply (IH1 _ _ _ _ _ _ _ R1). now apply (IH2 _ _ _ _ _ _ _ R2).
  - apply orElse_some. destruct R as [R | R]; [left | right]; eauto.
  - apply orElse_some. destruct R as [R | (-> & -> & ->)]; [left | right]; eauto.
  - destruct R as (w & -> & Hw & Hlo & Hhi & -> & ->).
    destruct g; [apply repGreedy_complete | apply repLazy_complete]; auto.
  - destruct R as (cm & R & ->). now apply (IH1 _ _ _ _ _ _ _ R).
  - destruct R as (-> & -> & -> & ->). assumption.
  - destruct R as (-> & -> & -> & ->). assumption.
  - destruct R as (E & -> & -> & ->). now rewrite E.
Qed.

Lemma Reaches_suffix r : forall prev s cs prev' s' cs',
  Reaches r prev s cs prev' s' cs' -> exists w, s = w ++ s'.
Proof.
  induction r as [| p | r1 IH1 r2 IH2 | r1 IH1 r2 IH2 | r1 IH1 | g lo hi p | i r1 IH1 | | |];
    intros prev s cs prev' s' cs' R; simpl in R.
  - destruct R as (_ & -> & _). now exists [].
  - destruct R as (c & -> & _). now exists [c].
  - destruct R as (pm & sm & cm & R1 & R2).
    destruct (IH1 _ _ _ _ _ _ R1) as (w1 & ->). destruct (IH2 _ _ _ _ _ _ R2) as (w2 & ->).
    exists (w1 ++ w2). now rewrite app_assoc.
  - destruct R as [R | R]; eauto.
  - destruct R as [R | (_ & -> & _)]; [eauto | now exists []].
  - destruct R as (w & -> & _). now exists w.
  - destruct R as (cm & R & _). eauto.
  - destruct R as (_ & _ & -> & _). now exists [].
  - destruct R as (_ & _ & -> & _). now exists [].
  - destruct R as (_ & _ & -> & _). now exists [].
Qed.

Lemma matchAt_iff r prev s :
  matchAt r prev s <> None <->
  exists prev' s' cs', Reaches r prev s [] prev' s' cs'.
Proof.
  unfold matchAt. split.
  - intros H. destruct (run r prev s [] _) as [a |] eqn:E; [| congruence].
    destruct (run_sound _ _ _ _ _ _ _ E) as (p' & s' & c' & R & _). now exists p', s', c'.
  - intros (p' & s' & c' & R). apply (run_complete _ _ _ _ _ _ _ _ _ R). discriminate.
Qed.

Lemma matchAt_sound r prev s n cs :
  matchAt r prev s = Some (n, cs) ->
  exists prev' w s', s = w ++ s' /\ n = length w /\ Reaches r prev s [] prev' s' cs.
Proof.
  unfold matchAt. intros H.
  destruct (run_sound _ _ _ _ _ _ _ H) as (p' & s' & c' & R & E).
  injection E as <- <-. destruct (Reaches_suffix _ _ _ _ _ _ _ R) as (w & ->).
  exists p', w, s'. repeat split; [| assumption].
  rewrite length_app. lia.
Qed.

Lemma test_Reaches r s :
  test r s = true <->
  exists u v prev' s' cs', s = u ++ v /\ Reaches r (lastOr None u) v [] prev' s' cs'.
Proof.
  rewrite test_iff. split.
  - intros (u & v & -> & H). apply matchAt_iff in H.
    destruct H as (p' & s' & c' & R). now exists u, v, p', s', c'.
  - intros (u & v & p' & s' & c' & -> & R). exists u, v. split; [reflexivity |].
    apply matchAt_iff. now exists p', s', c'.
Qed.

(** ** Replacement *)

Lemma matchAt_Cls p prev s :
  matchAt (Cls p) prev s
  = match s with
    | c :: _ => if p c then Some (1, []) else None
    | [] => None
    end.
Proof.
  unfold matchAt. destruct s as [| c s]; cbn [run]; [reflexivity |].
  destruct (p c); [| reflexivity]. cbn [length].
  replace (S (length s) - length s) with 1 by lia. reflexivity.
Qed.

Lemma replaceAll_Cls p f s : forall prev,
  replaceAllFrom (Cls p) f prev 0 s
  = flat_map (fun c => if p c then f [c] else [c]) s.
Proof.
  induction s as [| c s IH]; intros prev.
  - cbn [replaceAllFrom]. now rewrite matchAt_Cls.
  - cbn [replaceAllFrom flat_map]. rewrite matchAt_Cls.
    destruct (p c); simpl; now rewrite IH.
Qed.

Lemma replaceAllFrom_In r v s x : forall prev skip,
  In x (replaceAllFrom r (const v) prev skip s) -> In x s \/ In x v.
Proof.
  induction s as [| c s IH]; intros prev skip H; simpl in H.
  - destruct skip; [| destruct H]. destruct (matchAt r prev []); [now right | destruct H].
  - destruct skip as [| skip].
    + destruct (matchAt r prev (c :: s)) as [[[| n] cs] |].
      * apply in_app_iff in H. destruct H as [H | [<- | H]]; [now right | left; now left |].
        destruct (IH _ _ H); [left; now right | now right].
      * apply in_app_iff in H. destruct H as [H | H]; [now right |].
        destruct (IH _ _ H); [left; now right | now right].
      * destruct H as [<- | H]; [left; now left |].
        destruct (IH _ _ H); [left; now right | now right].
    + destruct (IH _ _ H); [left; now right | now right].
Qed.

(** Where the pattern matches nowhere the text is left as it is. *)
Lemma replaceAllFrom_nomatch r f s : forall prev,
  (forall u v, s = u ++ v -> matchAt r (lastOr prev u) v = None) ->
  replaceAllFrom r f prev 0 s = s.
Proof.
  induction s as [| c s IH]; intros prev H; cbn [replaceAllFrom].
  - assert (H0 : matchAt r prev [] = None) by apply (H [] [] eq_refl).
    now rewrite H0.
  - assert (H0 : matchAt r prev (c :: s) = None) by apply (H [] (c :: s) eq_refl).
    rewrite H0. f_equal. apply IH.
    intros u v ->. apply (H (c :: u) v). reflexivity.
Qed.

Lemma execFrom_nomatch r s : forall prev pre,
  (forall u v, s = u ++ v -> matchAt r (lastOr prev u) v = None) ->
  execFrom r prev pre s = None.
Proof.
  induction s as [| c s IH]; intros prev pre H; cbn [execFrom].
  - assert (H0 : matchAt r prev [] = None) by apply (H [] [] eq_refl).
    now rewrite H0.
  - assert (H0 : matchAt r prev (c :: s) = None) by apply (H [] (c :: s) eq_refl).
    rewrite H0. apply IH.
    intros u v ->. apply (H (c :: u) v). reflexivity.
Qed.

Lemma execFrom_Some r s : forall prev pre m,
  execFrom r prev pre s = Some m ->
  exists u v n,
    s = u ++ v /\ matchAt r (lastOr prev u) v = Some (n, groups m)
    /\ matched m = firstn n v /\ after m = skipn n v.
Proof.
  induction s as [| c s IH]; intros prev pre m H; simpl in H.
  - destruct (matchAt r prev []) as [[n cs] |] eqn:E; [| discriminate].
    injection H as <-. exists [], [], n. simpl. auto.
  - destruct (matchAt r prev (c :: s)) as [[n cs] |] eqn:E.
    + injection H as <-. exists [], (c :: s), n. simpl. auto.
    + destruct (IH _ _ _ H) as (u & v & n & -> & Hm & H1 & H2).
      exists (c :: u), v, n. simpl. auto.
Qed.

(** ** Escaping *)

Lemma escapeHtml_flat s : escapeHtml s = flat_map escapeUnit s.
Proof. unfold escapeHtml, replaceAll. apply replaceAll_Cls. Qed.

Lemma escapeUnit_cases c :
  (c = 38%N /\ escapeUnit c = js "&amp;")
  \/ (c = 60%N /\ escapeUnit c = js "&lt;")
  \/ (c = 62%N /\ escapeUnit c = js "&gt;")
  \/ (c = 34%N /\ escapeUnit c = [38; 113; 117; 111; 116; 59]%N)
  \/ (c = 39%N /\ escapeUnit c = js "&#39;")
  \/ (htmlSpecial c = false /\ escapeUnit c = [c] /\ c <> 38%N).
Proof.
  unfold escapeUnit, htmlSpecial, Chars.oneOf, htmlEntity. simpl.
  destruct (N.eqb_spec c 38); [subst; now left |].
  destruct (N.eqb_spec c 60); [subst; right; now left |].
  destruct (N.eqb_spec c 62); [subst; do 2 right; now left |].
  destruct (N.eqb_spec c 34); [subst; do 3 right; now left |].
  destruct (N.eqb_spec c 39); [subst; do 4 right; now left |].
  do 5 right. auto.
Qed.

Lemma escapeUnit_inj c1 c2 r1 r2 :
  escapeUnit c1 ++ r1 = escapeUnit c2 ++ r2 -> c1 = c2 /\ r1 = r2.
Proof.
  destruct (escapeUnit_cases c1) as [[-> ->] | [[-> ->] | [[-> ->] | [[-> ->] | [[-> ->] | (_ & -> & N1)]]]]];
  destruct (escapeUnit_cases c2) as [[-> ->] | [[-> ->] | [[-> ->] | [[-> ->] | [[-> ->] | (_ & -> & N2)]]]]];
    simpl; intros H; try discriminate H; injection H; intros; subst;
      try congruence; split; congruence.
Qed.

Lemma escapeUnit_nonempty c : escapeUnit c <> [].
Proof.
  destruct (escapeUnit_cases c) as [[_ ->] | [[_ ->] | [[_ ->] | [[_ ->] | [[_ ->] | (_ & -> & _)]]]]];
    discriminate.
Qed.

Lemma escapeUnit_safe c x :
  In x (escapeUnit c) -> htmlSpecial x = true -> x = 38%N.
Proof.
  destruct (escapeUnit_cases c) as [[_ ->] | [[_ ->] | [[_ ->] | [[_ ->] | [[_ ->] | (Hc & -> & _)]]]]];
    simpl; intros H Hx;
    repeat (destruct H as [<- | H]; [try reflexivity; try discriminate Hx; congruence |]);
    destruct H.
Qed.

(** X1: [escapeHtml] leaves no less-than, greater-than, double quote or
    apostrophe in its result (of the five units it treats only the
    ampersand occurs, opening an entity); it works unit by unit, so it
    distributes over concatenation; it never shortens; it is the identity
    on a text without those five units; and it is one-to-one, so the text
    can be recovered from its escaped form. *)
Theorem escapeHtml_safe_and_injective :
  (forall s x, In x (escapeHtml s) -> htmlSpecial x = true -> x = 38%N)
  /\ (forall a b, escapeHtml (a ++ b) = escapeHtml a ++ escapeHtml b)
  /\ (forall s, length s <= length (escapeHtml s))
  /\ (forall s, forallb (fun c => negb (htmlSpecial c)) s = true -> escapeHtml s = s)
  /\ (forall a b, escapeHtml a = escapeHtml b -> a = b).
Proof.
  split; [| split; [| split; [| split]]].
  - intros s x H Hx. rewrite escapeHtml_flat in H. apply in_flat_map in H.
    destruct H as (c & _ & H). now apply (escapeUnit_safe c).
  - intros a b. rewrite !escapeHtml_flat. apply flat_map_app.
  - intros s. rewrite escapeHtml_flat. induction s as [| c s IH]; simpl; [lia |].
    rewrite length_app. pose proof (escapeUnit_nonempty c) as Hn.
    destruct (escapeUnit c); [congruence | simpl; lia].
  - intros s H. rewrite escapeHtml_flat. induction s as [| c s IH]; simpl; [reflexivity |].
    simpl in H. apply andb_true_iff in H. destruct H as [Hc Hs].
    rewrite IH by assumption.
    unfold escapeUnit. apply negb_true_iff in Hc. now rewrite Hc.
  - intros a. rewrite escapeHtml_flat. induction a as [| c a IH]; intros b H;
      rewrite escapeHtml_flat in H; destruct b as [| d b]; simpl in H.
    + reflexivity.
    + symmetry in H. apply app_eq_nil in H. destruct H as [H _].
      now apply escapeUnit_nonempty in H.
    + apply app_eq_nil in H. destruct H as [H _]. now apply escapeUnit_nonempty in H.
    + apply escapeUnit_inj in H. destruct H as [-> H]. f_equal. apply IH.
      now rewrite escapeHtml_flat.
Qed.

(** ** Normalized text *)

Lemma takeWhile_dropWhile p s : takeWhile p s ++ dropWhile p s = s.
Proof.
  induction s as [| c s IH]; simpl; [reflexivity |].
  destruct (p c); simpl; [now rewrite IH | reflexivity].
Qed.

Lemma repGreedy_max (A : Type) p lo s : forall cnt prev
    (k : option char -> jsstring -> option A) a,
  k (lastOr prev (takeWhile p s)) (dropWhile p s) = Some a ->
  lo <= cnt + length (takeWhile p s) ->
  repGreedy p lo None cnt prev s k = Some a.
Proof.
  induction s as [| c s IH]; intros cnt prev k a Hk Hlo; simpl in *.
  - destruct (Nat.leb_spec lo cnt); [assumption | lia].
  - destruct (p c); simpl in *.
    + rewrite (IH (S cnt) (Some c) k a Hk) by lia. reflexivity.
    + destruct (Nat.leb_spec lo cnt); [assumption | lia].
Qed.

Lemma matchAt_blanks_some prev c s :
  isBlank c = true ->
  matchAt blanksRe prev (c :: s) = Some (S (length (takeWhile isBlank s)), []).
Proof.
  intros Hc. unfold matchAt, blanksRe, plus. cbn [run].
  apply repGreedy_max.
  - cbn [takeWhile dropWhile]. rewrite Hc. cbn [length]. do 2 f_equal.
    pose proof (f_equal (@length char) (takeWhile_dropWhile isBlank s)) as E.
    rewrite length_app in E. lia.
  - cbn [takeWhile]. rewrite Hc. cbn [length]. lia.
Qed.

Lemma matchAt_blanks_none prev s :
  match s with c :: _ => isBlank c = false | [] => True end ->
  matchAt blanksRe prev s = None.
Proof.
  intros H. unfold matchAt, blanksRe, plus. cbn [run].
  destruct s as [| c s]; simpl; [reflexivity | now rewrite H].
Qed.

Lemma replaceAll_blanks s :
  (forall prev, replaceAllFrom blanksRe (const [space]) prev 0 s = collapseFrom false s)
  /\ (forall prev, replaceAllFrom blanksRe (const [space]) prev
                     (length (takeWhile isBlank s)) s = collapseFrom true s).
Proof.
  induction s as [| c s [IH1 IH2]].
  - split; intros prev; cbn [replaceAllFrom takeWhile length];
      now rewrite matchAt_blanks_none.
  - destruct (isBlank c) eqn:Hc.
    + split; intros prev; cbn [replaceAllFrom takeWhile length collapseFrom]; rewrite Hc.
      * rewrite matchAt_blanks_some by assumption. unfold const. simpl. now rewrite IH2.
      * cbn [length]. apply IH2.
    + assert (E : forall prev, replaceAllFrom blanksRe (const [space]) prev 0 (c :: s)
                               = c :: collapseFrom false s).
      { intros prev. cbn [replaceAllFrom].
        rewrite matchAt_blanks_none by assumption. now rewrite IH1. }
      split; intros prev; cbn [takeWhile length collapseFrom]; rewrite Hc; apply E.
Qed.

Lemma isBlank_cases c : isBlank c = true -> c = space \/ c = tab.
Proof.
  unfold isBlank, Chars.oneOf. simpl.
  destruct (N.eqb_spec c space); [now left |].
  destruct (N.eqb_spec c tab); [now right | discriminate].
Qed.

Lemma collapseFrom_In b s x : In x (collapseFrom b s) -> (In x s /\ isBlank x = false) \/ x = space.
Proof.
  revert b. induction s as [| c s IH]; intros b H; simpl in H; [destruct H |].
  destruct (isBlank c) eqn:Hc.
  - destruct b.
    + destruct (IH _ H) as [[H1 H2] | H1]; [left; split; [now right | assumption] | now right].
    + destruct H as [<- | H]; [now right |].
      destruct (IH _ H) as [[H1 H2] | H1]; [left; split; [now right | assumption] | now right].
  - destruct H as [<- | H]; [left; split; [now left | assumption] |].
    destruct (IH _ H) as [[H1 H2] | H1]; [left; split; [now right | assumption] | now right].
Qed.

Lemma hasDouble_cons c x y r :
  hasDouble c (x :: y :: r) = (N.eqb x c && N.eqb y c) || hasDouble c (y :: r).
Proof. reflexivity. Qed.

Lemma collapseFrom_no_double s : forall b,
  hasDouble space (collapseFrom b s) = false
  /\ (b = true -> forall r, collapseFrom b s <> space :: r).
Proof.
  induction s as [| c s IH]; intros b; simpl.
  - split; [reflexivity | intros _ r; discriminate].
  - destruct (isBlank c) eqn:Hc.
    + destruct b.
      * apply IH.
      * split; [| discriminate].
        destruct (IH true) as [H1 H2].
        destruct (collapseFrom true s) as [| y r] eqn:E; [reflexivity |].
        rewrite hasDouble_cons, H1, orb_false_r, N.eqb_refl. simpl.
        apply N.eqb_neq. intros ->. now apply (H2 eq_refl r).
    + assert (Hn : c <> space) by (intros ->; discriminate Hc).
      split.
      * destruct (IH false) as [H1 _].
        destruct (collapseFrom false s) as [| y r] eqn:E; [reflexivity |].
        rewrite hasDouble_cons, H1, orb_false_r.
        apply N.eqb_neq in Hn. now rewrite Hn.
      * intros _ r H. injection H as H _. contradiction.
Qed.

Lemma collapseFrom_id s :
  ~ In tab s -> hasDouble space s = false -> collapseFrom false s = s.
Proof.
  induction s as [| c s IH]; intros Ht Hd; simpl; [reflexivity |].
  assert (Ht' : ~ In tab s) by (intros H; apply Ht; now right).
  assert (Hd' : hasDouble space s = false).
  { destruct s as [| y r]; [reflexivity |]. rewrite hasDouble_cons in Hd.
    apply orb_false_iff in Hd. apply Hd. }
  destruct (isBlank c) eqn:Hc.
  - destruct (isBlank_cases c Hc) as [-> | ->]; [| exfalso; apply Ht; now left].
    f_equal. destruct s as [| y r]; [reflexivity |].
    rewrite hasDouble_cons in Hd. apply orb_false_iff in Hd. destruct Hd as [Hd _].
    rewrite N.eqb_refl in Hd. simpl in Hd.
    assert (Hy : isBlank y = false).
    { destruct (isBlank y) eqn:Hy; [| reflexivity].
      destruct (isBlank_cases y Hy) as [-> | ->];
        [discriminate Hd | exfalso; apply Ht'; now left]. }
    specialize (IH Ht' Hd'). simpl in IH |- *. rewrite Hy in IH |- *. exact IH.
  - f_equal. now apply IH.
Qed.

Lemma matchAt_crlf_none prev s :
  match s with c :: _ => c <> cr | [] => True end -> matchAt crlfRe prev s = None.
Proof.
  intros H. unfold matchAt, crlfRe. cbn [run]. destruct s as [| c s]; [reflexivity |].
  unfold Chars.exact at 1. apply N.eqb_neq in H. now rewrite H.
Qed.

Lemma matchAt_crlf_some prev s :
  exists n, matchAt crlfRe prev (cr :: s) = Some (S n, []).
Proof.
  unfold matchAt, crlfRe. cbn [run]. unfold Chars.exact at 1. rewrite N.eqb_refl.
  destruct s as [| d s]; cbn [length].
  - exists 0. reflexivity.
  - destruct (Chars.exact newline d).
    + exists 1. do 2 f_equal. lia.
    + exists 0. do 2 f_equal. lia.
Qed.

Lemma replaceAll_crlf_no_cr s : forall prev skip,
  ~ In cr (replaceAllFrom crlfRe (const [newline]) prev skip s).
Proof.
  induction s as [| c s IH]; intros prev skip H; cbn [replaceAllFrom] in H.
  - destruct skip; [| destruct H].
    rewrite matchAt_crlf_none in H by exact I. destruct H.
  - destruct skip as [| skip]; [| now apply IH in H].
    destruct (N.eq_dec c cr) as [-> | Hc].
    + destruct (matchAt_crlf_some prev s) as (n & E). rewrite E in H.
      destruct H as [H | H]; [discriminate H | now apply IH in H].
    + rewrite matchAt_crlf_none in H by exact Hc.
      destruct H as [H | H]; [congruence | now apply IH in H].
Qed.

Lemma replaceAll_crlf_id s :
  ~ In cr s -> replaceAll crlfRe (const [newline]) s = s.
Proof.
  intros H. apply replaceAllFrom_nomatch. intros u v ->.
  apply matchAt_crlf_none. destruct v as [| c v]; [exact I |].
  intros ->. apply H, in_app_iff. right. now left.
Qed.

Lemma normalizeSpaces_eq s :
  normalizeSpaces s
  = trim (collapseFrom false (replaceAll crlfRe (const [newline]) s)).
Proof.
  change (normalizeSpaces s)
    with (trim (replaceAllFrom blanksRe (const [space]) None 0
                  (replaceAll crlfRe (const [newline]) s))).
  now rewrite (proj1 (replaceAll_blanks _)).
Qed.

Lemma dropWhile_suffix p s : exists a, s = a ++ dropWhile p s.
Proof. exists (takeWhile p s). now rewrite takeWhile_dropWhile. Qed.

Lemma trim_middle s : exists a b, s = a ++ trim s ++ b.
Proof.
  unfold trim, trimEnd, trimStart.
  destruct (dropWhile_suffix Chars.isSpace s) as [a Ha].
  destruct (dropWhile_suffix Chars.isSpace (rev (dropWhile Chars.isSpace s))) as [b Hb].
  exists a, (rev b). rewrite <- rev_app_distr, <- Hb, rev_involutive. exact Ha.
Qed.

Lemma trim_In s x : In x (trim s) -> In x s.
Proof.
  destruct (trim_middle s) as (a & b & E). intros H. rewrite E.
  apply in_app_iff. right. apply in_app_iff. now left.
Qed.

Lemma hasDouble_split c s :
  hasDouble c s = true <-> exists u v, s = u ++ c :: c :: v.
Proof.
  induction s as [| x s IH].
  - split; [discriminate | intros ([| ? ?] & v & E); discriminate].
  - destruct s as [| y r].
    + split; [discriminate | intros ([| ? [| ? ?]] & v & E); discriminate].
    + rewrite hasDouble_cons, orb_true_iff, andb_true_iff, !N.eqb_eq, IH. split.
      * intros [[-> ->] | (u & v & E)]; [now exists [], r | exists (x :: u), v; now rewrite E].
      * intros ([| z u] & v & E).
        -- injection E as -> -> _. now left.
        -- injection E as -> E. right. now exists u, v.
Qed.

Lemma trim_no_double c s : hasDouble c s = false -> hasDouble c (trim s) = false.
Proof.
  intros H. destruct (hasDouble c (trim s)) eqn:E; [| reflexivity].
  apply hasDouble_split in E. destruct E as (u & v & E).
  destruct (trim_middle s) as (a & b & Hs).
  assert (Hd : hasDouble c s = true).
  { apply hasDouble_split. exists (a ++ u), (v ++ b). rewrite Hs, E.
    now rewrite <- !app_assoc. }
  congruence.
Qed.

Lemma trim_all_space s : forallb Chars.isSpace s = true -> trim s = [].
Proof.
  intros H. unfold trim, trimStart.
  assert (E : dropWhile Chars.isSpace s = []).
  { induction s as [| c s IH]; simpl in *; [reflexivity |].
    apply andb_true_iff in H. destruct H as [Hc Hs]. rewrite Hc. now apply IH. }
  now rewrite E.
Qed.

(** X2: the text [normalizeSpaces] returns has no carriage return and no
    tab, never two spaces in a row, and no white space at either end;
    normalizing it again changes nothing; and a text of white space only
    is normalized to the empty text. *)
Theorem normalizeSpaces_normal_form :
  forall s : jsstring,
    ~ In cr (normalizeSpaces s)
    /\ ~ In tab (normalizeSpaces s)
    /\ ~ (exists u v, normalizeSpaces s = u ++ space :: space :: v)
    /\ trim (normalizeSpaces s) = normalizeSpaces s
    /\ normalizeSpaces (normalizeSpaces s) = normalizeSpaces s
    /\ (forallb Chars.isSpace s = true -> normalizeSpaces s = []).
Proof.
  intros s.
  assert (Hcr : ~ In cr (normalizeSpaces s)).
  { rewrite normalizeSpaces_eq. intros H. apply trim_In in H.
    apply collapseFrom_In in H. destruct H as [[H _] | H]; [| discriminate H].
    now apply replaceAll_crlf_no_cr in H. }
  assert (Htab : ~ In tab (normalizeSpaces s)).
  { rewrite normalizeSpaces_eq. intros H. apply trim_In in H.
    apply collapseFrom_In in H. destruct H as [[_ H] | H]; discriminate H. }
  assert (Hd : hasDouble space (normalizeSpaces s) = false).
  { rewrite normalizeSpaces_eq. apply trim_no_double, collapseFrom_no_double. }
  assert (Ht : trim (normalizeSpaces s) = normalizeSpaces s).
  { rewrite normalizeSpaces_eq. apply trim_idem. }
  split; [exact Hcr |]. split; [exact Htab |]. split; [| split; [exact Ht | split]].
  - intros H. apply hasDouble_split in H. congruence.
  - rewrite (normalizeSpaces_eq (normalizeSpaces s)).
    rewrite replaceAll_crlf_id by exact Hcr.
    rewrite collapseFrom_id by assumption. exact Ht.
  - intros H. rewrite normalizeSpaces_eq. apply trim_all_space.
    apply forallb_forall. intros x Hx. apply collapseFrom_In in Hx.
    destruct Hx as [[Hx _] | ->]; [| reflexivity].
    apply replaceAllFrom_In in Hx. destruct Hx as [Hx | [<- | []]]; [| reflexivity].
    rewrite forallb_forall in H. now apply H.
Qed.

(** ** Names of parties *)

Lemma jseqb_sym a b : jseqb a b = jseqb b a.
Proof.
  destruct (jseqb a b) eqn:E.
  - apply jseqb_true in E. subst. symmetry. apply jseqb_refl.
  - destruct (jseqb b a) eqn:E'; [| reflexivity].
    apply jseqb_true in E'. subst. now rewrite jseqb_refl in E.
Qed.

Lemma isSpace_not_letter c :
  (65 <= c <= 122)%N -> Chars.isSpace c = false.
Proof.
  intros H. unfold Chars.isSpace, Chars.inRange.
  repeat (apply orb_false_intro); try (apply N.eqb_neq; lia);
    apply andb_false_iff; first [left; apply N.leb_gt; lia | right; apply N.leb_gt; lia].
Qed.

Lemma isSpace_upper c : Chars.isSpace (Chars.upper c) = Chars.isSpace c.
Proof.
  unfold Chars.upper. destruct (Chars.isLower c) eqn:E; [| reflexivity].
  unfold Chars.isLower, Chars.inRange in E. apply andb_true_iff in E.
  destruct E as [E1 E2]. apply N.leb_le in E1, E2.
  rewrite !isSpace_not_letter by lia. reflexivity.
Qed.

Lemma isSpace_lower c : Chars.isSpace (Chars.lower c) = Chars.isSpace c.
Proof.
  unfold Chars.lower. destruct (Chars.isUpper c) eqn:E; [| reflexivity].
  unfold Chars.isUpper, Chars.inRange in E. apply andb_true_iff in E.
  destruct E as [E1 E2]. apply N.leb_le in E1, E2.
  rewrite !isSpace_not_letter by lia. reflexivity.
Qed.

Lemma isLower_range c : Chars.isLower c = true <-> (97 <= c <= 122)%N.
Proof.
  unfold Chars.isLower, Chars.inRange. rewrite andb_true_iff, !N.leb_le. tauto.
Qed.

Lemma isUpper_range c : Chars.isUpper c = true <-> (65 <= c <= 90)%N.
Proof.
  unfold Chars.isUpper, Chars.inRange. rewrite andb_true_iff, !N.leb_le. tauto.
Qed.

Lemma lower_upper c : Chars.lower (Chars.upper c) = Chars.lower c.
Proof.
  unfold Chars.upper. destruct (Chars.isLower c) eqn:L; [| reflexivity].
  apply isLower_range in L. unfold Chars.lower.
  rewrite (proj2 (isUpper_range (c - 32)%N)) by lia.
  destruct (Chars.isUpper c) eqn:U; [apply isUpper_range in U; lia | lia].
Qed.

Lemma lower_lower c : Chars.lower (Chars.lower c) = Chars.lower c.
Proof.
  unfold Chars.lower at 2 3. destruct (Chars.isUpper c) eqn:U.
  - apply isUpper_range in U. unfold Chars.lower.
    destruct (Chars.isUpper (c + 32)%N) eqn:U'; [apply isUpper_range in U'; lia | reflexivity].
  - unfold Chars.lower. now rewrite U.
Qed.

Lemma dropWhile_map p f s :
  (forall c, p (f c) = p c) -> dropWhile p (map f s) = map f (dropWhile p s).
Proof.
  intros H. induction s as [| c s IH]; simpl; [reflexivity |].
  rewrite H. destruct (p c); [assumption | reflexivity].
Qed.

Lemma trim_map f s :
  (forall c, Chars.isSpace (f c) = Chars.isSpace c) -> trim (map f s) = map f (trim s).
Proof.
  intros H. unfold trim, trimEnd, trimStart.
  rewrite dropWhile_map, <- map_rev, dropWhile_map, map_rev by assumption. reflexivity.
Qed.

(** ** Case conversion *)

Lemma ascii_check (P : N -> bool) :
  forallb P (map N.of_nat (seq 0 128)) = true -> forall c, (c < 128)%N -> P c = true.
Proof.
  intros H c Hc. rewrite forallb_forall in H. apply H. apply in_map_iff.
  exists (N.to_nat c). split; [apply N2Nat.id | apply in_seq; lia].
Qed.

Lemma not_leading c : (c < 55296)%N -> Unicode.isLeadingSurrogate c = false.
Proof.
  intros H. unfold Unicode.isLeadingSurrogate, Chars.inRange.
  apply andb_false_iff; left; apply N.leb_gt; lia.
Qed.

Lemma not_trailing c : (c < 55296)%N -> Unicode.isTrailingSurrogate c = false.
Proof.
  intros H. unfold Unicode.isTrailingSurrogate, Chars.inRange.
  apply andb_false_iff; left; apply N.leb_gt; lia.
Qed.

Lemma surrogate_range h l :
  Unicode.isLeadingSurrogate h && Unicode.isTrailingSurrogate l = true ->
  (55296 <= h /\ 56320 <= l <= 57343)%N.
Proof.
  unfold Unicode.isLeadingSurrogate, Unicode.isTrailingSurrogate, Chars.inRange.
  rewrite !andb_true_iff, !N.leb_le. lia.
Qed.

(** A map that moves Basic Latin letters only does not change how the
    text splits into code points. *)
Lemma stringToCodePoints_map f :
  (forall c, (c < 128)%N -> (f c < 128)%N) -> (forall c, (128 <= c)%N -> f c = c) ->
  forall n s, length s <= n ->
    Unicode.stringToCodePoints (map f s) = map f (Unicode.stringToCodePoints s).
Proof.
  intros Hlo Hhi.
  assert (Hl : forall c, Unicode.isLeadingSurrogate (f c) = Unicode.isLeadingSurrogate c).
  { intros c. destruct (N.lt_ge_cases c 128) as [H | H]; [| now rewrite Hhi].
    specialize (Hlo c H). now rewrite !not_leading by lia. }
  assert (Ht : forall c, Unicode.isTrailingSurrogate (f c) = Unicode.isTrailingSurrogate c).
  { intros c. destruct (N.lt_ge_cases c 128) as [H | H]; [| now rewrite Hhi].
    specialize (Hlo c H). now rewrite !not_trailing by lia. }
  induction n as [| n IH]; intros s Hn.
  - destruct s; [reflexivity | simpl in Hn; lia].
  - destruct s as [| h [| l s]]; [reflexivity | reflexivity |].
    cbn [map Unicode.stringToCodePoints]. rewrite Hl, Ht.
    destruct (Unicode.isLeadingSurrogate h && Unicode.isTrailingSurrogate l) eqn:E.
    + apply surrogate_range in E.
      rewrite (Hhi h), (Hhi l) by lia. cbn [map]. rewrite Hhi by lia.
      f_equal. apply IH. simpl in Hn. lia.
    + cbn [map]. f_equal. apply (IH (l :: s)). simpl in Hn |- *. lia.
Qed.

Lemma stringToCodePoints_cons h s :
  Unicode.isLeadingSurrogate h = false ->
  Unicode.stringToCodePoints (h :: s) = h :: Unicode.stringToCodePoints s.
Proof.
  intros H. destruct s as [| l s]; [reflexivity |].
  change (Unicode.stringToCodePoints (h :: l :: s))
    with (if Unicode.isLeadingSurrogate h && Unicode.isTrailingSurrogate l
          then (65536 + (h - 55296) * 1024 + (l - 56320))%N :: Unicode.stringToCodePoints s
          else h :: Unicode.stringToCodePoints (l :: s)).
  now rewrite H.
Qed.

Lemma stringToCodePoints_ascii s :
  Forall (fun c => (c < 128)%N) s -> Unicode.stringToCodePoints s = s.
Proof.
  induction 1 as [| c s Hc Hs IH]; [reflexivity |].
  rewrite stringToCodePoints_cons by (apply not_leading; lia). now rewrite IH.
Qed.

Lemma codePointsToString_bmp cps :
  Forall (fun c => (c < 65536)%N) cps -> Unicode.codePointsToString cps = cps.
Proof.
  induction 1 as [| c cps Hc Hs IH]; [reflexivity |].
  unfold Unicode.codePointsToString in *. cbn [flat_map]. rewrite IH.
  unfold Unicode.utf16EncodeCodePoint. now rewrite (proj2 (N.ltb_lt c 65536) Hc).
Qed.

Lemma toLower_ascii c : (c < 128)%N ->
  Unicode.toLower c = [Chars.lower c] /\ N.eqb c Unicode.capitalSigma = false.
Proof.
  intros H.
  pose proof (ascii_check
    (fun c => jseqb (Unicode.toLower c) [Chars.lower c]
              && negb (N.eqb c Unicode.capitalSigma)) eq_refl c H) as E.
  apply andb_true_iff in E. destruct E as [E1 E2].
  apply jseqb_true in E1. apply negb_true_iff in E2. now split.
Qed.

Lemma toUpper_ascii c : (c < 128)%N -> Unicode.toUpper c = [Chars.upper c].
Proof.
  intros H. apply jseqb_true.
  apply (ascii_check (fun c => jseqb (Unicode.toUpper c) [Chars.upper c]) eq_refl c H).
Qed.

Lemma lower_ascii c : (c < 128)%N -> (Chars.lower c < 128)%N.
Proof.
  intros H. apply N.ltb_lt.
  apply (ascii_check (fun c => N.ltb (Chars.lower c) 128) eq_refl c H).
Qed.

Lemma upper_ascii c : (c < 128)%N -> (Chars.upper c < 128)%N.
Proof.
  intros H. apply N.ltb_lt.
  apply (ascii_check (fun c => N.ltb (Chars.upper c) 128) eq_refl c H).
Qed.

Lemma lower_beyond c : (128 <= c)%N -> Chars.lower c = c.
Proof.
  intros H. unfold Chars.lower. destruct (Chars.isUpper c) eqn:E; [| reflexivity].
  apply isUpper_range in E. lia.
Qed.

Lemma upper_beyond c : (128 <= c)%N -> Chars.upper c = c.
Proof.
  intros H. unfold Chars.upper. destruct (Chars.isLower c) eqn:E; [| reflexivity].
  apply isLower_range in E. lia.
Qed.

Lemma lowerFrom_ascii s : forall before,
  Forall (fun c => (c < 128)%N) s -> Unicode.lowerFrom before s = map Chars.lower s.
Proof.
  induction s as [| c s IH]; intros before H; [reflexivity |].
  inversion H as [| ? ? Hc Hs]; subst. cbn [Unicode.lowerFrom map].
  destruct (toLower_ascii c Hc) as [E1 E2]. rewrite E2, E1, IH by assumption.
  reflexivity.
Qed.

(** On a text of Basic Latin the case conversions move the letters and
    nothing else. *)
Lemma toLowerCase_ascii s :
  Forall (fun c => (c < 128)%N) s -> toLowerCase s = asciiLower s.
Proof.
  intros H. unfold toLowerCase.
  rewrite stringToCodePoints_ascii, lowerFrom_ascii by assumption.
  apply codePointsToString_bmp. apply Forall_map.
  eapply Forall_impl; [| exact H]. intros c Hc. simpl. apply lower_ascii in Hc. lia.
Qed.

Lemma toUpperCase_ascii s :
  Forall (fun c => (c < 128)%N) s -> toUpperCase s = asciiUpper s.
Proof.
  intros H. unfold toUpperCase. rewrite stringToCodePoints_ascii by assumption.
  assert (E : flat_map Unicode.toUpper s = map Chars.upper s).
  { induction H as [| c s Hc Hs IH]; [reflexivity |].
    cbn [flat_map map]. now rewrite toUpper_ascii, IH. }
  rewrite E. apply codePointsToString_bmp. apply Forall_map.
  eapply Forall_impl; [| exact H]. intros c Hc. simpl. apply upper_ascii in Hc. lia.
Qed.

(** Lowering does not see the case of the Basic Latin letters it is
    given. *)
Lemma casedAhead_map f :
  (forall c, Unicode.caseIgnorable (f c) = Unicode.caseIgnorable c) ->
  (forall c, Unicode.cased (f c) = Unicode.cased c) ->
  forall cps, Unicode.casedAhead (map f cps) = Unicode.casedAhead cps.
Proof.
  intros Hi Hc. induction cps as [| c cps IH]; [reflexivity |].
  cbn [map Unicode.casedAhead]. now rewrite Hi, Hc, IH.
Qed.

Lemma lowerFrom_map f :
  (forall c, Unicode.toLower (f c) = Unicode.toLower c) ->
  (forall c, N.eqb (f c) Unicode.capitalSigma = N.eqb c Unicode.capitalSigma) ->
  (forall c, Unicode.caseIgnorable (f c) = Unicode.caseIgnorable c) ->
  (forall c, Unicode.cased (f c) = Unicode.cased c) ->
  forall cps before, Unicode.lowerFrom before (map f cps) = Unicode.lowerFrom before cps.
Proof.
  intros Hl Hs Hi Hc. induction cps as [| c cps IH]; intros before; [reflexivity |].
  cbn [map Unicode.lowerFrom]. now rewrite Hl, Hs, Hi, Hc, IH, casedAhead_map.
Qed.

Lemma toLowerCase_fold f :
  (forall c, (c < 128)%N -> (f c < 128)%N) -> (forall c, (128 <= c)%N -> f c = c) ->
  forallb (sameLowering f) (map N.of_nat (seq 0 128)) = true ->
  forall s, toLowerCase (map f s) = toLowerCase s.
Proof.
  intros Hlo Hhi Hck s.
  assert (H : forall c, sameLowering f c = true).
  { intros c. destruct (N.lt_ge_cases c 128) as [H | H]; [now apply ascii_check |].
    unfold sameLowering. rewrite Hhi by assumption.
    now rewrite jseqb_refl, !Bool.eqb_reflx. }
  unfold toLowerCase.
  rewrite (stringToCodePoints_map f Hlo Hhi (length s)) by lia.
  rewrite lowerFrom_map; [reflexivity | | | |]; intros c; specialize (H c);
    unfold sameLowering in H; rewrite !andb_true_iff in H;
    destruct H as [[[E1 E2] E3] E4].
  - now apply jseqb_true.
  - now apply Bool.eqb_prop.
  - now apply Bool.eqb_prop.
  - now apply Bool.eqb_prop.
Qed.

Lemma toLowerCase_asciiLower s : toLowerCase (asciiLower s) = toLowerCase s.
Proof. apply (toLowerCase_fold Chars.lower lower_ascii lower_beyond eq_refl). Qed.

Lemma toLowerCase_asciiUpper s : toLowerCase (asciiUpper s) = toLowerCase s.
Proof. apply (toLowerCase_fold Chars.upper upper_ascii upper_beyond eq_refl). Qed.

Lemma key_upper a : toLowerCase (trim (asciiUpper a)) = toLowerCase (trim a).
Proof.
  unfold asciiUpper. rewrite trim_map by apply isSpace_upper.
  apply toLowerCase_asciiUpper.
Qed.

Lemma key_lower a : toLowerCase (trim (asciiLower a)) = toLowerCase (trim a).
Proof.
  unfold asciiLower. rewrite trim_map by apply isSpace_lower.
  apply toLowerCase_asciiLower.
Qed.

(** Case conversion on text outside Basic Latin: an accented capital, a
    sharp s, a capital sigma at the end of a word and inside one, a
    capital I with a dot, a Deseret capital (a surrogate pair), and a
    surrogate on its own. *)
Example toLowerCase_accented :
  toLowerCase (201%N :: js "COLE") = 233%N :: js "cole"
  /\ toUpperCase (233%N :: js "cole") = 201%N :: js "COLE".
Proof. split; vm_compute; reflexivity. Qed.

Example toUpperCase_sharp_s :
  toUpperCase (js "Stra" ++ 223%N :: js "e") = js "STRASSE"
  /\ toLowerCase (js "STRASSE") = js "strasse"
  /\ toLowerCase (js "Stra" ++ 223%N :: js "e") = js "stra" ++ 223%N :: js "e".
Proof. repeat split; vm_compute; reflexivity. Qed.

Example toLowerCase_sigma :
  toLowerCase [927; 916; 927; 931]%N = [959; 948; 959; 962]%N
  /\ toLowerCase [931; 927; 931; 32; 931]%N = [963; 959; 962; 32; 963]%N.
Proof. split; vm_compute; reflexivity. Qed.

Example toLowerCase_beyond_one_unit :
  toLowerCase [304]%N = [105; 775]%N
  /\ toLowerCase [55297; 56320]%N = [55297; 56360]%N
  /\ toLowerCase [55297; 65]%N = [55297; 97]%N.
Proof. repeat split; vm_compute; reflexivity. Qed.

(** X3: [equalName] is an equivalence on names: it holds exactly when the
    trimmed, lower-cased names are the same text, so it is reflexive,
    symmetric and transitive; it does not see white space around a name
    or the case of its Basic Latin letters; lower-casing is that of the
    language, so an accented capital equals its small letter, while a
    sharp s does not equal SS. *)
Theorem equalName_equivalence :
  (forall a b, equalName a b = true <-> toLowerCase (trim a) = toLowerCase (trim b))
  /\ (forall a, equalName a a = true)
  /\ (forall a b, equalName a b = equalName b a)
  /\ (forall a b c, equalName a b = true -> equalName b c = true -> equalName a c = true)
  /\ (forall a b, equalName (trim a) b = equalName a b)
  /\ (forall a b, equalName (asciiUpper a) b = equalName a b)
  /\ (forall a b, equalName (asciiLower a) b = equalName a b)
  /\ equalName (201%N :: js "cole") (233%N :: js "cole") = true
  /\ equalName (js "Stra" ++ 223%N :: js "e") (js "STRASSE") = false.
Proof.
  split; [| split; [| split; [| split; [| split; [| split; [| split]]]]]].
  - intros a b. apply jseqb_true.
  - intros a. apply jseqb_refl.
  - intros a b. apply jseqb_sym.
  - intros a b c H1 H2. unfold equalName in *.
    apply jseqb_true in H1, H2. apply jseqb_true. congruence.
  - intros a b. unfold equalName. now rewrite trim_idem.
  - intros a b. unfold equalName. now rewrite key_upper.
  - intros a b. unfold equalName. now rewrite key_lower.
  - split; vm_compute; reflexivity.
Qed.

(** ** De-duplication *)

Lemma fold_setAdd_In l : forall acc x,
  In x (fold_left setAdd l acc) <-> In x acc \/ In x l.
Proof.
  induction l as [| y l IH]; intros acc x; simpl; [tauto |].
  rewrite IH, setAdd_In. intuition congruence.
Qed.

Lemma fold_setAdd_NoDup l : forall acc, NoDup acc -> NoDup (fold_left setAdd l acc).
Proof.
  induction l as [| y l IH]; intros acc H; simpl; [assumption |].
  now apply IH, setAdd_NoDup.
Qed.

Lemma fold_setAdd_length l : forall acc,
  length (fold_left setAdd l acc) <= length acc + length l.
Proof.
  induction l as [| y l IH]; intros acc; simpl; [lia |].
  specialize (IH (setAdd acc y)). pose proof (setAdd_length acc y). lia.
Qed.

Lemma fold_setAdd_fresh l : forall acc,
  NoDup l -> (forall x, In x l -> ~ In x acc) -> fold_left setAdd l acc = acc ++ l.
Proof.
  induction l as [| y l IH]; intros acc Hn Hf; simpl; [now rewrite app_nil_r |].
  inversion Hn as [| ? ? Hy Hl]; subst.
  assert (E : setAdd acc y = acc ++ [y]).
  { unfold setAdd. destruct (setHas acc y) eqn:H; [| reflexivity].
    apply setHas_In in H. exfalso. apply (Hf y); [now left | assumption]. }
  rewrite E, IH; [now rewrite <- app_assoc | assumption |].
  intros x Hx H. apply in_app_iff in H. destruct H as [H | [<- | []]].
  - apply (Hf x); [now right | assumption].
  - contradiction.
Qed.

(** X4: [dedupe] returns the elements of its argument, each once; a list
    without repetitions comes back as it is, so de-duplicating twice is
    de-duplicating once; and the result is never longer than the
    argument. *)
Theorem dedupe_set_like :
  forall l : list jsstring,
    NoDup (dedupe l)
    /\ (forall x, In x (dedupe l) <-> In x l)
    /\ length (dedupe l) <= length l
    /\ (NoDup l -> dedupe l = l)
    /\ dedupe (dedupe l) = dedupe l.
Proof.
  intros l.
  assert (Hn : NoDup (dedupe l)) by (apply fold_setAdd_NoDup; constructor).
  assert (Hid : forall m, NoDup m -> dedupe m = m).
  { intros m Hm. unfold dedupe. rewrite fold_setAdd_fresh; auto. }
  split; [exact Hn |]. split; [| split; [| split]].
  - intros x. unfold dedupe. rewrite fold_setAdd_In. simpl. tauto.
  - apply (fold_setAdd_length l []).
  - apply Hid.
  - now apply Hid.
Qed.

Lemma dedupePartiesFrom_fresh l : forall seen out,
  NoDup (map partyKey l) -> (forall p, In p l -> ~ In (partyKey p) seen) ->
  dedupePartiesFrom seen out l = out ++ l.
Proof.
  induction l as [| q l IH]; intros seen out Hn Hf; simpl; [now rewrite app_nil_r |].
  simpl in Hn. inversion Hn as [| ? ? Hq Hl]; subst.
  fold (partyKey q).
  assert (E : setHas seen (partyKey q) = false)
    by (apply setHas_false, Hf; now left).
  rewrite E. simpl. rewrite IH; [now rewrite <- app_assoc | assumption |].
  intros p Hp H. apply setAdd_In in H. destruct H as [H | H].
  - apply (Hf p); [now right | assumption].
  - apply Hq. rewrite <- H. now apply in_map.
Qed.

Lemma dedupePartiesFrom_snoc l : forall seen out p,
  NoDup (map partyKey l) -> (forall q, In q l -> ~ In (partyKey q) seen) ->
  dedupePartiesFrom seen out (l ++ [p])
  = if setHas seen (partyKey p) || existsb (fun q => jseqb (partyKey p) (partyKey q)) l
    then out ++ l else out ++ l ++ [p].
Proof.
  induction l as [| q l IH]; intros seen out p Hn Hf.
  - simpl. fold (partyKey p). rewrite orb_false_r.
    destruct (setHas seen (partyKey p)); simpl; now rewrite ?app_nil_r.
  - simpl in Hn. inversion Hn as [| ? ? Hq Hl]; subst.
    cbn [app dedupePartiesFrom existsb]. fold (partyKey q).
    assert (E : setHas seen (partyKey q) = false)
      by (apply setHas_false, Hf; now left).
    rewrite E. cbn [negb]. rewrite IH; [| assumption |].
    + assert (Hs : setHas (setAdd seen (partyKey q)) (partyKey p)
                   = setHas seen (partyKey p) || jseqb (partyKey p) (partyKey q)).
      { apply eq_true_iff_eq. rewrite setHas_In, setAdd_In, orb_true_iff, setHas_In,
          jseqb_true. tauto. }
      rewrite Hs, <- orb_assoc, <- !app_assoc. reflexivity.
    + intros p' Hp H. apply setAdd_In in H. destruct H as [H | H].
      * apply (Hf p'); [now right | assumption].
      * apply Hq. rewrite <- H. now apply in_map.
Qed.

(** X5: [dedupeParties] returns parties of its argument; a list in which
    no two parties share a key comes back as it is, so de-duplicating
    twice is de-duplicating once; the result is never longer than the
    argument.  The key is the trimmed name lower-cased as the language
    does it: of a name with an accented capital and the same name in small
    letters only the first is kept. *)
Theorem dedupeParties_idempotent :
  forall arr : list Party,
    (forall p, In p (dedupeParties arr) -> In p arr)
    /\ (NoDup (map partyKey arr) -> dedupeParties arr = arr)
    /\ dedupeParties (dedupeParties arr) = dedupeParties arr
    /\ length (dedupeParties arr) <= length arr
    /\ dedupeParties [mkParty (201%N :: js "cole") None; mkParty (233%N :: js "cole") None]
       = [mkParty (201%N :: js "cole") None].
Proof.
  intros arr.
  assert (Hid : forall l, NoDup (map partyKey l) -> dedupeParties l = l).
  { intros l Hl. unfold dedupeParties. rewrite dedupePartiesFrom_fresh; auto. }
  split; [| split; [| split; [| split; [| vm_compute; reflexivity]]]].
  - intros p Hp. destruct (dedupePartiesFrom_first _ _ _ _ Hp) as [[] | H].
    destruct H as (pre & post & -> & _). apply in_app_iff. right. now left.
  - apply Hid.
  - apply Hid. apply dedupePartiesFrom_NoDup, dedupeInv_empty.
  - apply dedupeParties_length.
Qed.

(** X6: adding a party by hand.  A blank entry adds nothing (the handler
    returns at once); otherwise the new list has no two parties with one
    key, still holds the key of every stored party and holds the key of
    the entry; and when the stored list has no duplicate keys, an entry
    whose key is already there leaves the list as it is (the stored party
    and its role are kept), and a new one is put at the end, trimmed and
    without a role.  Keys are lower-cased as the language does it: the
    small-letter form of a stored name with an accented capital is
    already there. *)
Theorem onAddParty_adds_once :
  forall (stored : list Party) (input : jsstring),
    (trim input = [] -> onAddParty (Some stored) input = None)
    /\ (trim input <> [] ->
        exists l,
          onAddParty (Some stored) input = Some l
          /\ NoDup (map partyKey l)
          /\ (forall p, In p stored -> In (partyKey p) (map partyKey l))
          /\ In (toLowerCase (trim input)) (map partyKey l)
          /\ length l <= S (length stored)
          /\ (NoDup (map partyKey stored) ->
              In (toLowerCase (trim input)) (map partyKey stored) -> l = stored)
          /\ (NoDup (map partyKey stored) ->
              ~ In (toLowerCase (trim input)) (map partyKey stored) ->
              l = stored ++ [mkParty (trim input) None]))
    /\ onAddParty (Some [mkParty (201%N :: js "cole") (Some (js "Client"))])
                  (js " " ++ 233%N :: js "cole ")
       = Some [mkParty (201%N :: js "cole") (Some (js "Client"))].
Proof.
  intros stored input. split; [| split; [| vm_compute; reflexivity]].
  - intros H. unfold onAddParty. now rewrite H.
  - intros H. unfold onAddParty. apply truthy_true in H. rewrite H.
    set (new := mkParty (trim input) None).
    assert (Hk : partyKey new = toLowerCase (trim input)).
    { unfold partyKey, new. simpl. now rewrite trim_idem. }
    exists (dedupeParties (stored ++ [new])). split; [reflexivity |].
    assert (Hcov : forall p, In p (stored ++ [new]) ->
                             In (partyKey p) (map partyKey (dedupeParties (stored ++ [new]))))
      by (intros p Hp; now apply dedupePartiesFrom_covers; [apply dedupeInv_empty |]).
    assert (Hsnoc : NoDup (map partyKey stored) ->
              dedupeParties (stored ++ [new])
              = if existsb (fun q => jseqb (partyKey new) (partyKey q)) stored
                then stored else stored ++ [new]).
    { intros Hn. unfold dedupeParties. rewrite dedupePartiesFrom_snoc; auto. }
    assert (Hex : existsb (fun q => jseqb (partyKey new) (partyKey q)) stored = true
                  <-> In (toLowerCase (trim input)) (map partyKey stored)).
    { rewrite existsb_exists, in_map_iff, Hk. split.
      - intros (q & Hq & E). apply jseqb_true in E. exists q. now split.
      - intros (q & E & Hq). exists q. split; [assumption |]. apply jseqb_true. congruence. }
    split; [apply dedupePartiesFrom_NoDup, dedupeInv_empty |].
    split; [intros p Hp; apply Hcov, in_app_iff; now left |].
    split; [rewrite <- Hk; apply Hcov, in_app_iff; right; now left |].
    split.
    { etransitivity; [apply dedupeParties_length |]. rewrite length_app. simpl. lia. }
    split.
    + intros Hn Hin. rewrite Hsnoc by assumption. apply Hex in Hin. now rewrite Hin.
    + intros Hn Hin. rewrite Hsnoc by assumption.
      destruct (existsb _ stored) eqn:E; [| reflexivity].
      exfalso. apply Hin, Hex. reflexivity.
Qed.

(** ** Literals and captures in the declarative reading *)

Lemma lastOr_None_nil u : lastOr None u = None -> u = [].
Proof.
  destruct u as [| c u] using rev_ind; [reflexivity |].
  rewrite lastOr_snoc. discriminate.
Qed.

Lemma Reaches_lit cmp W : forall prev s cs prev' s' cs',
  Reaches (lit cmp W) prev s cs prev' s' cs' <->
  exists w, s = w ++ s' /\ Forall2 (fun p c => cmp p c = true) W w
            /\ prev' = lastOr prev w /\ cs' = cs.
Proof.
  induction W as [| p W IH]; intros prev s cs prev' s' cs'.
  - simpl. split.
    + intros (-> & -> & ->). exists []. repeat split. constructor.
    + intros (w & -> & H & -> & ->). inversion H. subst. simpl. auto.
  - destruct W as [| q W].
    + simpl. split.
      * intros (c & -> & Hc & -> & ->). exists [c]. repeat split.
        constructor; [assumption | constructor].
      * intros (w & -> & H & -> & ->). inversion H as [| ? c ? w' Hc H']; subst.
        inversion H'; subst. exists c. simpl. auto.
    + change (lit cmp (p :: q :: W)) with (Seq (Cls (cmp p)) (lit cmp (q :: W))).
      cbn [Reaches]. split.
      * intros (pm & sm & cm & (c & -> & Hc & -> & ->) & R).
        apply IH in R. destruct R as (w & -> & H & -> & ->).
        exists (c :: w). repeat split. now constructor.
      * intros (w & -> & H & -> & ->). inversion H as [| ? c ? w' Hc H']; subst.
        exists (Some c), (w' ++ s'), cs. split; [exists c; auto |].
        apply IH. exists w'. auto.
Qed.

Lemma Forall2_ci_lower W : Forall (fun p => Chars.isLower p = true) W ->
  forall w, Forall2 (fun p c => Chars.ci p c = true) W w <-> asciiLower w = W.
Proof.
  induction 1 as [| p W Hp HW IH]; intros w.
  - split; [intros H; now inversion H | intros H; destruct w; [constructor | discriminate]].
  - split.
    + intros H. inversion H as [| ? c ? w' Hc H']; subst. simpl.
      apply (ci_lower p c Hp) in Hc. apply IH in H'. congruence.
    + intros H. destruct w as [| c w]; [discriminate |]. simpl in H.
      injection H as H1 H2. constructor; [now apply (ci_lower p c Hp) | now apply IH].
Qed.

Lemma Reaches_litI W prev s cs prev' s' cs' :
  Forall (fun p => Chars.isLower p = true) W ->
  (Reaches (lit Chars.ci W) prev s cs prev' s' cs' <->
   exists w, s = w ++ s' /\ asciiLower w = W /\ prev' = lastOr prev w /\ cs' = cs).
Proof.
  intros HW. rewrite Reaches_lit. split; intros (w & H1 & H2 & H3);
    exists w; (split; [assumption |]); (split; [| assumption]);
      now apply (Forall2_ci_lower W HW).
Qed.

Lemma Reaches_groupFree r : forall prev s cs prev' s' cs',
  groupFree r = true -> Reaches r prev s cs prev' s' cs' -> cs' = cs.
Proof.
  induction r as [| p | r1 IH1 r2 IH2 | r1 IH1 r2 IH2 | r1 IH1 | g lo hi p | i r1 IH1 | | |];
    intros prev s cs prev' s' cs' G R; simpl in G, R; try discriminate G.
  - now destruct R as (_ & _ & ->).
  - now destruct R as (c & _ & _ & _ & ->).
  - apply andb_true_iff in G. destruct G as [G1 G2].
    destruct R as (pm & sm & cm & R1 & R2).
    rewrite (IH2 _ _ _ _ _ _ G2 R2). now apply (IH1 _ _ _ _ _ _ G1 R1).
  - apply andb_true_iff in G. destruct G as [G1 G2].
    destruct R as [R | R]; eauto.
  - destruct R as [R | (_ & _ & ->)]; eauto.
  - now destruct R as (w & _ & _ & _ & _ & _ & ->).
  - now destruct R as (_ & _ & _ & ->).
  - now destruct R as (_ & _ & _ & ->).
  - now destruct R as (_ & _ & _ & ->).
Qed.

Lemma groupFree_lit cmp W : groupFree (lit cmp W) = true.
Proof.
  induction W as [| p W IH]; [reflexivity |].
  destruct W as [| q W]; [reflexivity |].
  change (lit cmp (p :: q :: W)) with (Seq (Cls (cmp p)) (lit cmp (q :: W))).
  simpl. exact IH.
Qed.

Lemma Reaches_alts l : forall prev s cs prev' s' cs',
  l <> [] -> Reaches (alts l) prev s cs prev' s' cs' ->
  exists r, In r l /\ Reaches r prev s cs prev' s' cs'.
Proof.
  induction l as [| r l IH]; intros prev s cs prev' s' cs' Hne R; [congruence |].
  destruct l as [| r' l].
  - exists r. split; [now left | exact R].
  - change (alts (r :: r' :: l)) with (Alt r (alts (r' :: l))) in R. cbn [Reaches] in R.
    destruct R as [R | R].
    + exists r. split; [now left | exact R].
    + destruct (IH _ _ _ _ _ _ ltac:(discriminate) R) as (x & Hx & Rx).
      exists x. split; [now right | exact Rx].
Qed.

(** ** Stop words *)

Lemma Reaches_word_opt W X prev s cs prev' s' cs' :
  Forall (fun p => Chars.isLower p = true) W ->
  Forall (fun p => Chars.isLower p = true) X ->
  (Reaches (Seq (lit Chars.ci W) (Opt (lit Chars.ci X))) prev s cs prev' s' cs' <->
   exists w, s = w ++ s' /\ (asciiLower w = W \/ asciiLower w = W ++ X)
             /\ prev' = lastOr prev w /\ cs' = cs).
Proof.
  intros HW HX. cbn [Reaches]. split.
  - intros (pm & sm & cm & R1 & R2). apply (Reaches_litI W) in R1; [| assumption].
    destruct R1 as (w & -> & E & -> & ->).
    destruct R2 as [R2 | (-> & -> & ->)].
    + apply (Reaches_litI X) in R2; [| assumption].
      destruct R2 as (x & -> & Ex & -> & ->). exists (w ++ x).
      rewrite <- app_assoc, lastOr_app. repeat split. right.
      unfold asciiLower in *. now rewrite map_app, E, Ex.
    + exists w. auto.
  - intros (w & -> & [E | E] & -> & ->).
    + exists (lastOr prev w), s', cs. split.
      * apply (Reaches_litI W); [assumption |]. exists w. auto.
      * right. auto.
    + exists (lastOr prev (firstn (length W) w)), (skipn (length W) w ++ s'), cs.
      assert (E1 : asciiLower (firstn (length W) w) = W).
      { unfold asciiLower in *. rewrite <- firstn_map, E, firstn_app, Nat.sub_diag.
        rewrite firstn_all. simpl. apply app_nil_r. }
      assert (E2 : asciiLower (skipn (length W) w) = X).
      { unfold asciiLower in *. rewrite <- skipn_map, E, skipn_app, Nat.sub_diag.
        rewrite skipn_all. reflexivity. }
      split.
      * apply (Reaches_litI W); [assumption |]. exists (firstn (length W) w).
        repeat split; [| assumption].
        now rewrite app_assoc, firstn_skipn.
      * left. apply (Reaches_litI X); [assumption |]. exists (skipn (length W) w).
        repeat split; [assumption |]. now rewrite <- lastOr_app, firstn_skipn.
Qed.

Lemma all_lower_js :
  Forall (fun W => Forall (fun p => Chars.isLower p = true) W)
         [js "service"; js "s"; js "deliverable"; js "agreement"; js "partie";
          js "the"; js "between"].
Proof. repeat constructor. Qed.

Lemma lower_lit W :
  In W [js "service"; js "s"; js "deliverable"; js "agreement"; js "partie";
        js "the"; js "between"] ->
  Forall (fun p => Chars.isLower p = true) W.
Proof. intros H. exact (proj1 (Forall_forall _ _) all_lower_js W H). Qed.

Lemma STOPWORDS_shape :
  STOPWORDS
  = Seq Bol
      (Seq (Grp 1 (Alt (Seq (lit Chars.ci (js "service")) (Opt (lit Chars.ci (js "s"))))
                  (Alt (Seq (lit Chars.ci (js "deliverable")) (Opt (lit Chars.ci (js "s"))))
                  (Alt (lit Chars.ci (js "agreement"))
                       (Seq (lit Chars.ci (js "partie")) (Opt (lit Chars.ci (js "s"))))))))
           Eol).
Proof. reflexivity. Qed.

Lemma test_STOPWORDS s : test STOPWORDS s = true <-> In (asciiLower s) stopWords.
Proof.
  rewrite test_Reaches, STOPWORDS_shape. split.
  - intros (u & v & p' & s' & cs' & -> & R). cbn [Reaches] in R.
    destruct R as (pm & sm & cm & (Hb & -> & -> & ->) & R).
    destruct R as (pm2 & sm2 & cm2 & (cm3 & RA & ->) & (-> & _ & _ & _)).
    apply lastOr_None_nil in Hb. subst u. simpl.
    destruct RA as [R | [R | [R | R]]].
    + apply Reaches_word_opt in R; try (apply lower_lit; simpl; tauto).
      destruct R as (w & -> & [E | E] & _); rewrite app_nil_r, E;
        unfold stopWords; simpl; auto 10.
    + apply Reaches_word_opt in R; try (apply lower_lit; simpl; tauto).
      destruct R as (w & -> & [E | E] & _); rewrite app_nil_r, E;
        unfold stopWords; simpl; auto 10.
    + apply Reaches_litI in R; try (apply lower_lit; simpl; tauto).
      destruct R as (w & -> & E & _); rewrite app_nil_r, E;
        unfold stopWords; simpl; auto 10.
    + apply Reaches_word_opt in R; try (apply lower_lit; simpl; tauto).
      destruct R as (w & -> & [E | E] & _); rewrite app_nil_r, E;
        unfold stopWords; simpl; auto 10.
  - intros H.
    exists [], s, (lastOr None s), [], [(1, firstn (length s - length (@nil char)) s)].
    split; [reflexivity |]. cbn [Reaches].
    exists None, s, []. split; [simpl; auto |].
    exists (lastOr None s), [], [(1, firstn (length s - length (@nil char)) s)].
    split; [| simpl; auto]. exists []. split; [| reflexivity].
    unfold stopWords in H. simpl in H.
    destruct H as [H | [H | [H | [H | [H | [H | [H | []]]]]]]].
    + left. apply Reaches_word_opt; try (apply lower_lit; simpl; tauto).
      exists s. rewrite app_nil_r. repeat split. left. now symmetry.
    + left. apply Reaches_word_opt; try (apply lower_lit; simpl; tauto).
      exists s. rewrite app_nil_r. repeat split. right. now symmetry.
    + right. left. apply Reaches_word_opt; try (apply lower_lit; simpl; tauto).
      exists s. rewrite app_nil_r. repeat split. left. now symmetry.
    + right. left. apply Reaches_word_opt; try (apply lower_lit; simpl; tauto).
      exists s. rewrite app_nil_r. repeat split. right. now symmetry.
    + right. right. left. apply Reaches_litI; try (apply lower_lit; simpl; tauto).
      exists s. rewrite app_nil_r. repeat split. now symmetry.
    + right. right. right. apply Reaches_word_opt; try (apply lower_lit; simpl; tauto).
      exists s. rewrite app_nil_r. repeat split. left. now symmetry.
    + right. right. right. apply Reaches_word_opt; try (apply lower_lit; simpl; tauto).
      exists s. rewrite app_nil_r. repeat split. right. now symmetry.
Qed.

(** X7: the stopword pattern accepts a name exactly when the whole name,
    in any case, is one of service, services, deliverable, deliverables,
    agreement, partie, parties: nothing may stand before or after the
    word, and the singular party is not among them. *)
Theorem stopwords_whole_name :
  (forall s, test STOPWORDS s = true <-> In (asciiLower s) stopWords)
  /\ test STOPWORDS (js "party") = false
  /\ test STOPWORDS (js "Services Agreement") = false.
Proof.
  split; [apply test_STOPWORDS |]. split; vm_compute; reflexivity.
Qed.

(** ** Possessive terms, declaratively *)

Lemma possessiveRe_shape :
  possessiveRe
  = Seq (Cls (Chars.exact apostrophe))
        (Seq (Rep true 0 None Chars.isSpace)
             (Seq (Opt (Cls (Chars.exact 115%N))) Eol)).
Proof. reflexivity. Qed.

Lemma isPossessive_iff_shape t : isPossessive t = true <-> possessiveShape t.
Proof.
  unfold possessiveShape, isPossessive. rewrite test_Reaches, possessiveRe_shape. split.
  - intros (u & v & p' & s' & cs' & -> & R). cbn [Reaches] in R.
    destruct R as (pm & sm & cm & (c & -> & Hc & -> & ->) & R).
    destruct R as (pm2 & sm2 & cm2 & (w & -> & Hw & _ & _ & -> & ->) & R).
    destruct R as (pm3 & sm3 & cm3 & Ro & (-> & _)).
    apply N.eqb_eq in Hc. subst c. exists u, w. split; [assumption |].
    destruct Ro as [(c & -> & Hc & _) | (_ & E & _)].
    + apply N.eqb_eq in Hc. subst c. now right.
    + subst sm2. left. now rewrite app_nil_r.
  - intros (pre & ws & Hw & [-> | ->]).
    + exists pre, (apostrophe :: ws), (lastOr (Some apostrophe) ws), [], [].
      split; [reflexivity |]. cbn [Reaches].
      exists (Some apostrophe), ws, []. split; [exists apostrophe; auto |].
      exists (lastOr (Some apostrophe) ws), [], []. split.
      * exists ws. rewrite app_nil_r. repeat split; [assumption | lia].
      * exists (lastOr (Some apostrophe) ws), [], []. split; [right |]; auto.
    + exists pre, (apostrophe :: ws ++ [115%N]), (Some 115%N), [], [].
      split; [reflexivity |]. cbn [Reaches].
      exists (Some apostrophe), (ws ++ [115%N]), []. split; [exists apostrophe; auto |].
      exists (lastOr (Some apostrophe) ws), [115%N], []. split.
      * exists ws. repeat split; [assumption | lia].
      * exists (Some 115%N), [], []. split; [left; exists 115%N |]; auto.
Qed.


Lemma combine_map (A B : Type) (f : A -> B) (l : list A) :
  combine l (map f l) = map (fun x => (x, f x)) l.
Proof. induction l as [| x l IH]; simpl; [reflexivity | now rewrite IH]. Qed.

(** X8: [isPossessive] holds exactly for a term that ends in an
    apostrophe, then white space (possibly none), then at most one lower
    case s; and only such terms are searched as fragments rather than as
    whole words: the loop of [onNext] takes from the host's search only
    what it answers for a term under options whose whole-word option is
    off exactly when the term has that shape, and the calls the document
    receives are, term by term, of that kind. *)
Theorem isPossessive_shape :
  (forall t : jsstring, isPossessive t = true <-> possessiveShape t)
  /\ (forall (Range : Type) (search search' : jsstring -> SearchOptions -> list Range)
             (syncOk : list (ContentControl Range) -> list Range -> bool)
             terms total (d : Doc Range),
        (forall t o, In t terms ->
                     (matchWholeWord o = false <-> possessiveShape t) ->
                     matchCase o = false ->
                     ignorePunct o = (3 <? length t) -> ignoreSpace o = (3 <? length t) ->
                     search' t o = search t o) ->
        highlightTerms search' syncOk terms total d
        = highlightTerms search syncOk terms total d)
  /\ (forall (Range : Type) (search : jsstring -> SearchOptions -> list Range)
             (syncOk : list (ContentControl Range) -> list Range -> bool)
             terms total (d : Doc Range),
        exists os,
          searches (snd (highlightTerms search syncOk terms total d))
          = searches d ++ combine terms os
          /\ Forall2 (fun t o => matchWholeWord o = false <-> possessiveShape t) terms os).
Proof.
  assert (Hw : forall t,
            matchWholeWord (searchOptions t (negb (isPossessive t))) = false
            <-> possessiveShape t).
  { intros t. rewrite <- isPossessive_iff_shape. simpl.
    destruct (isPossessive t); simpl; intuition congruence. }
  split; [apply isPossessive_iff_shape |]. split.
  - intros Range search search' syncOk terms total d H.
    apply highlightTerms_ext. intros t Ht. apply H; auto.
  - intros Range search syncOk terms total d.
    exists (map (fun t => searchOptions t (negb (isPossessive t))) terms). split.
    + rewrite combine_map. apply highlightTerms_searches.
    + induction terms as [| t terms IH]; simpl; constructor; auto.
Qed.

(** ** Roles *)

Lemma roleRe_shape :
  roleRe true = roleShape (Grp 1 roleWordsRe) /\ roleRe false = roleShape roleWordsRe.
Proof. split; reflexivity. Qed.

Lemma Reaches_Seq a b prev s cs prev' s' cs' :
  Reaches (Seq a b) prev s cs prev' s' cs' ->
  exists pm sm cm, Reaches a prev s cs pm sm cm /\ Reaches b pm sm cm prev' s' cs'.
Proof. intros H. exact H. Qed.

Lemma Reaches_roleShape_paren inner prev v cs prev' s' cs' :
  Reaches (roleShape inner) prev v cs prev' s' cs' -> exists v', v = lparen :: v'.
Proof.
  unfold roleShape. cbn [seqs]. intros R. apply Reaches_Seq in R.
  destruct R as (pm & sm & cm & (c & -> & Hc & _) & _).
  apply N.eqb_eq in Hc. subst c. now exists sm.
Qed.

Lemma Reaches_roleShape_caps inner prev v prev' s' cs :
  groupFree inner = true ->
  Reaches (roleShape (Grp 1 inner)) prev v [] prev' s' cs ->
  exists w p4 s5 p5, cs = [(1, w)] /\ Reaches inner p4 (w ++ s5) [] p5 s5 [].
Proof.
  intros G. unfold roleShape. cbn [seqs]. intros R.
  apply Reaches_Seq in R. destruct R as (p1 & s1 & c1 & R1 & R).
  apply Reaches_Seq in R. destruct R as (p2 & s2 & c2 & R2 & R).
  apply Reaches_Seq in R. destruct R as (p3 & s3 & c3 & R3 & R).
  apply Reaches_Seq in R. destruct R as (p4 & s4 & c4 & R4 & R).
  apply Reaches_Seq in R. destruct R as (p5 & s5 & c5 & R5 & R).
  apply Reaches_Seq in R. destruct R as (p6 & s6 & c6 & R6 & R).
  apply Reaches_Seq in R. destruct R as (p7 & s7 & c7 & R7 & R8).
  apply Reaches_groupFree in R1, R2, R3, R4, R6, R7, R8; try reflexivity.
  subst c1 c2 c3 c4 cs c7 c6.
  cbn [Reaches] in R5. destruct R5 as (cm & R5 & ->).
  pose proof (Reaches_groupFree _ _ _ _ _ _ _ G R5) as E. subst cm.
  destruct (Reaches_suffix _ _ _ _ _ _ _ R5) as (w & ->).
  exists w, p4, s5, p5. split; [| assumption].
  rewrite length_app, Nat.add_sub, firstn_app, Nat.sub_diag, firstn_all. simpl.
  now rewrite app_nil_r.
Qed.

Lemma Reaches_roleWords prev s cs prev' s' cs' :
  Reaches roleWordsRe prev s cs prev' s' cs' ->
  exists W w, In W roleWords /\ s = w ++ s'
              /\ Forall2 (fun p c => Chars.ci p c = true) (js W) w.
Proof.
  intros R. unfold roleWordsRe in R. apply Reaches_alts in R; [| discriminate].
  destruct R as (r & Hr & R). apply in_map_iff in Hr. destruct Hr as (W & <- & HW).
  unfold litI in R. apply Reaches_lit in R. destruct R as (w & -> & H & _).
  now exists W, w.
Qed.

Lemma ci_upper_pat P c :
  Chars.isUpper P = true -> Chars.ci P c = true ->
  Chars.upper c = P /\ Chars.isWord c = true.
Proof.
  intros HP H. apply isUpper_range in HP. unfold Chars.ci in H. apply N.eqb_eq in H.
  assert (EP : Chars.upper P = P).
  { unfold Chars.upper. destruct (Chars.isLower P) eqn:L; [| reflexivity].
    apply isLower_range in L. lia. }
  rewrite EP in H. split; [assumption |].
  unfold Chars.upper in H. unfold Chars.isWord.
  destruct (Chars.isLower c) eqn:L.
  - now rewrite orb_true_r.
  - subst c. now rewrite (proj2 (isUpper_range P)).
Qed.

Lemma lower_pat_notSpace p c :
  Chars.isLower p = true -> Chars.lower c = p -> notSpace c = true.
Proof.
  intros Hp E. unfold notSpace. rewrite <- isSpace_lower, E.
  apply isLower_range in Hp. rewrite isSpace_not_letter by lia. reflexivity.
Qed.

Lemma takeWhile_all p s : forallb p s = true -> takeWhile p s = s.
Proof.
  induction s as [| c s IH]; simpl; [reflexivity |]. intros H.
  apply andb_true_iff in H. destruct H as [Hc Hs]. rewrite Hc. now rewrite IH.
Qed.

Lemma dropWhile_all p s : forallb p s = true -> dropWhile p s = [].
Proof.
  induction s as [| c s IH]; simpl; [reflexivity |]. intros H.
  apply andb_true_iff in H. destruct H as [Hc Hs]. rewrite Hc. now apply IH.
Qed.

Lemma matchAt_title prev c r :
  Chars.isWord c = true -> forallb notSpace r = true ->
  matchAt titleRe prev (c :: r) = Some (S (length r), []).
Proof.
  intros Hc Hr. unfold matchAt, titleRe, star. cbn [run]. rewrite Hc.
  apply repGreedy_max; rewrite ?takeWhile_all, ?dropWhile_all by assumption; [| lia].
  cbn [length]. now rewrite Nat.sub_0_r.
Qed.

Lemma replaceAllFrom_skip_all r f s : forall prev,
  matchAt r (lastOr prev s) [] = None ->
  replaceAllFrom r f prev (length s) s = [].
Proof.
  induction s as [| c s IH]; intros prev H; cbn [replaceAllFrom length].
  - simpl in H. now rewrite H.
  - apply IH. exact H.
Qed.

Lemma titleCase_token c r :
  Chars.isWord c = true -> forallb notSpace r = true ->
  titleCase (c :: r) = toUpperCase [c] ++ toLowerCase r.
Proof.
  intros Hc Hr.
  change (titleCase (c :: r))
    with (replaceAllFrom titleRe
            (fun w => toUpperCase (firstn 1 w) ++ toLowerCase (skipn 1 w))
            None 0 (c :: r)).
  cbn [replaceAllFrom]. rewrite matchAt_title by assumption.
  rewrite replaceAllFrom_skip_all by reflexivity.
  rewrite app_nil_r. cbn [firstn]. rewrite firstn_all. reflexivity.
Qed.

Lemma roleWords_title :
  Forall (fun W => exists P rest, js W = P :: rest /\ Chars.isUpper P = true
                                  /\ Forall (fun p => Chars.isLower p = true) rest)
         roleWords.
Proof.
  repeat constructor;
    (eexists; eexists; split; [reflexivity | split; [reflexivity | repeat constructor]]).
Qed.

Lemma titleCase_role W w :
  In W roleWords -> Forall2 (fun p c => Chars.ci p c = true) (js W) w ->
  titleCase w = js W.
Proof.
  intros HW H.
  destruct (proj1 (Forall_forall _ _) roleWords_title W HW) as (P & rest & E & HP & Hrest).
  rewrite E in H |- *. inversion H as [| ? c ? r Hc Hr]; subst.
  destruct (ci_upper_pat P c HP Hc) as [Eu Hw].
  apply (Forall2_ci_lower rest Hrest) in Hr.
  assert (Hn : forallb notSpace r = true).
  { apply forallb_forall. intros x Hx. rewrite Forall_forall in Hrest.
    apply (lower_pat_notSpace (Chars.lower x) x); [| reflexivity].
    apply Hrest. rewrite <- Hr. unfold asciiLower. now apply in_map. }
  assert (Ac : (c < 128)%N).
  { destruct (N.lt_ge_cases c 128) as [A | A]; [assumption |].
    rewrite upper_beyond in Eu by assumption. apply isUpper_range in HP. lia. }
  assert (Ar : Forall (fun x => (x < 128)%N) r).
  { apply Forall_forall. intros x Hx.
    destruct (N.lt_ge_cases x 128) as [A | A]; [assumption |].
    assert (Hl : Chars.isLower (Chars.lower x) = true).
    { rewrite Forall_forall in Hrest. apply Hrest. rewrite <- Hr.
      unfold asciiLower. now apply in_map. }
    rewrite lower_beyond in Hl by assumption. apply isLower_range in Hl. lia. }
  rewrite titleCase_token by assumption.
  rewrite toUpperCase_ascii by (now constructor).
  rewrite toLowerCase_ascii by assumption.
  unfold asciiUpper. cbn [map app]. now rewrite Eu, Hr.
Qed.

Lemma extractRole_role fragment :
  role (extractRole fragment) = None
  \/ exists W, In W roleWords /\ role (extractRole fragment) = Some (js W).
Proof.
  unfold extractRole. cbn [role].
  destruct (exec (roleRe true) fragment) as [m |] eqn:E; [| now left].
  unfold exec in E. apply execFrom_Some in E.
  destruct E as (u & v & n & _ & Hm & _).
  apply matchAt_sound in Hm. destruct Hm as (p' & w0 & s' & _ & _ & R).
  rewrite (proj1 roleRe_shape) in R.
  apply Reaches_roleShape_caps in R; [| reflexivity].
  destruct R as (w & p4 & s5 & p5 & Hg & R). rewrite Hg. simpl.
  apply Reaches_roleWords in R. destruct R as (W & w' & HW & Ew & H).
  apply app_inv_tail in Ew. subst w'.
  right. exists W. split; [assumption |]. f_equal. now apply titleCase_role.
Qed.

Lemma extractRole_name_trimmed fragment :
  trim (name (extractRole fragment)) = name (extractRole fragment).
Proof. unfold extractRole, stripQuotes. cbn [name]. apply trim_idem. Qed.

Lemma roleShape_nomatch inner prev v :
  match v with c :: _ => c <> lparen | [] => True end ->
  matchAt (roleShape inner) prev v = None.
Proof.
  intros H. destruct (matchAt (roleShape inner) prev v) as [[n cs] |] eqn:E; [| reflexivity].
  assert (Hm : matchAt (roleShape inner) prev v <> None) by congruence.
  apply matchAt_iff in Hm. destruct Hm as (p' & s' & cs' & R).
  apply Reaches_roleShape_paren in R. destruct R as (v' & ->). contradiction.
Qed.

(** X9: what [extractRole] returns.  The role, when there is one, is one
    of the ten role words, written as in the list (first letter upper
    case, the rest lower case) whatever the case in the text; the name has
    no white space at either end; and a fragment without an opening
    parenthesis has no role, its name being the fragment trimmed and
    stripped of one wrapping quote on each side. *)
Theorem extractRole_result :
  forall fragment : jsstring,
    (role (extractRole fragment) = None
     \/ exists W, In W roleWords /\ role (extractRole fragment) = Some (js W))
    /\ trim (name (extractRole fragment)) = name (extractRole fragment)
    /\ (~ In lparen fragment ->
        extractRole fragment = mkParty (stripQuotes (trim fragment)) None).
Proof.
  intros fragment. split; [apply extractRole_role |].
  split; [apply extractRole_name_trimmed |].
  intros Hp.
  assert (Hno : forall inner u v, fragment = u ++ v ->
                  matchAt (roleShape inner) (lastOr None u) v = None).
  { intros inner u v ->. apply roleShape_nomatch. destruct v as [| c v]; [exact I |].
    intros ->. apply Hp, in_app_iff. right. now left. }
  unfold extractRole. rewrite (proj1 roleRe_shape), (proj2 roleRe_shape).
  unfold exec, replaceAll.
  rewrite execFrom_nomatch by apply Hno.
  rewrite replaceAllFrom_nomatch by apply Hno. reflexivity.
Qed.

(** ** What detection stores *)

Lemma orgLoop_from_extractRole orgs : forall candidates p,
  (forall q, In q candidates -> exists f, q = extractRole f) ->
  In p (orgLoop orgs candidates) -> exists f, p = extractRole f.
Proof.
  induction orgs as [| o orgs IH]; intros candidates p Hc Hp; [now apply Hc |].
  rewrite orgLoop_cons in Hp.
  assert (Hc' : forall q, In q (candidates ++ [extractRole o]) -> exists f, q = extractRole f).
  { intros q Hq. apply in_app_iff in Hq. destruct Hq as [Hq | [<- | []]]; eauto. }
  destruct (existsb _ candidates).
  - destruct (2 <=? length candidates); eauto.
  - destruct (2 <=? length (candidates ++ [extractRole o])); eauto.
Qed.

Lemma detectCandidates_from_extractRole t p :
  In p (detectCandidates t) -> exists f, p = extractRole f.
Proof.
  assert (Hr : forall q, In q (recitalCandidates t) -> exists f, q = extractRole f).
  { intros q. unfold recitalCandidates. destruct (recitalMatch t) as [[a b] |]; [| intros []].
    rewrite !pushScrubbed_pushedFor. simpl. intros Hq.
    apply in_app_iff in Hq. unfold pushedFor in Hq.
    destruct Hq as [Hq | Hq].
    - destruct (truthy (scrubName a)); [destruct Hq as [<- | []]; eauto | destruct Hq].
    - destruct (truthy (scrubName b)); [destruct Hq as [<- | []]; eauto | destruct Hq]. }
  unfold detectCandidates. destruct (_ <? 2); [| apply Hr].
  now apply orgLoop_from_extractRole.
Qed.

Lemma detectedParties_sub text p :
  In p (detectedParties text) ->
  In p (detectParties text) /\ test STOPWORDS (trim (name p)) = false.
Proof.
  unfold detectedParties. intros H.
  destruct (dedupePartiesFrom_first _ _ _ _ H) as [[] | (pre & post & E & _)].
  assert (Hf : In p (filter (fun p => negb (test STOPWORDS (trim (name p))))
                            (detectParties text)))
    by (rewrite E; apply in_app_iff; right; now left).
  apply filter_In in Hf. destruct Hf as [Hin Ht]. split; [assumption |].
  now apply negb_true_iff in Ht.
Qed.

Lemma normalizeSpaces_blank s :
  forallb Chars.isSpace s = true -> normalizeSpaces s = [].
Proof.
  intros H. rewrite normalizeSpaces_eq. apply trim_all_space.
  apply forallb_forall. intros x Hx. apply collapseFrom_In in Hx.
  destruct Hx as [[Hx _] | ->]; [| reflexivity].
  apply replaceAllFrom_In in Hx. destruct Hx as [Hx | [<- | []]]; [| reflexivity].
  rewrite forallb_forall in H. now apply H.
Qed.

Lemma forallb_firstn (p : char -> bool) n s :
  forallb p s = true -> forallb p (firstn n s) = true.
Proof.
  intros H. apply forallb_forall. intros x Hx. rewrite forallb_forall in H.
  apply H. rewrite <- (firstn_skipn n s). apply in_app_iff. now left.
Qed.

(** X10: what [detectAndRenderParties] stores.  It reads at most 12000
    code units of the body; the stored list is the detected one: at most
    two parties, no two with one key, none whose name is a stopword, every
    name without white space at its ends and every role absent or one of
    the ten role words; the stored selection is the name of the first
    party (none when the list is empty or that name is empty); a body
    of white space only gives an empty list and no selection; and keys
    are lower-cased as the language does it, so a recital between a name
    with an accented capital and the same name in small letters stores
    one party. *)
Theorem detectAndRenderParties_stores :
  forall (bodyText : jsstring) (st : Settings),
    length (readDocumentHeadText READ_TEXT_LIMIT bodyText) <= Z.to_nat READ_TEXT_LIMIT
    /\ parties (detectAndRenderParties bodyText st)
       = Some (detectedParties (readDocumentHeadText READ_TEXT_LIMIT bodyText))
    /\ length (detectedParties (readDocumentHeadText READ_TEXT_LIMIT bodyText)) <= 2
    /\ NoDup (map partyKey (detectedParties (readDocumentHeadText READ_TEXT_LIMIT bodyText)))
    /\ (forall p,
          In p (detectedParties (readDocumentHeadText READ_TEXT_LIMIT bodyText)) ->
          ~ In (asciiLower (name p)) stopWords
          /\ trim (name p) = name p
          /\ (role p = None \/ exists W, In W roleWords /\ role p = Some (js W)))
    /\ selectedParty (detectAndRenderParties bodyText st)
       = match detectedParties (readDocumentHeadText READ_TEXT_LIMIT bodyText) with
         | p :: _ => if truthy (name p) then Some (name p) else None
         | [] => None
         end
    /\ (forallb Chars.isSpace bodyText = true ->
        parties (detectAndRenderParties bodyText st) = Some []
        /\ selectedParty (detectAndRenderParties bodyText st) = None)
    /\ parties (detectAndRenderParties
                  (js "made between " ++ 201%N :: js "cole and " ++ 233%N :: js "cole.")
                  st)
       = Some [mkParty (201%N :: js "cole") None].
Proof.
  intros bodyText st.
  set (text := readDocumentHeadText READ_TEXT_LIMIT bodyText).
  assert (Hsel : selectedParty (detectAndRenderParties bodyText st)
                 = match detectedParties text with
                   | p :: _ => if truthy (name p) then Some (name p) else None
                   | [] => None
                   end).
  { unfold detectAndRenderParties. fold text. cbv zeta.
    destruct (detectedParties text); reflexivity. }
  split; [| split; [| split; [| split; [| split; [| split; [| split]]]]]].
  - unfold text, readDocumentHeadText. apply firstn_le_length.
  - reflexivity.
  - unfold detectedParties. etransitivity; [apply dedupeParties_length |].
    etransitivity; [apply filter_length_le |].
    rewrite detectParties_untruncated. apply detectCandidates_length.
  - apply dedupePartiesFrom_NoDup, dedupeInv_empty.
  - intros p Hp. apply detectedParties_sub in Hp. destruct Hp as [Hin Ht].
    rewrite detectParties_untruncated in Hin.
    apply detectCandidates_from_extractRole in Hin. destruct Hin as (f & ->).
    rewrite extractRole_name_trimmed in Ht.
    split; [| split; [apply extractRole_name_trimmed | apply extractRole_role]].
    intros H. apply test_STOPWORDS in H. congruence.
  - exact Hsel.
  - intros Hb.
    assert (E : detectedParties text = []).
    { unfold detectedParties, detectParties.
      rewrite normalizeSpaces_blank by (apply forallb_firstn; exact Hb).
      vm_compute; reflexivity. }
    rewrite Hsel. change (parties (detectAndRenderParties bodyText st))
      with (Some (detectedParties text)). now rewrite E.
  - vm_compute; reflexivity.
Qed.

(** ** The order of the terms *)

Lemma insertByLength_perm t l : Permutation (t :: l) (insertByLength t l).
Proof.
  induction l as [| u l IH]; simpl; [reflexivity |].
  destruct (length u <=? length t); [reflexivity |].
  etransitivity; [apply perm_swap |]. now constructor.
Qed.

Lemma insertByLength_sorted t l :
  StronglySorted longerFirst l -> StronglySorted longerFirst (insertByLength t l).
Proof.
  induction 1 as [| u l Hs IH Hu]; simpl.
  - repeat constructor.
  - destruct (Nat.leb_spec (length u) (length t)).
    + constructor; [now constructor |].
      constructor; [assumption |].
      eapply Forall_impl; [| exact Hu]. unfold longerFirst. intros x Hx. lia.
    + constructor; [assumption |].
      apply (Permutation_Forall (insertByLength_perm t l)).
      constructor; [unfold longerFirst; lia | assumption].
Qed.

Lemma insertByLength_filter n t l :
  filter (fun x => length x =? n) (insertByLength t l)
  = if length t =? n then t :: filter (fun x => length x =? n) l
    else filter (fun x => length x =? n) l.
Proof.
  induction l as [| u l IH]; simpl; [reflexivity |].
  destruct (Nat.leb_spec (length u) (length t)); [reflexivity |].
  simpl. rewrite IH.
  destruct (Nat.eqb_spec (length u) n), (Nat.eqb_spec (length t) n); try reflexivity.
  lia.
Qed.

(** X11: the sort of [onNext] keeps the terms (the sorted list is a
    permutation of the built one), puts no term before a longer one, and
    keeps terms of one length in the order [buildTerms] gave them. *)
Theorem terms_sorted_longest_first :
  forall l : list jsstring,
    Permutation l (sortByLengthDesc l)
    /\ StronglySorted longerFirst (sortByLengthDesc l)
    /\ (forall n, filter (fun x => length x =? n) (sortByLengthDesc l)
                  = filter (fun x => length x =? n) l).
Proof.
  intros l. split; [| split].
  - induction l as [| t l IH]; simpl; [constructor |].
    etransitivity; [| apply insertByLength_perm]. now constructor.
  - induction l as [| t l IH]; simpl; [constructor |]. now apply insertByLength_sorted.
  - intros n. induction l as [| t l IH]; simpl; [reflexivity |].
    rewrite insertByLength_filter, IH. reflexivity.
Qed.

(** ** Content controls of others *)

Lemma filter_ours_marks (Range : Type) (added : list Range) :
  filter (@isOurs Range) (map (@mark Range) added) = map (@mark Range) added.
Proof. induction added as [| r added IH]; simpl; [reflexivity | now rewrite IH]. Qed.

Lemma filter_ours_foreign (Range : Type) (cs : list (ContentControl Range)) :
  filter (@isOurs Range) (filter (fun cc => negb (isOurs cc)) cs) = [].
Proof.
  induction cs as [| cc cs IH]; simpl; [reflexivity |].
  destruct (isOurs cc) eqn:E; simpl; [assumption |]. now rewrite E.
Qed.

(** X12: [onNext] with a selection touches only its own content
    controls.  The controls without our tag are all still there, in their
    order; every control with our tag is one it has just put in, with the
    highlight colour; the total it reports is the number of controls with
    our tag in the document; the stored parties are as before and the
    stored selection is the name of the highlighted party (none when that
    name is empty).  Without a selection nothing is changed at all. *)
Theorem onNext_touches_only_ours :
  forall (Range : Type) (search : jsstring -> SearchOptions -> list Range)
         (syncOk : list (ContentControl Range) -> list Range -> bool)
         (st : Settings) (d : Doc Range),
    (forall sel, truthy sel = true ->
       filter (fun cc => negb (isOurs cc))
              (controls (outDoc (onNext search syncOk (Some sel) st d)))
       = filter (fun cc => negb (isOurs cc)) (controls d)
       /\ outTotal (onNext search syncOk (Some sel) st d)
          = Some (length (filter (@isOurs Range)
                            (controls (outDoc (onNext search syncOk (Some sel) st d)))))
       /\ (forall cc, In cc (controls (outDoc (onNext search syncOk (Some sel) st d))) ->
                      isOurs cc = true -> ccHighlight cc = Some HIGHLIGHT_COLOR)
       /\ parties (outSettings (onNext search syncOk (Some sel) st d)) = parties st
       /\ selectedParty (outSettings (onNext search syncOk (Some sel) st d))
          = if truthy (name (partyFor sel st)) then Some (name (partyFor sel st)) else None)
    /\ onNext search syncOk None st d = mkOutcome d st None
    /\ onNext search syncOk (Some []) st d = mkOutcome d st None.
Proof.
  intros Range search syncOk st d. split; [| split; reflexivity].
  intros sel Hs. rewrite (onNext_eq Range search syncOk sel st d Hs).
  cbn [outDoc outTotal outSettings].
  destruct (highlightTerms_added Range search syncOk (termsFor (partyFor sel st)) 0
              (clearPartyHighlights d)) as (added & Hn & Hc).
  rewrite Hc, Hn. unfold clearPartyHighlights at 1 2 3. cbn [controls].
  split; [| split; [| split; [| split]]].
  - now rewrite filter_app, filter_idem, filter_marks, app_nil_r.
  - rewrite filter_app, filter_ours_foreign, filter_ours_marks. cbn [app].
    now rewrite length_map.
  - intros cc Hin Ho. apply in_app_iff in Hin. destruct Hin as [Hin | Hin].
    + apply filter_In in Hin. destruct Hin as [_ Hin]. rewrite Ho in Hin. discriminate.
    + apply in_map_iff in Hin. destruct Hin as (r & <- & _). reflexivity.
  - reflexivity.
  - reflexivity.
Qed.

(** X13: [clearPartyHighlights] and [onReset].  Clearing removes every
    control with our tag and keeps the others in their order; on a
    document without our controls it changes nothing; clearing twice is
    clearing once; and [onReset] also empties the stored selection and
    keeps the stored parties. *)
Theorem reset_removes_only_ours :
  forall (Range : Type) (st : Settings) (d : Doc Range),
    filter (@isOurs Range) (controls (clearPartyHighlights d)) = []
    /\ filter (fun cc => negb (isOurs cc)) (controls (clearPartyHighlights d))
       = filter (fun cc => negb (isOurs cc)) (controls d)
    /\ (forall cc, In cc (controls (clearPartyHighlights d))
                   <-> In cc (controls d) /\ isOurs cc = false)
    /\ (filter (@isOurs Range) (controls d) = [] -> clearPartyHighlights d = d)
    /\ clearPartyHighlights (clearPartyHighlights d) = clearPartyHighlights d
    /\ onReset st d = (clearPartyHighlights d, mkSettings (parties st) None).
Proof.
  intros Range st d. split; [apply clear_no_ours |].
  split; [unfold clearPartyHighlights; simpl; apply filter_idem |].
  split; [| split; [| split]].
  - intros cc. unfold clearPartyHighlights. simpl. rewrite filter_In, negb_true_iff. tauto.
  - intros H. destruct d as [cs log]. unfold clearPartyHighlights. simpl in *. f_equal.
    induction cs as [| cc cs IH]; simpl in *; [reflexivity |].
    destruct (isOurs cc); simpl; [discriminate H | f_equal; now apply IH].
  - unfold clearPartyHighlights. simpl. now rewrite filter_idem.
  - reflexivity.
Qed.

(** ** Aliases and organization names *)

(** X14: the aliases of a party.  With a non-empty role they are the
    role, the role after the word the, and both in upper case, each once
    (so one to four strings); without a role, or with an empty one, they
    are the forty forms of the ten default roles, whatever the name.  The
    list never holds a string twice.  Upper case is that of the language:
    a role with a sharp s has SS in its upper-case forms. *)
Theorem buildAliases_forms :
  forall p : Party,
    NoDup (buildAliases p)
    /\ (forall r, role p = Some r -> r <> [] ->
          (forall a, In a (buildAliases p) <->
                     a = r \/ a = js "the " ++ r
                     \/ a = toUpperCase r \/ a = js "the " ++ toUpperCase r)
          /\ 1 <= length (buildAliases p) <= 4)
    /\ (role p = None \/ role p = Some [] ->
        buildAliases p = buildAliases (mkParty [] None)
        /\ length (buildAliases p) = 40)
    /\ buildAliases (mkParty (js "Acme") (Some (js "Stra" ++ 223%N :: js "e")))
       = [js "Stra" ++ 223%N :: js "e"; js "the Stra" ++ 223%N :: js "e";
          js "STRASSE"; js "the STRASSE"].
Proof.
  intros p. split; [| split; [| split; [| vm_compute; reflexivity]]].
  - unfold buildAliases. apply fold_setAdd_NoDup. constructor.
  - intros r Hr Hne. unfold buildAliases. rewrite Hr.
    apply truthy_true in Hne. rewrite Hne. unfold addForms, dedupe. cbn [app].
    assert (Hin : forall a,
              In a (fold_left setAdd [r; js "the " ++ r; toUpperCase r;
                                      js "the " ++ toUpperCase r] [])
              <-> a = r \/ a = js "the " ++ r
                  \/ a = toUpperCase r \/ a = js "the " ++ toUpperCase r).
    { intros a. rewrite fold_setAdd_In. simpl. intuition congruence. }
    split; [exact Hin |]. split.
    + assert (Hr0 : In r (fold_left setAdd [r; js "the " ++ r; toUpperCase r;
                                              js "the " ++ toUpperCase r] []))
        by (apply Hin; now left).
      destruct (fold_left setAdd _ []) as [| x l]; [destruct Hr0 | simpl; lia].
    + apply (fold_setAdd_length [r; js "the " ++ r; toUpperCase r;
                                 js "the " ++ toUpperCase r] []).
  - intros H.
    assert (E : buildAliases p = buildAliases (mkParty [] None))
      by (unfold buildAliases; destruct H as [-> | ->]; reflexivity).
    split; [exact E |]. rewrite E. vm_compute; reflexivity.
Qed.

Lemma findOrgNamesIn_length lines : length (findOrgNamesIn lines) <= length lines.
Proof.
  induction lines as [| ln lines IH]; simpl; [lia |].
  destruct (test orgTokens ln); [| lia].
  destruct (exec orgNameRe ln) as [m |]; [| lia].
  destruct (getCap 1 (groups m)); simpl; lia.
Qed.

Lemma findOrgNamesIn_scrubbed lines x :
  In x (findOrgNamesIn lines) -> exists g, x = scrubName g.
Proof.
  induction lines as [| ln lines IH]; simpl; [intros [] |].
  destruct (test orgTokens ln); [| assumption].
  destruct (exec orgNameRe ln) as [m |]; [| assumption].
  destruct (getCap 1 (groups m)) as [g |]; [| assumption].
  intros [<- | H]; [now exists g | now apply IH].
Qed.

(** X15: [findOrgNames] returns at most forty names (one per scanned
    line at most), none of them twice, each without white space at its
    ends. *)
Theorem findOrgNames_bounded :
  forall t : jsstring,
    length (findOrgNames t) <= 40
    /\ NoDup (findOrgNames t)
    /\ (forall x, In x (findOrgNames t) -> trim x = x).
Proof.
  intros t. unfold findOrgNames. cbv zeta. split; [| split].
  - pose proof (fold_setAdd_length
                  (findOrgNamesIn (firstn 40 (split (plus (Chars.exact newline)) t))) [])
      as H1.
    pose proof (findOrgNamesIn_length (firstn 40 (split (plus (Chars.exact newline)) t)))
      as H2.
    pose proof (firstn_le_length 40 (split (plus (Chars.exact newline)) t)) as H3.
    unfold dedupe. cbn [length] in H1. lia.
  - apply fold_setAdd_NoDup. constructor.
  - intros x Hx. unfold dedupe in Hx. apply fold_setAdd_In in Hx.
    destruct Hx as [[] | Hx]. apply findOrgNamesIn_scrubbed in Hx.
    destruct Hx as (g & ->). unfold scrubName, stripQuotes. apply trim_idem.
Qed.

(** ** Counting *)

Section Counting.
Variable Range : Type.
Variable search : jsstring -> SearchOptions -> list Range.
Variable syncOk : list (ContentControl Range) -> list Range -> bool.

Lemma perItem_le slice : forall cs applied,
  fst (perItem syncOk cs applied slice) <= applied + length slice.
Proof.
  induction slice as [| r slice IH]; intros cs applied; simpl; [lia |].
  destruct (trySlice syncOk cs [r]) as [cs' |].
  - specialize (IH cs' (S applied)). lia.
  - specialize (IH cs applied). lia.
Qed.

Lemma processSlice_le st slice :
  fst (processSlice syncOk st slice) <= fst st + length slice.
Proof.
  destruct st as [applied cs]. unfold processSlice.
  destruct (trySlice syncOk cs slice); [simpl; lia | apply perItem_le].
Qed.

Lemma fold_processSlice_le sl : forall st,
  fst (fold_left (processSlice syncOk) sl st) <= fst st + length (concat sl).
Proof.
  induction sl as [| slice sl IH]; intros st; simpl; [lia |].
  specialize (IH (processSlice syncOk st slice)).
  pose proof (processSlice_le st slice). rewrite length_app. lia.
Qed.

Lemma searchAndHighlight_le term wholeWord (d : Doc Range) :
  fst (searchAndHighlight search syncOk term wholeWord d)
  <= length (search term (searchOptions term wholeWord)).
Proof.
  rewrite searchAndHighlight_eq. cbv zeta. destruct (_ && _); simpl; [lia |].
  etransitivity; [apply fold_processSlice_le |]. simpl.
  destruct (slices_chunks Range (search term (searchOptions term wholeWord)))
    as (chunks & E & Hc & _).
  rewrite E, <- concat_map, length_map, Hc, length_rev. lia.
Qed.

Lemma highlightTerms_le terms : forall total (d : Doc Range),
  fst (highlightTerms search syncOk terms total d)
  <= total
     + list_sum (map (fun t => length (search t (searchOptions t (negb (isPossessive t)))))
                     terms).
Proof.
  induction terms as [| term terms IH]; intros total d; [simpl; lia |].
  rewrite highlightTerms_cons. etransitivity; [apply IH |].
  pose proof (searchAndHighlight_le term (negb (isPossessive term)) d). simpl. lia.
Qed.
End Counting.

(** X16: nothing is counted that was not found.  [searchAndHighlight]
    never returns more than the number of matches of its search, and the
    total of [onNext] is at most the sum, over the terms of the party, of
    the numbers of matches. *)
Theorem hits_never_exceed_matches :
  forall (Range : Type) (search : jsstring -> SearchOptions -> list Range)
         (syncOk : list (ContentControl Range) -> list Range -> bool)
         (st : Settings) (d : Doc Range),
    (forall term wholeWord,
       fst (searchAndHighlight search syncOk term wholeWord d)
       <= length (search term (searchOptions term wholeWord)))
    /\ (forall sel total,
          outTotal (onNext search syncOk (Some sel) st d) = Some total ->
          total <= list_sum
                     (map (fun t => length (search t (searchOptions t
                                                       (negb (isPossessive t)))))
                          (termsFor (partyFor sel st)))).
Proof.
  intros Range search syncOk st d. split.
  - intros term wholeWord. apply searchAndHighlight_le.
  - intros sel total H. destruct (truthy sel) eqn:Hs.
    + rewrite (onNext_eq Range search syncOk sel st d Hs) in H. cbn [outTotal] in H.
      injection H as <-.
      apply (highlightTerms_le Range search syncOk (termsFor (partyFor sel st)) 0).
    + unfold onNext in H. rewrite Hs in H. discriminate H.
Qed.

(** ** The recital pattern *)

Lemma firstn_prefix (a s : jsstring) :
  firstn (length (a ++ s) - length s) (a ++ s) = a.
Proof.
  rewrite length_app, Nat.add_sub, firstn_app, Nat.sub_diag, firstn_all. simpl.
  apply app_nil_r.
Qed.

Lemma Reaches_recital prev v prev' s' cs :
  Reaches recitalRe prev v [] prev' s' cs ->
  exists pre w ws a m1 m2 m3 b c,
    v = pre ++ w ++ ws ++ a ++ m1 ++ m2 ++ m3 ++ b ++ c :: s'
    /\ cs = [(2, b); (1, a)]
    /\ asciiLower w = js "between"
    /\ (ws <> [] /\ forallb Chars.isSpace ws = true)
    /\ (2 <= length a <= 140 /\ forallb Chars.dot a = true)
    /\ (m1 <> [] /\ forallb Chars.isSpace m1 = true)
    /\ asciiLower m2 = js "and"
    /\ (m3 <> [] /\ forallb Chars.isSpace m3 = true)
    /\ (2 <= length b <= 140 /\ forallb Chars.dot b = true)
    /\ Chars.oneOf (js ".;," ++ [newline]) c = true.
Proof.
  unfold recitalRe. cbn [seqs]. intros R.
  apply Reaches_Seq in R. destruct R as (p1 & s1 & c1 & R1 & R).
  apply Reaches_Seq in R. destruct R as (p2 & s2 & c2 & R2 & R).
  apply Reaches_Seq in R. destruct R as (p3 & s3 & c3 & R3 & R).
  apply Reaches_Seq in R. destruct R as (p4 & s4 & c4 & R4 & R).
  apply Reaches_Seq in R. destruct R as (p5 & s5 & c5 & R5 & R).
  apply Reaches_Seq in R. destruct R as (p6 & s6 & c6 & R6 & R).
  apply Reaches_Seq in R. destruct R as (p7 & s7 & c7 & R7 & R).
  apply Reaches_Seq in R. destruct R as (p8 & s8 & c8 & R8 & R).
  apply Reaches_Seq in R. destruct R as (p9 & s9 & c9 & R9 & R10).
  destruct R1 as (_ & _ & -> & ->).
  assert (E2 : c2 = []).
  { eapply Reaches_groupFree; [| exact R2]. reflexivity. }
  subst c2.
  destruct (Reaches_suffix _ _ _ _ _ _ _ R2) as (pre & ->).
  unfold litI in R3, R7.
  apply Reaches_litI in R3; [| apply lower_lit; simpl; tauto].
  destruct R3 as (w & -> & Ew & _ & ->).
  apply Reaches_litI in R7; [| repeat constructor].
  destruct R7 as (m2 & -> & Em2 & _ & ->).
  unfold plus in R4, R6, R8. cbn [Reaches] in R4, R5, R6, R8, R9, R10.
  destruct R4 as (ws & -> & Hws & Lws & _ & _ & ->).
  destruct R5 as (cm5 & (a & -> & Ha & La1 & La2 & _ & ->) & ->).
  destruct R6 as (m1 & -> & Hm1 & Lm1 & _ & _ & ->).
  destruct R8 as (m3 & -> & Hm3 & Lm3 & _ & _ & ->).
  destruct R9 as (cm9 & (b & -> & Hb & Lb1 & Lb2 & _ & ->) & ->).
  destruct R10 as (c & -> & Hc & _ & ->).
  exists pre, w, ws, a, m1, m2, m3, b, c.
  rewrite !firstn_prefix.
  assert (Hne : forall x : jsstring, 1 <= length x -> x <> [])
    by (intros x Hx ->; simpl in Hx; lia).
  repeat split; auto.
Qed.

(** X17: what the recital pattern captures.  When it matches, the text
    holds the word between (in any case), white space, the first capture,
    white space, the word and, white space, the second capture and one of
    the terminators full stop, semicolon, comma, line feed, in this order;
    each capture has 2 to 140 code units and no line terminator. *)
Theorem recitalMatch_captures (t a b : jsstring) :
  recitalMatch t = Some (a, b) ->
  (2 <= length a <= 140 /\ forallb Chars.dot a = true)
  /\ (2 <= length b <= 140 /\ forallb Chars.dot b = true)
  /\ exists pre w ws m1 m2 m3 c post,
       t = pre ++ w ++ ws ++ a ++ m1 ++ m2 ++ m3 ++ b ++ c :: post
       /\ asciiLower w = js "between"
       /\ (ws <> [] /\ forallb Chars.isSpace ws = true)
       /\ (m1 <> [] /\ forallb Chars.isSpace m1 = true)
       /\ asciiLower m2 = js "and"
       /\ (m3 <> [] /\ forallb Chars.isSpace m3 = true)
       /\ Chars.oneOf (js ".;," ++ [newline]) c = true.
Proof.
  unfold recitalMatch. intros H.
  destruct (exec recitalRe t) as [m |] eqn:E; [| discriminate].
  unfold exec in E. apply execFrom_Some in E.
  destruct E as (u & v & n & -> & Hm & _).
  apply matchAt_sound in Hm. destruct Hm as (p' & w0 & s' & _ & _ & R).
  apply Reaches_recital in R.
  destruct R as (pre & w & ws & a0 & m1 & m2 & m3 & b0 & c & -> & Hg & Hw & Hws
                 & Ha & Hm1 & Hm2 & Hm3 & Hb & Hc).
  rewrite Hg in H. simpl in H. injection H as <- <-.
  split; [assumption |]. split; [assumption |].
  exists (u ++ pre), w, ws, m1, m2, m3, c, s'.
  rewrite <- app_assoc. repeat split; try tauto.
Qed.

Lemma recitalMatch_captures_witness :
  recitalMatch (js "by and between Acme Inc and John Doe, a person.")
  = Some (js "Acme Inc", js "John Doe")
  /\ 2 <= length (js "Acme Inc") <= 140.
Proof.
  assert (H : recitalMatch (js "by and between Acme Inc and John Doe, a person.")
              = Some (js "Acme Inc", js "John Doe")) by (vm_compute; reflexivity).
  split; [exact H |].
  exact (proj1 (proj1 (recitalMatch_captures _ _ _ H))).
Defined.

(** ** The terms of a party *)

Lemma sortByLengthDesc_perm l : Permutation l (sortByLengthDesc l).
Proof.
  induction l as [| t l IH]; simpl; [constructor |].
  etransitivity; [| apply insertByLength_perm]. now constructor.
Qed.

Lemma sortByLengthDesc_sorted l : StronglySorted longerFirst (sortByLengthDesc l).
Proof.
  induction l as [| t l IH]; simpl; [constructor |]. now apply insertByLength_sorted.
Qed.

Lemma possessive_nonempty x : x <> [] -> trim (makePossessive x) <> [].
Proof.
  intros H. destruct (makePossessive_shape x H) as [-> | ->].
  - change (js "'") with [apostrophe]. rewrite trim_keeps_last by reflexivity.
    intros E. now apply app_eq_nil in E.
  - change (js "'s") with [apostrophe; 115%N]. rewrite trim_keeps_two by reflexivity.
    intros E. now apply app_eq_nil in E.
Qed.

Lemma trim_nonempty_arg x : trim x <> [] -> x <> [].
Proof. intros H ->. now apply H. Qed.

Lemma pronouns_plain nm pr : In pr (pronounsFor nm) -> pr <> [] /\ trim pr = pr.
Proof.
  unfold pronounsFor. destruct (_ || _); simpl;
    intros [<- | [<- | [<- | []]]]; split; (discriminate || (vm_compute; reflexivity)).
Qed.

(** X18: the terms [onNext] searches for a party.  They are pairwise
    different, none is empty or has white space at its ends; a name that
    is not blank is among them, trimmed, and so is its possessive; so is
    every alias that is not blank, with its possessive; so are the
    pronouns of the party; and the first term is a longest one. *)
Theorem termsFor_content :
  forall party : Party,
    NoDup (termsFor party)
    /\ (forall t, In t (termsFor party) -> t <> [] /\ trim t = t)
    /\ (trim (name party) <> [] ->
        In (trim (name party)) (termsFor party)
        /\ In (trim (makePossessive (name party))) (termsFor party))
    /\ (forall a, In a (buildAliases party) -> trim a <> [] ->
        In (trim a) (termsFor party) /\ In (trim (makePossessive a)) (termsFor party))
    /\ (forall pr, In pr (pronounsFor (name party)) -> In pr (termsFor party))
    /\ (forall t rest u, termsFor party = t :: rest -> In u rest -> length u <= length t).
Proof.
  intros party.
  set (terms := buildTerms (name party) (buildAliases party) (pronounsFor (name party))).
  assert (Hp : Permutation terms (termsFor party)) by apply sortByLengthDesc_perm.
  assert (Hin : forall t, In t terms -> In t (termsFor party))
    by (intros t; apply Permutation_in; exact Hp).
  split; [| split; [| split; [| split; [| split]]]].
  - apply (Permutation_NoDup Hp), buildTerms_NoDup.
  - intros t Ht. apply (Permutation_in _ (Permutation_sym Hp)) in Ht.
    apply buildTerms_In in Ht. destruct Ht as [Hne H]. split; [assumption |].
    destruct H as [-> | [-> | [(a & _ & [-> | ->]) | (p & _ & ->)]]]; apply trim_idem.
  - intros Hn. split; apply Hin, buildTerms_In.
    + split; [assumption | now left].
    + split; [apply possessive_nonempty; now apply trim_nonempty_arg | right; now left].
  - intros a Ha Hn. split; apply Hin, buildTerms_In.
    + split; [assumption |]. right. right. left. exists a. auto.
    + split; [apply possessive_nonempty; now apply trim_nonempty_arg |].
      right. right. left. exists a. auto.
  - intros pr Hpr. apply Hin, buildTerms_In.
    destruct (pronouns_plain _ _ Hpr) as [Hne Ht]. split; [assumption |].
    right. right. right. exists pr. split; [assumption | now symmetry].
  - intros t rest u E Hu.
    pose proof (sortByLengthDesc_sorted terms) as Hs. fold (termsFor party) in Hs.
    change (sortByLengthDesc terms) with (termsFor party) in Hs.
    rewrite E in Hs. inversion Hs as [| ? ? _ Hall]; subst.
    rewrite Forall_forall in Hall. now apply Hall.
Qed.

(** ** The number of batches *)

Lemma slicesFrom_count (Range : Type) (items : list Range) fuel : forall j,
  j <= length items -> length items - j <= fuel ->
  length items - j
  <= 60 * length (slicesFrom fuel items (Z.of_nat (length items) - 1 - Z.of_nat j))
  < length items - j + 60.
Proof.
  induction fuel as [| fuel IH]; intros j Hj Hf.
  - assert (j = length items) by lia. subst j. simpl.
    destruct (_ <? 0)%Z; simpl; lia.
  - rewrite slicesFrom_unfold.
    destruct (Z.ltb_spec (Z.of_nat (length items) - 1 - Z.of_nat j) 0) as [H | H].
    + simpl. lia.
    + set (k := Nat.min (length items - j) 60).
      assert (Hend : Z.max (-1) (Z.of_nat (length items) - 1 - Z.of_nat j - BATCH_SIZE)
                     = (Z.of_nat (length items) - 1 - Z.of_nat (j + k))%Z)
        by (unfold BATCH_SIZE, k; lia).
      rewrite Hend. cbn [length].
      specialize (IH (j + k)). unfold k in *. lia.
Qed.

(** X19: the batch loop makes as few turns as batches of sixty allow: for
    n matches the number of slices, hence of turns and of whole-batch
    syncs tried, is n / 60 rounded up (none for no match). *)
Theorem batch_loop_turns :
  forall (Range : Type) (items : list Range),
    length items <= 60 * length (slices items) < length items + 60
    /\ (items = [] -> slices items = [])
    /\ (length items <= 60 -> items <> [] -> length (slices items) = 1).
Proof.
  intros Range items.
  assert (H : length items - 0 <= 60 * length (slices items) < length items - 0 + 60).
  { unfold slices.
    replace (Z.of_nat (length items) - 1)%Z
      with (Z.of_nat (length items) - 1 - Z.of_nat 0)%Z by lia.
    apply slicesFrom_count; lia. }
  split; [lia |]. split.
  - intros ->. reflexivity.
  - intros Hle Hne. destruct items as [| x items]; [congruence |]. simpl length in *. lia.
Qed.
